(** * Audio engine of the sound editor: effects, WAV codec, history,
      multi-track scheduling and mixdown.

    The development follows [src/utils/audio.ts], the editor component
    (history, playback) and the waveform component (peak downsampling).

    Numbers.  A JavaScript number is modelled as an exact rational or [NaN]:
    IEEE rounding, signed zeros and the infinities are abstracted away.  [NaN]
    is kept because reading a typed array outside its bounds yields
    [undefined], which arithmetic turns into [NaN].

    Storage.  An [AudioBuffer] owns one [Float32Array] per channel.  Arrays
    live in a heap and buffers hold references to them, so that mutation and
    aliasing are visible: [getChannelData] hands out the reference, not a
    copy. *)

From Stdlib Require Import Strings.String Strings.Ascii.
From Stdlib Require Import ZArith QArith Qround Qabs Lia Lqa List.
From stdpp Require Import base list.
Import ListNotations.

Local Open Scope Z_scope.

(** ** JavaScript numbers *)

Inductive num : Type :=
  | Fin (q : Q)
  | NaN.

Definition zero : num := Fin 0.

Definition num_mul (a b : num) : num :=
  match a, b with
  | Fin x, Fin y => Fin (x * y)
  | _, _ => NaN
  end.

Definition num_add (a b : num) : num :=
  match a, b with
  | Fin x, Fin y => Fin (x + y)
  | _, _ => NaN
  end.

Definition num_sub (a b : num) : num :=
  match a, b with
  | Fin x, Fin y => Fin (x - y)
  | _, _ => NaN
  end.

(** [a / b].  The engine divides by a non-zero number everywhere except in
    the peak downsampling, where an empty block gives [0 / 0], that is [NaN]. *)
Definition num_div (a b : num) : num :=
  match a, b with
  | Fin x, Fin y => if Qeq_bool y 0 then NaN else Fin (x / y)
  | _, _ => NaN
  end.

(** [Math.abs] *)
Definition num_abs (a : num) : num :=
  match a with
  | Fin x => Fin (Qabs x)
  | NaN => NaN
  end.

(** [Math.max] and [Math.min] of two arguments: [NaN] if either is. *)
Definition num_max (a b : num) : num :=
  match a, b with
  | Fin x, Fin y => if Qle_bool x y then Fin y else Fin x
  | _, _ => NaN
  end.

Definition num_min (a b : num) : num :=
  match a, b with
  | Fin x, Fin y => if Qle_bool x y then Fin x else Fin y
  | _, _ => NaN
  end.

(** [a < b]: false as soon as one side is [NaN]. *)
Definition num_ltb (a b : num) : bool :=
  match a, b with
  | Fin x, Fin y => negb (Qle_bool y x)
  | _, _ => false
  end.

(** [a === 0] *)
Definition num_is_zero (a : num) : bool :=
  match a with
  | Fin x => Qeq_bool x 0
  | NaN => false
  end.

Definition of_Z (z : Z) : num := Fin (inject_Z z).

(** Two numbers denote the same value. *)
Definition num_eqv (a b : num) : Prop :=
  match a, b with
  | Fin x, Fin y => (x == y)%Q
  | NaN, NaN => True
  | _, _ => False
  end.

(** ** Typed arrays *)

Abbreviation Float32Array := (list num) (only parsing).

(** [a[j]] in a numeric context; outside the bounds it is [undefined],
    hence [NaN]. *)
Definition index (a : Float32Array) (j : Z) : num :=
  if j <? 0 then NaN else default NaN (a !! Z.to_nat j).

(** [a[j] = v]; a typed array never grows, a write outside it is dropped. *)
Definition store (a : Float32Array) (j : Z) (v : num) : Float32Array :=
  if j <? 0 then a else <[Z.to_nat j := v]> a.

(** [for (let j = s; j < e; j++) body] on a loop state. *)
Definition for_range {St : Type} (s e : Z) (body : Z -> St -> St) (st : St) : St :=
  fold_left (fun st j => body j st) (seqZ s (e - s)) st.

(** Index clamping of [TypedArray.prototype.subarray]: a negative index
    counts from the end. *)
Definition relative_index (len i : Z) : Z :=
  if i <? 0 then Z.max (len + i) 0 else Z.min i len.

(** The elements seen through [a.subarray(b, e)]. *)
Definition subarray (a : Float32Array) (b e : Z) : Float32Array :=
  let len := Z.of_nat (length a) in
  let first := relative_index len b in
  let final := relative_index len e in
  take (Z.to_nat (Z.max (final - first) 0)) (drop (Z.to_nat first) a).

(** ** The heap of sample arrays, and the monad of the engine *)

Inductive error : Type :=
  | InvalidTrimRange   (* "Invalid trim range. End time must be after start time." *)
  | NoTracksToRender   (* "No tracks to render" *)
  | RangeError.        (* thrown by the platform: offset out of bounds *)

Inductive result (A : Type) : Type :=
  | Ok (a : A)
  | Throw (e : error).
Arguments Ok {A} a.
Arguments Throw {A} e.

Abbreviation loc := nat (only parsing).
Abbreviation heap := (list (list num)) (only parsing).

Definition M (A : Type) : Type := heap -> heap * result A.

#[global] Instance M_ret : MRet M := fun A a h => (h, Ok a).
#[global] Instance M_bind : MBind M := fun A B f m h =>
  match m h with
  | (h', Ok a) => f a h'
  | (h', Throw e) => (h', Throw e)
  end.

Definition throw {A : Type} (e : error) : M A := fun h => (h, Throw e).

(** The array behind a reference. *)
Definition get (h : heap) (l : loc) : Float32Array := default [] (h !! l).

Definition readArr (l : loc) : M Float32Array :=
  fun h => (h, Ok (get h l)).

Definition writeArr (l : loc) (a : Float32Array) : M unit :=
  fun h => (<[l := a]> h, Ok tt).

(** Run [f] on every element, in order, stopping at the first exception. *)
Fixpoint forM {A : Type} (xs : list A) (f : A -> M unit) : M unit :=
  match xs with
  | [] => mret tt
  | x :: xs' => _ ← f x; forM xs' f
  end.

Fixpoint foldM {A St : Type} (xs : list A) (f : St -> A -> M St) (st : St) : M St :=
  match xs with
  | [] => mret st
  | x :: xs' => st' ← f st x; foldM xs' f st'
  end.

(** ** Audio buffers *)

Record AudioBuffer : Type := mkAudioBuffer {
  buf_length : nat;          (* buffer.length, in frames *)
  sampleRate : Q;            (* buffer.sampleRate *)
  channelData : list loc     (* getChannelData(i), one array per channel *)
}.

Definition numberOfChannels (b : AudioBuffer) : nat := length (channelData b).

(** [buffer.duration] *)
Definition duration (b : AudioBuffer) : Q :=
  (inject_Z (Z.of_nat (buf_length b)) / sampleRate b)%Q.

(** [context.createBuffer(channels, frames, rate)]: fresh arrays of zeros.
    The platform refuses a buffer without frames or channels; the engine never
    asks for one: [trimAudioBuffer] checks the frame count first, and the other
    callers copy the shape of a buffer that exists. *)
Definition createBuffer (channels frames : nat) (rate : Q) : M AudioBuffer :=
  fun h =>
    (h ++ replicate channels (replicate frames zero),
     Ok (mkAudioBuffer frames rate (seq (length h) channels))).

(** [target.set(source, offset)] *)
Definition typed_set (target : loc) (source : Float32Array) (offset : Z) : M unit :=
  t ← readArr target;
  if (offset <? 0) || (Z.of_nat (length t) <? offset + Z.of_nat (length source))
  then throw RangeError
  else writeArr target
         (take (Z.to_nat offset) t ++ source
            ++ drop (Z.to_nat offset + length source) t).

(** [buffer.copyToChannel(source, i)]: copies as much as fits. *)
Definition copyToChannel (target : loc) (source : Float32Array) : M unit :=
  t ← readArr target;
  writeArr target (take (length t) source ++ drop (length source) t).

(** Math.floor(t * rate) *)
Definition toSample (t rate : Q) : Z := Qfloor (t * rate).

(** ** Effects ([src/utils/audio.ts]) *)

Definition trimAudioBuffer (buffer : AudioBuffer) (start end_ : Q) : M AudioBuffer :=
  let startOffset := toSample start (sampleRate buffer) in
  let endOffset := toSample end_ (sampleRate buffer) in
  let frameCount := endOffset - startOffset in
  if frameCount <=? 0 then throw InvalidTrimRange
  else
    newBuffer ← createBuffer (numberOfChannels buffer) (Z.to_nat frameCount)
                  (sampleRate buffer);
    _ ← forM (zip (channelData buffer) (channelData newBuffer))
          (fun '(channelData, newChannelData) =>
             a ← readArr channelData;
             typed_set newChannelData (subarray a startOffset endOffset) 0);
    mret newBuffer.

Definition cloneAudioBuffer (buffer : AudioBuffer) : M AudioBuffer :=
  newBuffer ← createBuffer (numberOfChannels buffer) (buf_length buffer)
                (sampleRate buffer);
  _ ← forM (zip (channelData buffer) (channelData newBuffer))
        (fun '(src, dst) => a ← readArr src; copyToChannel dst a);
  mret newBuffer.

(** The body shared by the in-place loops: every channel of [b] is run
    through [for (j = s; j < e; j++) channelData[j] = f j channelData[j]]. *)
Definition update_region (s e : Z) (f : Z -> num -> num) (a : Float32Array)
  : Float32Array :=
  for_range s e (fun j a => store a j (f j (index a j))) a.

Definition each_channel (b : AudioBuffer) (body : Float32Array -> Float32Array)
  : M unit :=
  forM (channelData b) (fun l => a ← readArr l; writeArr l (body a)).

Definition applyFadeIn (buffer : AudioBuffer) (selectionStart selectionEnd : Q)
    (duration : Q) : M AudioBuffer :=
  newBuffer ← cloneAudioBuffer buffer;
  let startSample := toSample selectionStart (sampleRate newBuffer) in
  let selectionEndSample := toSample selectionEnd (sampleRate newBuffer) in
  let fadeSamples := toSample duration (sampleRate newBuffer) in
  let endSample := Z.min (startSample + fadeSamples) selectionEndSample in
  let length := endSample - startSample in
  if length <=? 0 then mret newBuffer
  else
    _ ← each_channel newBuffer
          (update_region startSample endSample
             (fun j x => num_mul x (num_div (of_Z (j - startSample)) (of_Z length))));
    mret newBuffer.

Definition applyFadeOut (buffer : AudioBuffer) (selectionStart selectionEnd : Q)
    (duration : Q) : M AudioBuffer :=
  newBuffer ← cloneAudioBuffer buffer;
  let selectionStartSample := toSample selectionStart (sampleRate newBuffer) in
  let endSample := toSample selectionEnd (sampleRate newBuffer) in
  let fadeSamples := toSample duration (sampleRate newBuffer) in
  let startSample := Z.max selectionStartSample (endSample - fadeSamples) in
  let length := endSample - startSample in
  if length <=? 0 then mret newBuffer
  else
    _ ← each_channel newBuffer
          (update_region startSample endSample
             (fun j x =>
                num_mul x
                  (num_sub (of_Z 1) (num_div (of_Z (j - startSample)) (of_Z length)))));
    mret newBuffer.

(** The first loop nest of [applyNormalize]. *)
Definition region_peak (b : AudioBuffer) (s e : Z) : M num :=
  foldM (channelData b)
    (fun peak l =>
       a ← readArr l;
       mret (for_range s e (fun j peak => num_max peak (num_abs (index a j))) peak))
    zero.

Definition applyNormalize (buffer : AudioBuffer) (start end_ : Q) : M AudioBuffer :=
  newBuffer ← cloneAudioBuffer buffer;
  let startSample := toSample start (sampleRate newBuffer) in
  let endSample := toSample end_ (sampleRate newBuffer) in
  peak ← region_peak newBuffer startSample endSample;
  if num_is_zero peak then mret newBuffer
  else
    let gain := num_div (of_Z 1) peak in
    _ ← each_channel newBuffer
          (update_region startSample endSample (fun _ x => num_mul x gain));
    mret newBuffer.

Definition threshold : num := Fin (2 # 100).

(** The gate writes [0] over a sample below the threshold and does not touch
    the others; writing a sample back over itself is the same. *)

Definition applyNoiseReduction (buffer : AudioBuffer) (start end_ : Q) : M AudioBuffer :=
  newBuffer ← cloneAudioBuffer buffer;
  let startSample := toSample start (sampleRate newBuffer) in
  let endSample := toSample end_ (sampleRate newBuffer) in
  _ ← each_channel newBuffer
        (update_region startSample endSample
           (fun _ x => if num_ltb (num_abs x) threshold then zero else x));
  mret newBuffer.

(** ** Reading buffers out of the heap *)

(** The samples of channel [c] of [b]. *)
Definition channel (h : heap) (b : AudioBuffer) (c : nat) : option Float32Array :=
  l ← channelData b !! c; h !! l.

(** Every channel reference of [b] is allocated in [h] and holds
    [buffer.length] samples. *)
Definition wf_buffer (h : heap) (b : AudioBuffer) : bool :=
  forallb (fun l => match h !! l with
                    | Some a => Nat.eqb (length a) (buf_length b)
                    | None => false
                    end) (channelData b).

(** ** The results of the effects *)

(** The buffer handed out by [createBuffer] on heap [h]. *)
Definition fresh_buffer (h : heap) (channels frames : nat) (rate : Q) : AudioBuffer :=
  mkAudioBuffer frames rate (seq (length h) channels).

(** The in-place effects clone the buffer and rewrite the clone.  For each one
    the content of the new channels is given as a function of the old. *)

Definition fadeIn_channels (rate selectionStart selectionEnd duration : Q)
    (arrs : list (list num)) : list (list num) :=
  let startSample := toSample selectionStart rate in
  let selectionEndSample := toSample selectionEnd rate in
  let fadeSamples := toSample duration rate in
  let endSample := Z.min (startSample + fadeSamples) selectionEndSample in
  let length := endSample - startSample in
  if length <=? 0 then arrs
  else map (update_region startSample endSample
              (fun j x => num_mul x (num_div (of_Z (j - startSample)) (of_Z length))))
           arrs.

Definition fadeOut_channels (rate selectionStart selectionEnd duration : Q)
    (arrs : list (list num)) : list (list num) :=
  let selectionStartSample := toSample selectionStart rate in
  let endSample := toSample selectionEnd rate in
  let fadeSamples := toSample duration rate in
  let startSample := Z.max selectionStartSample (endSample - fadeSamples) in
  let length := endSample - startSample in
  if length <=? 0 then arrs
  else map (update_region startSample endSample
              (fun j x =>
                 num_mul x
                   (num_sub (of_Z 1)
                      (num_div (of_Z (j - startSample)) (of_Z length)))))
           arrs.

Definition peak_of (s e : Z) (arrs : list (list num)) : num :=
  fold_left
    (fun peak a =>
       for_range s e (fun j peak => num_max peak (num_abs (index a j))) peak)
    arrs zero.

Definition normalize_channels (rate start end_ : Q) (arrs : list (list num))
  : list (list num) :=
  let startSample := toSample start rate in
  let endSample := toSample end_ rate in
  let peak := peak_of startSample endSample arrs in
  if num_is_zero peak then arrs
  else map (update_region startSample endSample
              (fun _ x => num_mul x (num_div (of_Z 1) peak))) arrs.

Definition noiseGate_channels (rate start end_ : Q) (arrs : list (list num))
  : list (list num) :=
  map (update_region (toSample start rate) (toSample end_ rate)
         (fun _ x => if num_ltb (num_abs x) threshold then zero else x)) arrs.

(** What [trimAudioBuffer] leaves in a new channel of [frames] samples filled
    from the old channel [a]. *)
Definition trim_channel (startOffset endOffset : Z) (a : list num) : list num :=
  let sub := subarray a startOffset endOffset in
  sub ++ drop (length sub) (replicate (Z.to_nat (endOffset - startOffset)) zero).

(** ** The peak of a region *)

Definition is_finiteb (a : num) : bool :=
  match a with Fin _ => true | NaN => false end.

(** Every frame of [s, e) exists in every channel and holds a finite sample. *)
Definition region_finite (h : heap) (b : AudioBuffer) (s e : Z) : bool :=
  forallb (fun l => forallb (fun j => is_finiteb (index (get h l) j))
                      (seqZ s (e - s)))
          (channelData b).

Definition peak_step (a : list num) (j : Z) (peak : num) : num :=
  num_max peak (num_abs (index a j)).

(** The selection invariant of the data model, [0 <= start <= end <=
    duration], and the error condition read off the error taxonomy: the end is
    not after the start, or the selection lies outside the buffer. *)
Definition selection_in_bounds (b : AudioBuffer) (start end_ : Q) : Prop :=
  (0 <= start)%Q /\ (start <= end_)%Q /\ (end_ <= duration b)%Q.

Definition selection_rejected (b : AudioBuffer) (start end_ : Q) : Prop :=
  (end_ <= start)%Q \/ ~ selection_in_bounds b start end_.

(** Four frames of a constant signal at 1 Hz, mono. *)
Definition four_ones : list (list num) := [[Fin 1; Fin 1; Fin 1; Fin 1]].
Definition four_ones_buffer : AudioBuffer := mkAudioBuffer 4 1 [0%nat].

(** ** The studio effect *)

Section StudioEffect.
(** The offline chain (low-shelf filter at 300 Hz, +3 dB, into a dynamics
    compressor) is computed by the platform.  It enters as an arbitrary
    function from the rate and the source channels to the rendered
    channels. *)
Variable studio_chain : Q -> list (list num) -> list (list num).

(** [new OfflineAudioContext(channels, frames, rate)], the source connected
    through the chain, then [startRendering()]: the rendering is delivered
    in a new buffer of the shape given to the context. *)
Definition startRendering (channels frames : nat) (rate : Q)
    (source : AudioBuffer) : M AudioBuffer :=
  fun h =>
    let rendered := studio_chain rate (map (get h) (channelData source)) in
    (h ++ map (fun i => resize frames zero (default [] (rendered !! i)))
            (seq 0 channels),
     Ok (mkAudioBuffer frames rate (seq (length h) channels))).

Definition applyStudioEffect (buffer : AudioBuffer) (start end_ : Q)
  : M AudioBuffer :=
  trimmedBuffer ← trimAudioBuffer buffer start end_;
  renderedBuffer ← startRendering (numberOfChannels trimmedBuffer)
                     (buf_length trimmedBuffer) (sampleRate trimmedBuffer)
                     trimmedBuffer;
  originalBufferClone ← cloneAudioBuffer buffer;
  let startSample := toSample start (sampleRate buffer) in
  _ ← forM (zip (channelData originalBufferClone) (channelData renderedBuffer))
        (fun '(dst, src) => a ← readArr src; typed_set dst a startSample);
  mret originalBufferClone.

(** The operations of the effect pipeline, for statements about all of
    them. *)
Inductive effect : Type :=
  | Trim
  | FadeIn (duration : Q)
  | FadeOut (duration : Q)
  | Normalize
  | NoiseGate
  | StudioEffect.

Definition apply_effect (eff : effect) (buffer : AudioBuffer) (start end_ : Q)
  : M AudioBuffer :=
  match eff with
  | Trim => trimAudioBuffer buffer start end_
  | FadeIn d => applyFadeIn buffer start end_ d
  | FadeOut d => applyFadeOut buffer start end_ d
  | Normalize => applyNormalize buffer start end_
  | NoiseGate => applyNoiseReduction buffer start end_
  | StudioEffect => applyStudioEffect buffer start end_
  end.
End StudioEffect.

(** What the frame property asks of one run started in [h]: the arrays of
    [h] are all still there, unchanged, and a returned buffer is made of
    arrays allocated during the run. *)
Definition frame_ok (h h' : heap) (r : result AudioBuffer) : Prop :=
  take (length h) h' = h /\
  forall nb, r = Ok nb ->
    forall l, l ∈ channelData nb -> (length h <= l < length h')%nat.

(** ** WAV encoding ([audioBufferToWavBlob]) *)

#[global] Instance result_ret : MRet result := fun A a => Ok a.
#[global] Instance result_bind : MBind result := fun A B f m =>
  match m with
  | Ok a => f a
  | Throw e => Throw e
  end.

(** A [DataView] over an [ArrayBuffer]: its bytes, each in [0, 256). *)
Abbreviation DataView := (list Z) (only parsing).

(** Overwrite the first bytes of [view] with [bs]. *)
Fixpoint overwrite (view : DataView) (bs : list Z) {struct bs} : result DataView :=
  match bs, view with
  | [], _ => Ok view
  | x :: bs', _ :: t => t' ← overwrite t bs'; mret (x :: t')
  | _ :: _, [] => Throw RangeError
  end.

(** Write the bytes [bs] at [offset]; outside the view this is a
    [RangeError]. *)
Fixpoint setBytes (view : DataView) (offset : nat) (bs : list Z) {struct offset}
  : result DataView :=
  match offset, view with
  | O, _ => overwrite view bs
  | S n, b :: t => t' ← setBytes t n bs; mret (b :: t')
  | S n, [] => Throw RangeError
  end.

(** Little-endian bytes of [v] modulo [2^8], [2^16], [2^32]. *)
Definition uint8_le (v : Z) : list Z := [v mod 256].
Definition uint16_le (v : Z) : list Z := [v mod 256; (v / 256) mod 256].
Definition uint32_le (v : Z) : list Z :=
  [v mod 256; (v / 256) mod 256; (v / 65536) mod 256; (v / 16777216) mod 256].

(** Rounding toward zero, the first step of the integer conversions. *)
Definition trunc (q : Q) : Z := if Qle_bool 0 q then Qfloor q else Qceiling q.

(** The integer a number is converted to before it is stored: [NaN] is 0. *)
Definition to_integer (v : num) : Z :=
  match v with
  | Fin q => trunc q
  | NaN => 0
  end.

Definition setUint8 (view : DataView) (offset : nat) (v : Z) : result DataView :=
  setBytes view offset (uint8_le v).

(** [view.setUint16(offset, v, true)], [view.setUint32(offset, v, true)] and
    [view.setInt16(offset, v, true)]; a 16-bit integer is stored in two's
    complement, so the signed and the unsigned store write the same bytes. *)
Definition setUint16 (view : DataView) (offset : nat) (v : num) : result DataView :=
  setBytes view offset (uint16_le (to_integer v)).

Definition setUint32 (view : DataView) (offset : nat) (v : num) : result DataView :=
  setBytes view offset (uint32_le (to_integer v)).

Definition setInt16 (view : DataView) (offset : nat) (v : num) : result DataView :=
  setBytes view offset (uint16_le (to_integer v)).

(** [string.charCodeAt(i)] for every [i]. *)
Definition charCodes (s : String.string) : list Z :=
  map (fun c => Z.of_N (Ascii.N_of_ascii c)) (String.list_ascii_of_string s).

Fixpoint writeString_from (view : DataView) (offset : nat) (codes : list Z)
  : result DataView :=
  match codes with
  | [] => Ok view
  | c :: codes' =>
      view' ← setUint8 view offset c; writeString_from view' (S offset) codes'
  end.

Definition writeString (view : DataView) (offset : nat) (s : String.string)
  : result DataView :=
  writeString_from view offset (charCodes s).

(** The value [floatTo16BitPCM] stores for the sample [x]. *)
Definition pcm_value (x : num) : num :=
  let s := num_max (of_Z (-1)) (num_min (of_Z 1) x) in
  if num_ltb s zero then num_mul s (of_Z 32768) else num_mul s (of_Z 32767).

Fixpoint floatTo16BitPCM (output : DataView) (offset : nat) (input : list num)
  : result DataView :=
  match input with
  | [] => Ok output
  | x :: input' =>
      output' ← setInt16 output offset (pcm_value x);
      floatTo16BitPCM output' (offset + 2) input'
  end.

(** [interleaved[index++] = channels[j][i]], frame after frame. *)
Definition interleave (channels : list (list num)) (frames : nat) : list num :=
  flat_map (fun i => map (fun ch => index ch (Z.of_nat i)) channels) (seq 0 frames).

Definition audioBufferToWavBlob (h : heap) (buffer : AudioBuffer) : result (list Z) :=
  let numOfChan := Z.of_nat (numberOfChannels buffer) in
  let length := Z.of_nat (buf_length buffer) * numOfChan * 2 + 44 in
  let view := replicate (Z.to_nat length) 0 in
  let offset := 0%nat in
  view ← writeString view offset "RIFF"%string; let offset := (offset + 4)%nat in
  view ← setUint32 view offset (of_Z (length - 8)); let offset := (offset + 4)%nat in
  view ← writeString view offset "WAVE"%string; let offset := (offset + 4)%nat in
  view ← writeString view offset "fmt "%string; let offset := (offset + 4)%nat in
  view ← setUint32 view offset (of_Z 16); let offset := (offset + 4)%nat in
  view ← setUint16 view offset (of_Z 1); let offset := (offset + 2)%nat in
  view ← setUint16 view offset (of_Z numOfChan); let offset := (offset + 2)%nat in
  view ← setUint32 view offset (Fin (sampleRate buffer));
  let offset := (offset + 4)%nat in
  view ← setUint32 view offset
           (num_mul (num_mul (Fin (sampleRate buffer)) (of_Z 2)) (of_Z numOfChan));
  let offset := (offset + 4)%nat in
  view ← setUint16 view offset (of_Z (numOfChan * 2)); let offset := (offset + 2)%nat in
  view ← setUint16 view offset (of_Z 16); let offset := (offset + 2)%nat in
  view ← writeString view offset "data"%string; let offset := (offset + 4)%nat in
  view ← setUint32 view offset (of_Z (length - Z.of_nat offset - 4));
  let offset := (offset + 4)%nat in
  let channels := map (get h) (channelData buffer) in
  let interleaved := interleave channels (buf_length buffer) in
  floatTo16BitPCM view offset interleaved.

(** The layout table of the format, and the sample conversion, as the
    specification words them. *)
Definition wav_header (channelCount sampleRate dataByteLength : Z) : list Z :=
  charCodes "RIFF"%string ++ uint32_le (44 + dataByteLength - 8) ++
  charCodes "WAVE"%string ++
  charCodes "fmt "%string ++ uint32_le 16 ++
  uint16_le 1 ++ uint16_le channelCount ++
  uint32_le sampleRate ++ uint32_le (sampleRate * 2 * channelCount) ++
  uint16_le (channelCount * 2) ++ uint16_le 16 ++
  charCodes "data"%string ++ uint32_le dataByteLength.

Definition clamp (x : Q) : Q :=
  if Qle_bool x (-1) then -1 else if Qle_bool 1 x then 1 else x.

Definition pcm16 (x : Q) : Z :=
  let s := clamp x in
  if Qle_bool 0 s then trunc (s * 32767) else trunc (s * 32768).

(** The number a list of little-endian bytes stands for. *)
Fixpoint le_value (bs : list Z) : Z :=
  match bs with
  | [] => 0
  | b :: bs' => b + 256 * le_value bs'
  end.

(** The bytes [offset, offset + size) of a file. *)
Definition slice (offset size : nat) (bytes : list Z) : list Z :=
  take size (drop offset bytes).

(** ** The edit history of the editor *)

(** [array.slice(start, end)] *)
Definition array_slice {A : Type} (l : list A) (start end_ : Z) : list A :=
  let len := Z.of_nat (length l) in
  let k := relative_index len start in
  let final := relative_index len end_ in
  take (Z.to_nat (Z.max (final - k) 0)) (drop (Z.to_nat k) l).

(** The state the history handlers read and set: [history],
    [historyIndex] and the current [audioBuffer] ([None] is [null] or
    [undefined]). *)
Record Editor : Type := mkEditor {
  history : list AudioBuffer;
  historyIndex : Z;
  audioBuffer : option AudioBuffer
}.

(** The state after a file is chosen and before it is decoded. *)
Definition emptyEditor : Editor := mkEditor [] (-1) None.

(** The handlers, each on the state of the render it runs in. *)
Definition updateHistory (st : Editor) (newBuffer : AudioBuffer) : Editor :=
  let newHistory := array_slice (history st) 0 (historyIndex st + 1) in
  let newHistory := newHistory ++ [newBuffer] in
  mkEditor newHistory (Z.of_nat (length newHistory) - 1) (Some newBuffer).

(** [history[i]] *)
Definition history_at (st : Editor) (i : Z) : option AudioBuffer :=
  if i <? 0 then None else history st !! Z.to_nat i.

Definition handleUndo (st : Editor) : Editor :=
  if 0 <? historyIndex st then
    let newIndex := historyIndex st - 1 in
    mkEditor (history st) newIndex (history_at st newIndex)
  else st.

Definition handleRedo (st : Editor) : Editor :=
  if historyIndex st <? Z.of_nat (length (history st)) - 1 then
    let newIndex := historyIndex st + 1 in
    mkEditor (history st) newIndex (history_at st newIndex)
  else st.

(** ** Multi-track playback ([startPlayback], studio mode) *)

Record Track : Type := mkTrack {
  id : string;
  buffer : AudioBuffer;
  startTime : Q;          (* start time in seconds *)
  volume : Q;
  isMuted : bool
}.

(** One [source.start(when, offset)] on a source playing [track.buffer]
    through a gain of [track.volume]. *)
Record SourceStart : Type := mkSourceStart {
  source_track : Track;
  gain_value : Q;
  when : Q;
  offset : Q
}.

(** What the body of [tracks.forEach] does for one track at context time
    [currentTime]: nothing, or one source started and pushed. *)
Definition schedule_track (currentTime studioStartOffset : Q) (track : Track)
  : option SourceStart :=
  if isMuted track then None
  else
    let trackEnd := (startTime track + duration (buffer track))%Q in
    if Qle_bool trackEnd studioStartOffset then None
    else if Qle_bool studioStartOffset (startTime track) then
      let when := (startTime track - studioStartOffset)%Q in
      Some (mkSourceStart track (volume track) (currentTime + when) 0)
    else
      let offsetInTrack := (studioStartOffset - startTime track)%Q in
      Some (mkSourceStart track (volume track) 0 offsetInTrack).

(** The playback references and the started sources. *)
Record Transport : Type := mkTransport {
  studioSourceNodes : list SourceStart;
  playbackStartOffset : Q;
  playbackStartTime : Q;
  isPlaying : bool
}.

Definition stopAllAudio (st : Transport) : Transport :=
  mkTransport [] (playbackStartOffset st) (playbackStartTime st) (isPlaying st).

(** [startPlayback(startOffset)] in studio mode, the audio context reading
    [currentTime]. *)
Definition startPlayback (st : Transport) (currentTime : Q) (tracks : list Track)
    (startOffset : Q) : Transport :=
  let st := stopAllAudio st in
  if (length tracks =? 0)%nat then st
  else
    let studioStartOffset := startOffset in
    let nodes :=
      fold_left
        (fun nodes track =>
           match schedule_track currentTime studioStartOffset track with
           | Some source => nodes ++ [source]
           | None => nodes
           end)
        tracks (studioSourceNodes st) in
    mkTransport nodes studioStartOffset currentTime true.

(** The delay after which a source started with [start(when, _)] at context
    time [currentTime] is heard: a [when] that is not in the future means
    at once. *)
Definition start_delay (currentTime when : Q) : Q :=
  if Qle_bool when currentTime then 0 else (when - currentTime)%Q.

Definition trackA : Track :=
  mkTrack "A" (mkAudioBuffer 5 1 [0%nat]) 0 1 false.
Definition trackB : Track :=
  mkTrack "B" (mkAudioBuffer 4 1 [1%nat]) 3 1 false.

(** ** Peak downsampling for the waveform ([downsampledData]) *)

(** The drawing width the component passes, in pixels. *)
Definition dimensions_width : Q := 800.

(** [downsampledData] for the channel-0 samples [rawData] and a drawing
    width.  [blockSize] is [Math.floor(rawData.length / samples)]; it is only
    used when [samples >= 1]. *)
Definition downsampledData (rawData : list num) (width : Q) : list num :=
  let samples := Qfloor width in
  let blockSize := Z.of_nat (length rawData) / samples in
  for_range 0 samples
    (fun i filteredData =>
       let blockStart := blockSize * i in
       let sum :=
         for_range 0 blockSize
           (fun j sum => num_add sum (num_abs (index rawData (blockStart + j))))
           zero in
       filteredData ++ [num_div sum (of_Z blockSize)])
    [].

(** The mean of [|sample|] over a block of frames, as the specification
    words it; the mean of no frames is [0 / 0]. *)
Definition sum_abs (block : list num) : num :=
  fold_left (fun sum x => num_add sum (num_abs x)) block zero.

Definition mean_abs (block : list num) : num :=
  num_div (sum_abs block) (of_Z (Z.of_nat (length block))).

(** The block of bucket [i]: [blockSize] consecutive frames from
    [i * blockSize]. *)
Definition bucket_block (rawData : list num) (blockSize : Z) (i : Z) : list num :=
  take (Z.to_nat blockSize) (drop (Z.to_nat (i * blockSize)) rawData).

(** ** Offline mixdown ([renderMix]) *)

(** [Math.round] *)
Definition round_half_up (q : Q) : Z := Qfloor (q + (1 # 2)).

(** The channel of a source that feeds output channel [c]: a mono source
    feeds both. *)
Definition source_channel (chans : list (list num)) (c : nat) : list num :=
  match chans with
  | [a] => a
  | _ => default [] (chans !! c)
  end.

(** One source added into one output channel: frame [j] of the output
    receives frame [j - offset] of the source, scaled by the gain. *)
Definition mix_source (rate : Q) (src : list num) (gain start : Q) (out : list num)
  : list num :=
  let offset := round_half_up (start * rate) in
  update_region offset (offset + Z.of_nat (length src))
    (fun j x => num_add x (num_mul (index src (j - offset)) (Fin gain))) out.

(** Modelled from the spec: the rendering of the platform's offline audio
    context ([new OfflineAudioContext(channels, frames, rate)] followed by
    [startRendering()]), which is not part of the repository.  Following the
    mixdown section of the specification, the output starts as [frames] zeros
    per channel and every started source adds its samples times its gain at
    the frame offset [round(start * rate)]. *)
Definition offline_mix (channels frames : nat) (rate : Q) (sources : list SourceStart)
  : M AudioBuffer :=
  fun h =>
    let out (c : nat) :=
      fold_left
        (fun out s =>
           mix_source rate
             (source_channel (map (get h) (channelData (buffer (source_track s)))) c)
             (gain_value s) (when s) out)
        sources (replicate frames zero) in
    (h ++ map out (seq 0 channels),
     Ok (mkAudioBuffer frames rate (seq (length h) channels))).

(** [track.startTime + track.buffer.duration] *)
Definition track_end (track : Track) : Q :=
  (startTime track + duration (buffer track))%Q.

(** The first [forEach] of [renderMix]: the latest end, starting from 0. *)
Definition total_duration (tracks : list Track) : Q :=
  fold_left
    (fun totalDuration track =>
       let end_ := track_end track in
       if Qle_bool end_ totalDuration then totalDuration else end_)
    tracks 0%Q.

Definition renderMix (tracks : list Track) (rate : Q) : M AudioBuffer :=
  if (length tracks =? 0)%nat then throw NoTracksToRender
  else
    let totalDuration := total_duration tracks in
    let totalDuration := (totalDuration + (1 # 2))%Q in
    let frames := Qceiling (totalDuration * rate) in
    let sources :=
      fold_left
        (fun sources track =>
           if isMuted track then sources
           else sources ++ [mkSourceStart track (volume track) (startTime track) 0])
        tracks [] in
    offline_mix 2 (Z.to_nat frames) rate sources.

(** What one track does to sample [k] of output channel [c]: nothing if it is
    muted or does not cover frame [k]. *)
Definition mix_at (h : heap) (rate : Q) (c : nat) (k : Z) (acc : num) (track : Track)
  : num :=
  if isMuted track then acc
  else
    let src := source_channel (map (get h) (channelData (buffer track))) c in
    let offset := round_half_up (startTime track * rate) in
    if (offset <=? k) && (k <? offset + Z.of_nat (length src))
    then num_add acc (num_mul (index src (k - offset)) (Fin (volume track)))
    else acc.

(** ** Sample inputs *)

(** One second of a constant signal at 4 Hz, mono, on the heap [four_ones]. *)
Definition one_second : AudioBuffer := mkAudioBuffer 4 4 [0%nat].

(** A quiet frame followed by a loud one, at 1 Hz. *)
Definition quiet_loud : list (list num) := [[Fin (1 # 2); Fin 2]].
Definition quiet_loud_buffer : AudioBuffer := mkAudioBuffer 2 1 [0%nat].

(** Two frames at 44100 Hz, mono. *)
Definition two_frames : list (list num) := [[Fin 0; Fin 1]].
Definition two_frames_buffer : AudioBuffer := mkAudioBuffer 2 44100 [0%nat].

(** The samples of track A and track B, and track B muted. *)
Definition two_tracks_heap : list (list num) :=
  [[Fin 1; Fin 1; Fin 1; Fin 1; Fin 1]; [Fin 1; Fin 1; Fin 1; Fin 1]].
Definition mutedB : Track :=
  mkTrack "B" (mkAudioBuffer 4 1 [1%nat]) 3 1 true.

(** ** Editor actions ([App]) *)

(** [Math.max] and [Math.min] on two finite numbers. *)
Definition Q_max (a b : Q) : Q := if Qle_bool a b then b else a.
Definition Q_min (a b : Q) : Q := if Qle_bool a b then a else b.

(** [SelectionRange], in seconds. *)
Record SelectionRange : Type := mkSelection {
  start : Q;
  end_ : Q
}.

(** The messages the editor shows through [setError]. *)
Inductive ui_error : Type :=
  | TrimExportFailed       (* "Không thể cắt hoặc xuất âm thanh." *)
  | EffectFailed (e : error)   (* `Lỗi hiệu ứng: ${message}` *)
  | SelectionTooShort      (* "Vùng chọn quá ngắn." *)
  | ExportFailed (e : error)   (* "Lỗi khi xuất file: " + message *)
  | DecodeFailed.          (* "Không thể giải mã tệp âm thanh." *)

(** [downloadBuffer]: the bytes of the blob behind the download link. *)
Definition downloadBuffer (h : heap) (buffer : AudioBuffer) : result (list Z) :=
  audioBufferToWavBlob h buffer.

(** [handleTrimAndDownload] on the current buffer and selection: the heap
    after the call, the error shown and the file offered, if any. *)
Definition handleTrimAndDownload (current : option AudioBuffer)
    (selection : SelectionRange) (shown : option ui_error) (h : heap)
  : heap * option ui_error * option (list Z) :=
  match current with
  | None => (h, shown, None)
  | Some b =>
      match trimAudioBuffer b (start selection) (end_ selection) h with
      | (h', Ok trimmedBuffer) =>
          match downloadBuffer h' trimmedBuffer with
          | Ok blob => (h', shown, Some blob)
          | Throw _ => (h', Some TrimExportFailed, None)
          end
      | (h', Throw _) => (h', Some TrimExportFailed, None)
      end
  end.

(** [handleEffect(effectFn)]: the error is cleared, the effect runs on the
    current buffer and the selection, and its result is committed to the
    history; an exception becomes the error shown. *)
Definition handleEffect (st : Editor) (selection : SelectionRange)
    (shown : option ui_error) (effectFn : AudioBuffer -> Q -> Q -> M AudioBuffer)
    (h : heap) : heap * Editor * option ui_error :=
  match audioBuffer st with
  | None => (h, st, shown)
  | Some b =>
      match effectFn b (start selection) (end_ selection) h with
      | (h', Ok newBuffer) => (h', updateHistory st newBuffer, None)
      | (h', Throw e) => (h', st, Some (EffectFailed e))
      end
  end.

Inductive fade : Type := fade_in | fade_out.


(** [loadEditorFile], [decoded] being the outcome of decoding the file.  The
    state is reset first; when the decoding is done, the selection is set and
    the buffer is committed by the [updateHistory] of the render in which the
    file was chosen, which reads the [history] and [historyIndex] of that
    render, [st]. *)
Definition loadEditorFile (st : Editor) (decoded : option AudioBuffer)
  : Editor * SelectionRange * option ui_error :=
  match decoded with
  | Some buffer =>
      (updateHistory st buffer, mkSelection 0 (duration buffer), None)
  | None => (emptyEditor, mkSelection 0 0, Some DecodeFailed)
  end.

(** [handleExportMix] on the track list: [renderMix] at its default rate,
    then the download. *)
Definition handleExportMix (tracks : list Track) (shown : option ui_error) (h : heap)
  : heap * option ui_error * option (list Z) :=
  if (length tracks =? 0)%nat then (h, shown, None)
  else
    match renderMix tracks 44100 h with
    | (h', Ok mixedBuffer) =>
        match downloadBuffer h' mixedBuffer with
        | Ok blob => (h', shown, Some blob)
        | Throw e => (h', Some (ExportFailed e), None)
        end
    | (h', Throw e) => (h', Some (ExportFailed e), None)
    end.

(** What the history handlers keep true: the index is [-1] or points into
    the history, and the current buffer is the entry it points at. *)
Definition history_ok (st : Editor) : Prop :=
  -1 <= historyIndex st < Z.of_nat (length (history st)) /\
  audioBuffer st = history_at st (historyIndex st).

(** ** The transport of the application ([App]) *)

Module Player.

Inductive tab : Type := editor | studio.

(** The editor's [source.start(when, offset, duration)], played through the
    gain node at [gain]. *)
Record BufferSource : Type := mkBufferSource {
  source_when : Q;
  source_offset : Q;
  source_duration : Q;
  source_gain : Q
}.

(** The playback references and the state beside them. *)
Record Playback : Type := mkPlayback {
  audioSource : option BufferSource;
  studioSourceNodes : list SourceStart;
  playbackStartOffset : Q;
  playbackStartTime : Q;
  isPlaying : bool;
  currentTime : Q
}.

Definition stopAllAudio (st : Playback) : Playback :=
  mkPlayback None [] (playbackStartOffset st) (playbackStartTime st)
    (isPlaying st) (currentTime st).

(** [startPlayback(startOffset)], the audio context reading [now]; the
    context and the gain node exist from the first render on. *)
Definition startPlayback (st : Playback) (now : Q) (activeTab : tab)
    (current : option AudioBuffer) (selection : SelectionRange)
    (tracks : list Track) (volume : Q) (startOffset : Q) : Playback :=
  let st := stopAllAudio st in
  match activeTab with
  | editor =>
      match current with
      | None => st
      | Some _ =>
          let offset :=
            if Qle_bool (end_ selection) startOffset then start selection
            else Q_max (start selection) startOffset in
          let duration := (end_ selection - offset)%Q in
          if Qle_bool duration 0 then
            mkPlayback
              (Some (mkBufferSource 0 (start selection)
                       (end_ selection - start selection) volume))
              (studioSourceNodes st) (start selection) now true (start selection)
          else
            mkPlayback (Some (mkBufferSource 0 offset duration volume))
              (studioSourceNodes st) offset now true offset
      end
  | studio =>
      if (length tracks =? 0)%nat then st
      else
        let studioStartOffset := startOffset in
        let nodes :=
          fold_left
            (fun nodes track =>
               match schedule_track now studioStartOffset track with
               | Some source => nodes ++ [source]
               | None => nodes
               end)
            tracks (studioSourceNodes st) in
        mkPlayback (audioSource st) nodes studioStartOffset now true (currentTime st)
  end.

(** One run of the animation-frame [loop]. *)
Definition loop (st : Playback) (now : Q) (activeTab : tab)
    (selection : SelectionRange) : Playback :=
  if negb (isPlaying st) then st
  else
    let elapsedTime := (now - playbackStartTime st)%Q in
    let newCurrentTime := (playbackStartOffset st + elapsedTime)%Q in
    match activeTab with
    | editor =>
        if Qle_bool (end_ selection) newCurrentTime then
          stopAllAudio
            (mkPlayback (audioSource st) (studioSourceNodes st)
               (playbackStartOffset st) (playbackStartTime st) false
               (end_ selection))
        else
          mkPlayback (audioSource st) (studioSourceNodes st)
            (playbackStartOffset st) (playbackStartTime st) (isPlaying st)
            newCurrentTime
    | studio =>
        mkPlayback (audioSource st) (studioSourceNodes st)
          (playbackStartOffset st) (playbackStartTime st) (isPlaying st)
          newCurrentTime
    end.

Definition handlePlayPause (st : Playback) (now : Q) (activeTab : tab)
    (current : option AudioBuffer) (selection : SelectionRange)
    (tracks : list Track) (volume : Q) : Playback :=
  if isPlaying st then
    let st := stopAllAudio st in
    let elapsedTime := (now - playbackStartTime st)%Q in
    let actualPauseTime := (playbackStartOffset st + elapsedTime)%Q in
    mkPlayback (audioSource st) (studioSourceNodes st) actualPauseTime
      (playbackStartTime st) false actualPauseTime
  else startPlayback st now activeTab current selection tracks volume (currentTime st).

Definition handleSeek (st : Playback) (now : Q) (activeTab : tab)
    (current : option AudioBuffer) (selection : SelectionRange)
    (tracks : list Track) (volume : Q) (time : Q) : Playback :=
  let newTime := Q_max 0 time in
  let st' := mkPlayback (audioSource st) (studioSourceNodes st) newTime
               (playbackStartTime st) (isPlaying st) newTime in
  if isPlaying st then
    startPlayback st' now activeTab current selection tracks volume newTime
  else st'.

End Player.

(** ** The track list ([App]) and the timeline ([MultiTrackTimeline]) *)

(** [Partial<Track>] *)
Record TrackUpdates : Type := mkTrackUpdates {
  new_id : option string;
  new_buffer : option AudioBuffer;
  new_startTime : option Q;
  new_volume : option Q;
  new_isMuted : option bool
}.

(** [{ ...t, ...updates }] *)
Definition spread (t : Track) (updates : TrackUpdates) : Track :=
  mkTrack (default (id t) (new_id updates))
          (default (buffer t) (new_buffer updates))
          (default (startTime t) (new_startTime updates))
          (default (volume t) (new_volume updates))
          (default (isMuted t) (new_isMuted updates)).

Definition updateTrack (tracks : list Track) (id' : string) (updates : TrackUpdates)
  : list Track :=
  map (fun t => if String.eqb (id t) id' then spread t updates else t) tracks.

Definition removeTrack (tracks : list Track) (id' : string) : list Track :=
  filter (fun t => negb (String.eqb (id t) id')) tracks.

(** The track [addTrackToStudio] appends for a decoded file; the identifier is
    drawn at random by the caller. *)
Definition addTrackToStudio (tracks : list Track) (id' : string) (decoded : AudioBuffer)
  : list Track :=
  tracks ++ [mkTrack id' decoded 0 1 false].

Record DragState : Type := mkDragState {
  trackId : string;
  startX : Q;
  initialStartTime : Q
}.

(** [handleMouseMove]: the update sent to [onUpdateTrack], if a drag is on. *)
Definition handleMouseMove (dragState : option DragState) (pixelsPerSecond clientX : Q)
  : option (string * TrackUpdates) :=
  match dragState with
  | None => None
  | Some d =>
      let deltaPixels := (clientX - startX d)%Q in
      let deltaTime := (deltaPixels / pixelsPerSecond)%Q in
      let newStartTime := (initialStartTime d + deltaTime)%Q in
      let newStartTime := Q_max 0 newStartTime in
      Some (trackId d, mkTrackUpdates None None (Some newStartTime) None None)
  end.

(** The track list after one mouse move of a drag. *)
Definition drag (tracks : list Track) (dragState : option DragState)
    (pixelsPerSecond clientX : Q) : list Track :=
  match handleMouseMove dragState pixelsPerSecond clientX with
  | Some (id', updates) => updateTrack tracks id' updates
  | None => tracks
  end.

Definition HEADER_WIDTH : Q := 160.

(** [handleTimelineClick] and [handleRulerClick]: the time handed to [onSeek],
    if any; [clickX] is [e.clientX - rect.left]. *)
Definition handleTimelineClick (pixelsPerSecond clickX scrollLeft : Q) : option Q :=
  if negb (Qle_bool HEADER_WIDTH clickX) then None
  else
    let time := ((clickX - HEADER_WIDTH + scrollLeft) / pixelsPerSecond)%Q in
    if Qle_bool 0 time then Some time else None.

Definition handleRulerClick (pixelsPerSecond clickX scrollLeft : Q) : option Q :=
  let time := ((clickX + scrollLeft) / pixelsPerSecond)%Q in
  if Qle_bool 0 time then Some time else None.

(** The [left] of the playhead line in the tracks area, and of the block of a
    track in its lane. *)
Definition playhead_left (currentTime pixelsPerSecond : Q) : Q :=
  (currentTime * pixelsPerSecond + HEADER_WIDTH)%Q.

Definition block_left (t : Track) (pixelsPerSecond : Q) : Q :=
  (startTime t * pixelsPerSecond)%Q.

(** [handleWheel]: the new [pixelsPerSecond]. *)
Definition handleWheel (pixelsPerSecond deltaY : Q) : Q :=
  let zoomSpeed := (1 # 1000)%Q in
  let newScale := (pixelsPerSecond * (1 - deltaY * zoomSpeed))%Q in
  Q_max 10 (Q_min 500 newScale).

(** [Math.max(x, ...xs)] *)
Definition max_of (x : Q) (xs : list Q) : Q := fold_left Q_max xs x.

(** The [duration] the application hands to the timeline. *)
Definition timeline_duration (tracks : list Track) : Q :=
  match map track_end tracks with
  | [] => 60
  | x :: xs => max_of x xs
  end.

Definition maxDuration (duration : Q) (tracks : list Track) : Q :=
  max_of duration (map track_end tracks ++ [10%Q]).

Definition timelineWidth (duration : Q) (tracks : list Track) (pixelsPerSecond : Q) : Q :=
  (maxDuration duration tracks * pixelsPerSecond)%Q.

(** ** The selection menu of the waveform ([Waveform]) *)

(** [handleContextMenu]: the time kept for the menu, [inverted] being
    [xScale.invert(x)] of the click. *)
Definition handleContextMenu (b : AudioBuffer) (inverted : Q) : Q :=
  Q_max 0 (Q_min (duration b) inverted).

Definition handleSetStart (selection : SelectionRange) (time : Q) : SelectionRange :=
  let newStart := Q_max 0 time in
  if negb (Qle_bool (end_ selection) newStart)
  then mkSelection newStart (end_ selection)
  else selection.

Definition handleSetEnd (b : AudioBuffer) (selection : SelectionRange) (time : Q)
  : SelectionRange :=
  let newEnd := Q_min (duration b) time in
  if negb (Qle_bool newEnd (start selection))
  then mkSelection (start selection) newEnd
  else selection.

(** A selection that a trim can use: inside the buffer, the end after the
    start. *)
Definition selection_valid (b : AudioBuffer) (selection : SelectionRange) : Prop :=
  (0 <= start selection)%Q /\ (start selection < end_ selection)%Q /\
  (end_ selection <= duration b)%Q.

(** * Properties *)

(** ** Loops over a sample range *)

Lemma for_range_nil {St : Type} (s e : Z) (body : Z -> St -> St) (st : St) :
  e <= s -> for_range s e body st = st.
Proof.
  intros H. unfold for_range. rewrite seqZ_nil by lia. reflexivity.
Qed.

Lemma for_range_step {St : Type} (s e : Z) (body : Z -> St -> St) (st : St) :
  s < e -> for_range s e body st = for_range (s + 1) e body (body s st).
Proof.
  intros H. unfold for_range. rewrite (seqZ_cons s) by lia. simpl.
  replace (Z.succ s) with (s + 1) by lia.
  replace (Z.pred (e - s)) with (e - (s + 1)) by lia. reflexivity.
Qed.

(** Induction principle for the counting loop. *)
Lemma for_range_ind {St : Type} (P : Z -> St -> Prop) (e : Z) (body : Z -> St -> St) :
  (forall s st, s < e -> P (s + 1) (body s st) -> P s st) ->
  (forall s st, e <= s -> P s st) ->
  forall n s st, Z.to_nat (e - s) = n -> P s st.
Proof.
  intros Hstep Hstop. induction n as [|n IH]; intros s st Hn.
  - apply Hstop. lia.
  - apply Hstep; [lia|]. apply IH. lia.
Qed.

Lemma store_length (a : Float32Array) (j : Z) (v : num) :
  length (store a j v) = length a.
Proof. unfold store. destruct (j <? 0); [reflexivity | apply length_insert]. Qed.

Lemma store_lookup (a : Float32Array) (j : Z) (v : num) (k : nat) :
  store a j v !! k =
  (fun x => if j =? Z.of_nat k then v else x) <$> (a !! k).
Proof.
  unfold store. destruct (Z.ltb_spec j 0) as [Hneg|Hpos].
  - destruct (a !! k); simpl; [|reflexivity].
    destruct (Z.eqb_spec j (Z.of_nat k)); [lia | reflexivity].
  - destruct (Z.eqb_spec j (Z.of_nat k)) as [->|Hne].
    + rewrite Nat2Z.id. destruct (a !! k) as [x|] eqn:E; simpl.
      * apply list_lookup_insert_eq. eapply lookup_lt_Some; eauto.
      * apply lookup_ge_None_2. rewrite length_insert.
        apply lookup_ge_None_1 in E. exact E.
    + rewrite list_lookup_insert_ne by lia. destruct (a !! k); reflexivity.
Qed.

Lemma index_lookup (a : Float32Array) (k : nat) (x : num) :
  a !! k = Some x -> index a (Z.of_nat k) = x.
Proof.
  intros H. unfold index. destruct (Z.ltb_spec (Z.of_nat k) 0); [lia|].
  rewrite Nat2Z.id, H. reflexivity.
Qed.

Lemma update_region_length (s e : Z) (f : Z -> num -> num) (a : Float32Array) :
  length (update_region s e f a) = length a.
Proof.
  unfold update_region.
  apply (for_range_ind
           (fun s a => length (for_range s e
                         (fun j a => store a j (f j (index a j))) a) = length a)
           e (fun j a => store a j (f j (index a j)))) with (n := Z.to_nat (e - s)).
  - intros s' st Hlt IH. rewrite for_range_step by lia. rewrite IH.
    apply store_length.
  - intros s' st Hle. rewrite for_range_nil by lia. reflexivity.
  - reflexivity.
Qed.

(** What [for (j = s; j < e; j++) a[j] = f j a[j]] leaves in slot [k]. *)
Lemma update_region_lookup (s e : Z) (f : Z -> num -> num) (a : Float32Array)
    (k : nat) :
  update_region s e f a !! k =
  (fun x => if (s <=? Z.of_nat k) && (Z.of_nat k <? e) then f (Z.of_nat k) x else x)
    <$> (a !! k).
Proof.
  unfold update_region.
  apply (for_range_ind
           (fun s a => for_range s e
                         (fun j a => store a j (f j (index a j))) a !! k =
                       (fun x => if (s <=? Z.of_nat k) && (Z.of_nat k <? e)
                                 then f (Z.of_nat k) x else x) <$> (a !! k))
           e (fun j a => store a j (f j (index a j)))) with (n := Z.to_nat (e - s)).
  - intros s' st Hlt IH. rewrite for_range_step by lia. rewrite IH.
    rewrite store_lookup. destruct (st !! k) as [x|] eqn:E; simpl; [|reflexivity].
    f_equal. destruct (Z.eqb_spec s' (Z.of_nat k)) as [->|Hne].
    + rewrite (index_lookup _ _ _ E).
      destruct (Z.leb_spec (Z.of_nat k + 1) (Z.of_nat k)); [lia|].
      destruct (Z.leb_spec (Z.of_nat k) (Z.of_nat k)); [|lia].
      destruct (Z.ltb_spec (Z.of_nat k) e); [|lia]. reflexivity.
    + destruct (Z.leb_spec (s' + 1) (Z.of_nat k)), (Z.leb_spec s' (Z.of_nat k));
        try lia; reflexivity.
  - intros s' st Hle. rewrite for_range_nil by lia.
    destruct (st !! k); simpl; [|reflexivity].
    destruct (Z.leb_spec s' (Z.of_nat k)), (Z.ltb_spec (Z.of_nat k) e);
      try lia; reflexivity.
  - reflexivity.
Qed.

(** ** Running the monad *)

Lemma run_bind {A B : Type} (m : M A) (f : A -> M B) (h : heap) :
  (x ← m; f x) h =
  match m h with
  | (h', Ok a) => f a h'
  | (h', Throw e) => (h', Throw e)
  end.
Proof. reflexivity. Qed.

Lemma run_ret {A : Type} (a : A) (h : heap) : (mret a : M A) h = (h, Ok a).
Proof. reflexivity. Qed.

Ltac run := repeat (rewrite ?run_bind, ?run_ret; unfold readArr, writeArr, throw; simpl).

Lemma get_Some (h : heap) (l : loc) (a : list num) :
  h !! l = Some a -> get h l = a.
Proof. intros H. unfold get. rewrite H. reflexivity. Qed.

Lemma get_app_l (h ext : heap) (l : loc) :
  (l < length h)%nat -> get (h ++ ext) l = get h l.
Proof. intros H. unfold get. rewrite lookup_app_l by exact H. reflexivity. Qed.

Lemma wf_buffer_Forall (h : heap) (b : AudioBuffer) :
  wf_buffer h b = true <->
  Forall (fun l => exists a, h !! l = Some a /\ length a = buf_length b)
         (channelData b).
Proof.
  unfold wf_buffer. rewrite forallb_forall, Forall_forall. split.
  - intros H l Hl. apply list_elem_of_In in Hl. specialize (H l Hl).
    destruct (h !! l) as [a|]; [|discriminate].
    exists a. split; [reflexivity | apply Nat.eqb_eq, H].
  - intros H l Hl. apply list_elem_of_In in Hl.
    destruct (H l Hl) as (a & -> & Ha). apply Nat.eqb_eq, Ha.
Qed.

Lemma wf_buffer_alloc (h : heap) (b : AudioBuffer) :
  wf_buffer h b = true -> Forall (fun l => (l < length h)%nat) (channelData b).
Proof.
  intros H. apply wf_buffer_Forall in H. eapply Forall_impl; [exact H|].
  intros l (a & Ha & _). eapply lookup_lt_Some; eauto.
Qed.

(** A wellformed buffer stays so when the heap grows. *)
Lemma wf_buffer_app (h ext : heap) (b : AudioBuffer) :
  wf_buffer h b = true -> wf_buffer (h ++ ext) b = true.
Proof.
  rewrite !wf_buffer_Forall. intros H. eapply Forall_impl; [exact H|].
  intros l (a & Ha & Hlen). exists a. split; [|exact Hlen].
  rewrite lookup_app_l; [exact Ha | eapply lookup_lt_Some; eauto].
Qed.

(** ** Filling freshly allocated channels from existing ones

    Both [cloneAudioBuffer] and [trimAudioBuffer] allocate a buffer and then
    fill channel after channel from the source.  [blank] is the content of a
    new channel, [G] what one step leaves in it. *)

Section FreshFill.
Variable step : nat * nat -> M unit.
Variable blank : list num.
Variable G : list num -> list num.
Hypothesis step_spec : forall (s d : nat) (hh : list (list num)),
  hh !! d = Some blank ->
  step (s, d) hh = (<[d := G (get hh s)]> hh, Ok tt).

Lemma fresh_fill (h : list (list num)) (srcs : list nat) :
  Forall (fun l => (l < length h)%nat) srcs ->
  forall done : list (list num),
  forM (zip srcs (seq (length h + length done) (length srcs))) step
       (h ++ done ++ replicate (length srcs) blank)
  = (h ++ done ++ map (fun s => G (get h s)) srcs, Ok tt).
Proof.
  induction 1 as [|s rest Hs Hrest IH]; intros done.
  - reflexivity.
  - simpl. rewrite run_bind.
    assert (Hd : (h ++ done ++ blank :: replicate (length rest) blank)
                   !! (length h + length done)%nat = Some blank).
    { rewrite app_assoc, lookup_app_r by (rewrite length_app; lia).
      rewrite length_app, Nat.sub_diag. reflexivity. }
    rewrite step_spec by exact Hd.
    rewrite get_app_l by exact Hs.
    replace (<[(length h + length done)%nat := G (get h s)]>
               (h ++ done ++ blank :: replicate (length rest) blank))
      with (h ++ (done ++ [G (get h s)]) ++ replicate (length rest) blank).
    2:{ rewrite (app_assoc h done), insert_app_r_alt by (rewrite length_app; lia).
        rewrite length_app, Nat.sub_diag. simpl.
        rewrite <- !app_assoc. reflexivity. }
    replace (S (length h + length done)) with
      (length h + length (done ++ [G (get h s)]))%nat
      by (rewrite length_app; simpl; lia).
    rewrite IH. rewrite <- !app_assoc. reflexivity.
Qed.
End FreshFill.

(** ** In-place loops over the channels of a freshly allocated buffer *)

Lemma forM_fresh (body : list num -> list num) (h todo : list (list num)) :
  forall done : list (list num),
  forM (seq (length h + length done) (length todo))
       (fun l => a ← readArr l; writeArr l (body a))
       (h ++ done ++ todo)
  = (h ++ done ++ map body todo, Ok tt).
Proof.
  induction todo as [|a todo IH]; intros done.
  - reflexivity.
  - simpl. run. unfold get.
    rewrite (app_assoc h done), lookup_app_r by (rewrite length_app; lia).
    rewrite length_app, Nat.sub_diag. simpl.
    rewrite insert_app_r_alt by (rewrite length_app; lia).
    rewrite length_app, Nat.sub_diag. simpl.
    replace (S (length h + length done)) with
      (length h + length (done ++ [body a]))%nat
      by (rewrite length_app; simpl; lia).
    replace ((h ++ done) ++ body a :: todo) with (h ++ (done ++ [body a]) ++ todo)
      by (rewrite <- !app_assoc; reflexivity).
    rewrite IH. rewrite <- !app_assoc. reflexivity.
Qed.

Lemma foldM_fresh {St : Type} (f : St -> list num -> St) (h todo : list (list num)) :
  forall (done : list (list num)) (st : St),
  foldM (seq (length h + length done) (length todo))
        (fun st l => a ← readArr l; mret (f st a)) st
        (h ++ done ++ todo)
  = (h ++ done ++ todo, Ok (fold_left f todo st)).
Proof.
  induction todo as [|a todo IH]; intros done st.
  - reflexivity.
  - simpl. run. unfold get.
    rewrite (app_assoc h done), lookup_app_r by (rewrite length_app; lia).
    rewrite length_app, Nat.sub_diag. simpl.
    replace (S (length h + length done)) with
      (length h + length (done ++ [a]))%nat
      by (rewrite length_app; simpl; lia).
    replace ((h ++ done) ++ a :: todo) with (h ++ (done ++ [a]) ++ todo)
      by (rewrite <- !app_assoc; reflexivity).
    rewrite IH. rewrite <- !app_assoc. reflexivity.
Qed.

(** ** What the effects compute *)

Lemma cloneAudioBuffer_spec (h : heap) (b : AudioBuffer) :
  wf_buffer h b = true ->
  cloneAudioBuffer b h =
  (h ++ map (get h) (channelData b),
   Ok (fresh_buffer h (numberOfChannels b) (buf_length b) (sampleRate b))).
Proof.
  intros Hwf. unfold cloneAudioBuffer. rewrite run_bind.
  unfold createBuffer at 1. cbv beta iota. rewrite run_bind. simpl channelData.
  pose proof (fresh_fill
                (fun '(src, dst) => a ← readArr src; copyToChannel dst a)
                (replicate (buf_length b) zero)
                (fun a => take (buf_length b) a
                          ++ drop (length a) (replicate (buf_length b) zero)))
    as Hfill.
  unfold numberOfChannels.
  rewrite <- (app_nil_l (replicate (length (channelData b)) _)).
  replace (length h) with (length h + length (@nil (list num)))%nat at 1
    by (simpl; lia).
  rewrite Hfill.
  - simpl. rewrite run_ret. f_equal. f_equal.
    apply wf_buffer_Forall in Hwf. apply map_ext_Forall.
    eapply Forall_impl; [exact Hwf|]. intros l (a & Ha & Hlen). simpl.
    unfold get. rewrite Ha. simpl. rewrite <- Hlen.
    rewrite firstn_all, drop_replicate, Nat.sub_diag. simpl.
    apply app_nil_r.
  - intros s d hh Hd. unfold copyToChannel. run. rewrite (get_Some _ _ _ Hd).
    rewrite length_replicate. reflexivity.
  - apply wf_buffer_alloc, Hwf.
Qed.

Lemma each_channel_fresh (h arrs : heap) (frames : nat) (rate : Q)
    (body : list num -> list num) :
  each_channel (fresh_buffer h (length arrs) frames rate) body (h ++ arrs)
  = (h ++ map body arrs, Ok tt).
Proof.
  unfold each_channel, fresh_buffer. simpl channelData.
  pose proof (forM_fresh body h arrs []) as H. simpl in H.
  rewrite Nat.add_0_r in H. exact H.
Qed.

Lemma region_peak_fresh (h arrs : heap) (frames : nat) (rate : Q) (s e : Z) :
  region_peak (fresh_buffer h (length arrs) frames rate) s e (h ++ arrs)
  = (h ++ arrs,
     Ok (fold_left
           (fun peak a =>
              for_range s e (fun j peak => num_max peak (num_abs (index a j))) peak)
           arrs zero)).
Proof.
  unfold region_peak, fresh_buffer. simpl channelData.
  pose proof (foldM_fresh
                (fun peak a =>
                   for_range s e
                     (fun j peak => num_max peak (num_abs (index a j))) peak)
                h arrs [] zero) as H.
  simpl in H. rewrite Nat.add_0_r in H. exact H.
Qed.

(** The channels of a buffer freshly allocated on top of [h]. *)
Lemma channel_fresh (h arrs : heap) (frames : nat) (rate : Q) (c : nat) :
  channel (h ++ arrs) (fresh_buffer h (length arrs) frames rate) c = arrs !! c.
Proof.
  unfold channel, fresh_buffer. simpl channelData.
  destruct (arrs !! c) as [a|] eqn:E.
  - assert (Hc : (c < length arrs)%nat) by (eapply lookup_lt_Some; eauto).
    rewrite lookup_seq_lt by exact Hc. simpl.
    rewrite lookup_app_r by lia.
    replace (length h + c - length h)%nat with c by lia. exact E.
  - apply lookup_ge_None_1 in E.
    rewrite lookup_seq_ge by exact E. reflexivity.
Qed.

Lemma channel_get (h : heap) (b : AudioBuffer) (c : nat) (a : list num) :
  channel h b c = Some a -> map (get h) (channelData b) !! c = Some a.
Proof.
  unfold channel. intros H. rewrite list_lookup_fmap.
  destruct (channelData b !! c) as [l|]; [|discriminate]. simpl in *.
  unfold get. rewrite H. reflexivity.
Qed.

Lemma channel_get_wf (h : heap) (b : AudioBuffer) (c : nat) :
  wf_buffer h b = true ->
  map (get h) (channelData b) !! c = channel h b c.
Proof.
  intros Hwf. unfold channel. rewrite list_lookup_fmap.
  destruct (channelData b !! c) as [l|] eqn:E; [|reflexivity]. simpl.
  apply wf_buffer_Forall in Hwf. rewrite Forall_forall in Hwf.
  destruct (Hwf l) as (a & Ha & _).
  { apply list_elem_of_lookup. eauto. }
  unfold get. rewrite Ha. reflexivity.
Qed.

Ltac count_arrays h b :=
  unfold numberOfChannels;
  let Hl := fresh in
  assert (Hl : length (channelData b) = length (map (get h) (channelData b)))
    by (rewrite length_map; reflexivity);
  rewrite Hl; clear Hl.

Ltac after_clone Hwf :=
  rewrite run_bind, (cloneAudioBuffer_spec _ _ Hwf); simpl sampleRate.

Lemma applyFadeIn_spec (h : heap) (b : AudioBuffer) (ss se d : Q) :
  wf_buffer h b = true ->
  applyFadeIn b ss se d h =
  (h ++ fadeIn_channels (sampleRate b) ss se d (map (get h) (channelData b)),
   Ok (fresh_buffer h (numberOfChannels b) (buf_length b) (sampleRate b))).
Proof.
  intros Hwf. unfold applyFadeIn, fadeIn_channels. after_clone Hwf.
  destruct (_ <=? 0); [reflexivity|].
  rewrite run_bind. count_arrays h b.
  rewrite each_channel_fresh. reflexivity.
Qed.

Lemma applyFadeOut_spec (h : heap) (b : AudioBuffer) (ss se d : Q) :
  wf_buffer h b = true ->
  applyFadeOut b ss se d h =
  (h ++ fadeOut_channels (sampleRate b) ss se d (map (get h) (channelData b)),
   Ok (fresh_buffer h (numberOfChannels b) (buf_length b) (sampleRate b))).
Proof.
  intros Hwf. unfold applyFadeOut, fadeOut_channels. after_clone Hwf.
  destruct (_ <=? 0); [reflexivity|].
  rewrite run_bind. count_arrays h b.
  rewrite each_channel_fresh. reflexivity.
Qed.

Lemma applyNormalize_spec (h : heap) (b : AudioBuffer) (s e : Q) :
  wf_buffer h b = true ->
  applyNormalize b s e h =
  (h ++ normalize_channels (sampleRate b) s e (map (get h) (channelData b)),
   Ok (fresh_buffer h (numberOfChannels b) (buf_length b) (sampleRate b))).
Proof.
  intros Hwf. unfold applyNormalize, normalize_channels. after_clone Hwf.
  rewrite run_bind. count_arrays h b. rewrite region_peak_fresh.
  fold (peak_of (toSample s (sampleRate b)) (toSample e (sampleRate b))
          (map (get h) (channelData b))).
  destruct (num_is_zero _); [reflexivity|].
  rewrite run_bind, each_channel_fresh. reflexivity.
Qed.

Lemma applyNoiseReduction_spec (h : heap) (b : AudioBuffer) (s e : Q) :
  wf_buffer h b = true ->
  applyNoiseReduction b s e h =
  (h ++ noiseGate_channels (sampleRate b) s e (map (get h) (channelData b)),
   Ok (fresh_buffer h (numberOfChannels b) (buf_length b) (sampleRate b))).
Proof.
  intros Hwf. unfold applyNoiseReduction, noiseGate_channels. after_clone Hwf.
  rewrite run_bind. count_arrays h b.
  rewrite each_channel_fresh. reflexivity.
Qed.

(** ** [trimAudioBuffer] *)

Lemma subarray_length_le (a : list num) (b e : Z) :
  b <= e -> (length (subarray a b e) <= Z.to_nat (e - b))%nat.
Proof.
  intros Hbe. unfold subarray. rewrite length_take.
  etransitivity; [apply Nat.le_min_l|].
  unfold relative_index; destruct (Z.ltb_spec b 0), (Z.ltb_spec e 0); lia.
Qed.

(** The window [b, e) of [a] with [0 <= b]: slot [k] is frame [b + k]. *)
Lemma subarray_lookup (a : list num) (b e : Z) (k : nat) :
  0 <= b -> b <= e ->
  subarray a b e !! k =
  if b + Z.of_nat k <? e then a !! Z.to_nat (b + Z.of_nat k) else None.
Proof.
  intros Hb He. unfold subarray, relative_index.
  destruct (Z.ltb_spec b 0); [lia|]. destruct (Z.ltb_spec e 0); [lia|].
  set (len := Z.of_nat (length a)).
  destruct (Z.ltb_spec (b + Z.of_nat k) e) as [Hin|Hout].
  - destruct (Z.lt_ge_cases (b + Z.of_nat k) len) as [Hlt|Hge].
    + rewrite lookup_take_lt by lia. rewrite lookup_drop. f_equal. lia.
    + rewrite (proj2 (lookup_ge_None a (Z.to_nat (b + Z.of_nat k)))) by lia.
      apply lookup_ge_None_2. rewrite length_take, length_drop. lia.
  - apply lookup_ge_None_2. rewrite length_take, length_drop. lia.
Qed.

Lemma trim_channel_length (so eo : Z) (a : list num) :
  so <= eo -> length (trim_channel so eo a) = Z.to_nat (eo - so).
Proof.
  intros H. unfold trim_channel. rewrite length_app, length_drop, length_replicate.
  pose proof (subarray_length_le a so eo H). lia.
Qed.

Lemma trimAudioBuffer_fail (h : heap) (b : AudioBuffer) (s e : Q) :
  toSample e (sampleRate b) - toSample s (sampleRate b) <= 0 ->
  trimAudioBuffer b s e h = (h, Throw InvalidTrimRange).
Proof.
  intros H. unfold trimAudioBuffer.
  destruct (Z.leb_spec (toSample e (sampleRate b) - toSample s (sampleRate b)) 0);
    [reflexivity | lia].
Qed.

Lemma trimAudioBuffer_spec (h : heap) (b : AudioBuffer) (s e : Q) :
  wf_buffer h b = true ->
  0 < toSample e (sampleRate b) - toSample s (sampleRate b) ->
  trimAudioBuffer b s e h =
  (h ++ map (trim_channel (toSample s (sampleRate b)) (toSample e (sampleRate b)))
         (map (get h) (channelData b)),
   Ok (fresh_buffer h (numberOfChannels b)
         (Z.to_nat (toSample e (sampleRate b) - toSample s (sampleRate b)))
         (sampleRate b))).
Proof.
  intros Hwf Hpos. unfold trimAudioBuffer.
  set (so := toSample s (sampleRate b)) in *.
  set (eo := toSample e (sampleRate b)) in *.
  destruct (Z.leb_spec (eo - so) 0); [lia|].
  rewrite run_bind. unfold createBuffer at 1. cbv beta iota.
  rewrite run_bind. simpl channelData.
  pose proof (fresh_fill
                (fun '(channelData, newChannelData) =>
                   a ← readArr channelData;
                   typed_set newChannelData (subarray a so eo) 0)
                (replicate (Z.to_nat (eo - so)) zero)
                (trim_channel so eo)) as Hfill.
  unfold numberOfChannels.
  rewrite <- (app_nil_l (replicate (length (channelData b)) _)).
  replace (length h) with (length h + length (@nil (list num)))%nat at 1
    by (simpl; lia).
  rewrite Hfill.
  - simpl. rewrite run_ret. rewrite map_map. reflexivity.
  - intros s' d hh Hd. unfold typed_set. run. rewrite (get_Some _ _ _ Hd).
    rewrite length_replicate.
    pose proof (subarray_length_le (get hh s') so eo ltac:(lia)) as Hlen.
    destruct (Z.ltb_spec (Z.of_nat (Z.to_nat (eo - so)))
                (0 + Z.of_nat (length (subarray (get hh s') so eo)))); [lia|].
    reflexivity.
  - apply wf_buffer_alloc, Hwf.
Qed.

(** ** Reading samples of the result *)

Lemma index_in_range (a : list num) (j : Z) :
  0 <= j < Z.of_nat (length a) -> exists x, a !! Z.to_nat j = Some x /\ index a j = x.
Proof.
  intros Hj. destruct (lookup_lt_is_Some_2 a (Z.to_nat j)) as [x Hx]; [lia|].
  exists x. split; [exact Hx|]. unfold index.
  destruct (Z.ltb_spec j 0); [lia|]. rewrite Hx. reflexivity.
Qed.

Lemma index_update_region (s e : Z) (f : Z -> num -> num) (a : list num) (j : Z) :
  0 <= j < Z.of_nat (length a) ->
  index (update_region s e f a) j =
  if (s <=? j) && (j <? e) then f j (index a j) else index a j.
Proof.
  intros Hj. destruct (index_in_range a j Hj) as (x & Hx & ->).
  unfold index at 1. destruct (Z.ltb_spec j 0); [lia|].
  rewrite update_region_lookup, Hx. simpl. rewrite Z2Nat.id by lia. reflexivity.
Qed.

(** The channels of the result of an effect that maps the channel contents
    through [F]. *)
Lemma channel_result (h : heap) (b : AudioBuffer) (F : list (list num) -> list (list num))
    (c : nat) :
  length (F (map (get h) (channelData b))) = numberOfChannels b ->
  channel (h ++ F (map (get h) (channelData b)))
          (fresh_buffer h (numberOfChannels b) (buf_length b) (sampleRate b)) c
  = F (map (get h) (channelData b)) !! c.
Proof. intros <-. apply channel_fresh. Qed.

Lemma of_Z_div (n d : Z) :
  d <> 0 -> num_div (of_Z n) (of_Z d) = Fin (inject_Z n / inject_Z d).
Proof.
  intros Hd. unfold num_div, of_Z.
  destruct (Qeq_bool (inject_Z d) 0) eqn:E; [|reflexivity].
  apply Qeq_bool_eq in E. unfold Qeq, inject_Z in E. simpl in E. lia.
Qed.

(** ** C4: the fade-in ramp *)

(** C4.  [applyFadeIn] returns a new buffer of the same shape.  With
    [startSample = floor(selStart*sr)], [endSample = min(startSample +
    floor(duration*sr), floor(selEnd*sr))] and [len = endSample - startSample]:
    if [len <= 0] every channel of the result equals the input channel;
    otherwise sample [j] of every channel is multiplied by
    [(j - startSample)/len] when [startSample <= j < endSample] and is
    unchanged elsewhere.  In particular the sample at [startSample] becomes
    [0] and the one at [endSample - 1] is scaled by [(len - 1)/len]. *)
Theorem applyFadeIn_ramp (h : heap) (b : AudioBuffer) (selStart selEnd dur : Q) :
  wf_buffer h b = true ->
  let startSample := toSample selStart (sampleRate b) in
  let endSample :=
    Z.min (startSample + toSample dur (sampleRate b)) (toSample selEnd (sampleRate b)) in
  let len := endSample - startSample in
  exists (h' : heap) (nb : AudioBuffer),
    applyFadeIn b selStart selEnd dur h = (h', Ok nb) /\
    numberOfChannels nb = numberOfChannels b /\
    buf_length nb = buf_length b /\
    sampleRate nb = sampleRate b /\
    (len <= 0 -> forall c, channel h' nb c = channel h b c) /\
    (0 < len ->
     forall c a, channel h b c = Some a ->
       exists a', channel h' nb c = Some a' /\ length a' = length a /\
         (forall j, 0 <= j < Z.of_nat (length a) ->
            index a' j =
            if (startSample <=? j) && (j <? endSample)
            then num_mul (index a j) (Fin (inject_Z (j - startSample) / inject_Z len))
            else index a j) /\
         (forall x, 0 <= startSample < Z.of_nat (length a) ->
            index a startSample = Fin x ->
            num_eqv (index a' startSample) zero) /\
         (0 <= endSample - 1 < Z.of_nat (length a) ->
            index a' (endSample - 1) =
            num_mul (index a (endSample - 1)) (Fin (inject_Z (len - 1) / inject_Z len)))).
Proof.
  intros Hwf startSample endSample len.
  eexists _, _. split; [apply applyFadeIn_spec, Hwf|].
  split; [unfold fresh_buffer, numberOfChannels; simpl; apply length_seq|].
  split; [reflexivity|]. split; [reflexivity|].
  unfold fadeIn_channels. fold startSample. fold endSample. fold len.
  destruct (Z.leb_spec len 0) as [Hle|Hgt].
  - split; [|lia]. intros _ c.
    rewrite (channel_result h b (fun x => x)) by apply length_map.
    apply channel_get_wf, Hwf.
  - split; [lia|]. intros _ c a Hc.
    rewrite (channel_result h b (map _)) by (rewrite !length_map; reflexivity).
    rewrite list_lookup_fmap, (channel_get _ _ _ _ Hc). simpl.
    eexists. split; [reflexivity|].
    split; [apply update_region_length|].
    assert (Hix : forall j, 0 <= j < Z.of_nat (length a) ->
              index (update_region startSample endSample
                       (fun j x => num_mul x
                          (num_div (of_Z (j - startSample)) (of_Z len))) a) j =
              if (startSample <=? j) && (j <? endSample)
              then num_mul (index a j)
                     (Fin (inject_Z (j - startSample) / inject_Z len))
              else index a j).
    { intros j Hj. rewrite index_update_region by exact Hj.
      rewrite of_Z_div by lia. reflexivity. }
    split; [exact Hix|]. split.
    + intros x Hs Hx. rewrite Hix by exact Hs.
      destruct (Z.leb_spec startSample startSample); [|lia].
      destruct (Z.ltb_spec startSample endSample); [|lia]. simpl.
      rewrite Hx. simpl. rewrite Z.sub_diag. unfold Qdiv.
      rewrite Qmult_0_l, Qmult_0_r. reflexivity.
    + intros He. rewrite Hix by exact He.
      destruct (Z.leb_spec startSample (endSample - 1)); [|lia].
      destruct (Z.ltb_spec (endSample - 1) endSample); [|lia]. simpl.
      replace (endSample - 1 - startSample) with (len - 1) by (unfold len; lia).
      reflexivity.
Qed.

(** ** The peak search *)

Lemma region_finite_spec (h : heap) (b : AudioBuffer) (s e : Z) :
  region_finite h b s e = true ->
  forall a, a ∈ map (get h) (channelData b) ->
  forall j, s <= j < e -> exists x, index a j = Fin x.
Proof.
  unfold region_finite. rewrite forallb_forall. intros H a Ha j Hj.
  apply list_elem_of_fmap in Ha. destruct Ha as (l & -> & Hl).
  apply list_elem_of_In in Hl. specialize (H l Hl).
  rewrite forallb_forall in H. specialize (H j).
  destruct (index (get h l) j) as [x|]; [eauto|].
  assert (false = true); [|discriminate]. apply H.
  apply list_elem_of_In, elem_of_seqZ. lia.
Qed.

(** The inner loop of the peak search, started at [Fin p0]. *)
Lemma peak_loop (a : list num) (e : Z) :
  forall (n : nat) (s : Z) (p0 : Q),
  Z.to_nat (e - s) = n ->
  (forall j, s <= j < e -> exists x, index a j = Fin x) ->
  exists p, for_range s e (peak_step a) (Fin p0) = Fin p /\
    (p0 <= p)%Q /\
    (forall j x, s <= j < e -> index a j = Fin x -> (Qabs x <= p)%Q) /\
    (p = p0 \/ exists j x, s <= j < e /\ index a j = Fin x /\ p = Qabs x).
Proof.
  induction n as [|n IH]; intros s p0 Hn Hfin.
  - exists p0. rewrite for_range_nil by lia.
    split; [reflexivity|]. split; [apply Qle_refl|]. split; [intros; lia | auto].
  - rewrite for_range_step by lia.
    destruct (Hfin s ltac:(lia)) as [x Hx].
    unfold peak_step at 2. rewrite Hx. simpl.
    destruct (Qle_bool p0 (Qabs x)) eqn:E.
    + apply Qle_bool_iff in E.
      destruct (IH (s + 1) (Qabs x) ltac:(lia)) as (p & Hp & Hle & Hub & Hatt).
      { intros j Hj. apply Hfin. lia. }
      exists p. split; [exact Hp|]. split; [eapply Qle_trans; eauto|]. split.
      * intros j y Hj Hy. destruct (Z.eq_dec j s) as [->|Hne].
        -- rewrite Hx in Hy. injection Hy as <-. exact Hle.
        -- apply (Hub j); [lia | exact Hy].
      * right. destruct Hatt as [->|(j & y & Hj & Hy & ->)].
        -- exists s, x. split; [lia|]. auto.
        -- exists j, y. split; [lia|]. auto.
    + assert (Hlt : (Qabs x <= p0)%Q).
      { destruct (Qlt_le_dec p0 (Qabs x)) as [Hlt|Hge]; [|exact Hge].
        apply Qlt_le_weak, Qle_bool_iff in Hlt. congruence. }
      destruct (IH (s + 1) p0 ltac:(lia)) as (p & Hp & Hle & Hub & Hatt).
      { intros j Hj. apply Hfin. lia. }
      exists p. split; [exact Hp|]. split; [exact Hle|]. split.
      * intros j y Hj Hy. destruct (Z.eq_dec j s) as [->|Hne].
        -- rewrite Hx in Hy. injection Hy as <-. eapply Qle_trans; eauto.
        -- apply (Hub j); [lia | exact Hy].
      * destruct Hatt as [->|(j & y & Hj & Hy & ->)]; [left; reflexivity|].
        right. exists j, y. split; [lia|]. auto.
Qed.

(** The whole peak search over the channels [arrs], started at [Fin p0]. *)
Lemma peak_fold (s e : Z) (arrs : list (list num)) :
  forall p0 : Q,
  (forall a, a ∈ arrs -> forall j, s <= j < e -> exists x, index a j = Fin x) ->
  exists p,
    fold_left (fun peak a => for_range s e (peak_step a) peak) arrs (Fin p0) = Fin p /\
    (p0 <= p)%Q /\
    (forall c a j x, arrs !! c = Some a -> s <= j < e -> index a j = Fin x ->
       (Qabs x <= p)%Q) /\
    (p = p0 \/
     exists c a j x, arrs !! c = Some a /\ s <= j < e /\ index a j = Fin x /\ p = Qabs x).
Proof.
  induction arrs as [|a arrs IH]; intros p0 Hfin.
  - exists p0. simpl. split; [reflexivity|]. split; [apply Qle_refl|].
    split; [intros c a j x Hc; discriminate | auto].
  - simpl.
    destruct (peak_loop a e (Z.to_nat (e - s)) s p0 eq_refl) as (p1 & Hp1 & Hle1 & Hub1 & Hatt1).
    { apply Hfin. left. }
    rewrite Hp1.
    destruct (IH p1) as (p & Hp & Hle & Hub & Hatt).
    { intros a' Ha'. apply Hfin. right. exact Ha'. }
    exists p. split; [exact Hp|]. split; [eapply Qle_trans; eauto|]. split.
    + intros c a' j x Hc Hj Hx. destruct c as [|c]; simpl in Hc.
      * injection Hc as <-. eapply Qle_trans; [|exact Hle]. eapply Hub1; eauto.
      * eapply Hub; eauto.
    + destruct Hatt as [->|(c & a' & j & x & Hc & Hj & Hx & ->)].
      * destruct Hatt1 as [->|(j & x & Hj & Hx & ->)]; [left; reflexivity|].
        right. exists 0%nat, a, j, x. auto.
      * right. exists (S c), a', j, x. auto.
Qed.

Lemma index_Fin_in_range (a : list num) (j : Z) (x : Q) :
  index a j = Fin x -> 0 <= j < Z.of_nat (length a).
Proof.
  unfold index. destruct (Z.ltb_spec j 0); [discriminate|].
  destruct (a !! Z.to_nat j) eqn:E; [|discriminate].
  intros _. apply lookup_lt_Some in E. lia.
Qed.

Lemma scaled_abs (x p : Q) : (0 < p -> Qabs (x * (1 / p)) == Qabs x / p)%Q.
Proof.
  intros Hp. rewrite Qabs_Qmult.
  rewrite (Qabs_pos (1 / p)).
  - field. intros E. rewrite E in Hp. apply (Qlt_irrefl 0), Hp.
  - apply Qle_shift_div_l; [exact Hp|]. lra.
Qed.

Lemma scaled_abs_le (x p : Q) :
  (0 < p -> Qabs x <= p -> Qabs (x * (1 / p)) <= 1)%Q.
Proof.
  intros Hp Hx. rewrite scaled_abs by exact Hp.
  apply Qle_shift_div_r; [exact Hp|]. lra.
Qed.

Lemma scaled_abs_eq (x p : Q) :
  (0 < p -> Qabs x == p -> Qabs (x * (1 / p)) == 1)%Q.
Proof.
  intros Hp Hx. rewrite scaled_abs by exact Hp. rewrite Hx. field.
  intros E. rewrite E in Hp. apply (Qlt_irrefl 0), Hp.
Qed.

(** ** C3: normalisation *)

(** C3.  Let the region [floor(start*sr), floor(end*sr)) lie inside the
    buffer and hold finite samples.  [applyNormalize] returns a new buffer of
    the same shape, and there is a [peak] that is the maximum of [|sample|]
    over the region in all channels (an upper bound that is attained, or [0]).
    If [peak] is [0] the result equals the input, channel by channel.
    Otherwise every sample in the region is multiplied by [1/peak], every
    other sample is unchanged, and the peak of the region in the result is
    [1]: no sample of the region exceeds [1] in absolute value and one
    reaches it. *)
Theorem applyNormalize_peak (h : heap) (b : AudioBuffer) (start end_ : Q) :
  wf_buffer h b = true ->
  let s := toSample start (sampleRate b) in
  let e := toSample end_ (sampleRate b) in
  region_finite h b s e = true ->
  exists (h' : heap) (nb : AudioBuffer) (peak : Q),
    applyNormalize b start end_ h = (h', Ok nb) /\
    numberOfChannels nb = numberOfChannels b /\
    buf_length nb = buf_length b /\
    sampleRate nb = sampleRate b /\
    (0 <= peak)%Q /\
    (forall c a j, channel h b c = Some a -> s <= j < e ->
       exists x, index a j = Fin x /\ (Qabs x <= peak)%Q) /\
    ((peak == 0)%Q \/
     exists c a j x, channel h b c = Some a /\ s <= j < e /\
       index a j = Fin x /\ (Qabs x == peak)%Q) /\
    ((peak == 0)%Q -> forall c, channel h' nb c = channel h b c) /\
    (~ (peak == 0)%Q ->
     forall c a, channel h b c = Some a ->
       exists a', channel h' nb c = Some a' /\ length a' = length a /\
         forall j, 0 <= j < Z.of_nat (length a) ->
           index a' j =
           if (s <=? j) && (j <? e)
           then num_mul (index a j) (Fin (1 / peak))
           else index a j) /\
    (~ (peak == 0)%Q ->
     (forall c a' j, channel h' nb c = Some a' -> s <= j < e ->
        exists y, index a' j = Fin y /\ (Qabs y <= 1)%Q) /\
     (exists c a' j y, channel h' nb c = Some a' /\ s <= j < e /\
        index a' j = Fin y /\ (Qabs y == 1)%Q)).
Proof.
  intros Hwf s e Hfin.
  pose proof (region_finite_spec h b s e Hfin) as Hfin'.
  destruct (peak_fold s e (map (get h) (channelData b)) 0 Hfin')
    as (p & Hp & Hle & Hub & Hatt).
  assert (Hpk : peak_of s e (map (get h) (channelData b)) = Fin p) by exact Hp.
  assert (Hch : forall c a, channel h b c = Some a ->
            forall j, s <= j < e -> exists x, index a j = Fin x /\ (Qabs x <= p)%Q).
  { intros c a Hc j Hj. apply channel_get in Hc.
    destruct (Hfin' a) with (j := j) as [x Hx]; [|exact Hj|].
    - apply list_elem_of_lookup. eauto.
    - exists x. split; [exact Hx|]. eapply Hub; eauto. }
  eexists _, _, p. split; [apply applyNormalize_spec, Hwf|].
  split; [unfold fresh_buffer, numberOfChannels; simpl; apply length_seq|].
  split; [reflexivity|]. split; [reflexivity|]. split; [exact Hle|].
  split; [intros c a j Hc Hj; eapply Hch; eauto|].
  split.
  { destruct Hatt as [->|(c & a & j & x & Hc & Hj & Hx & ->)]; [left; reflexivity|].
    right. exists c, a, j, x. rewrite channel_get_wf in Hc by exact Hwf.
    split; [exact Hc|]. split; [exact Hj|]. split; [exact Hx | reflexivity]. }
  unfold normalize_channels. fold s. fold e. rewrite Hpk. simpl num_is_zero.
  destruct (Qeq_bool p 0) eqn:Ez.
  - apply Qeq_bool_eq in Ez. split; [|split; intros Hnz; contradiction].
    intros _ c. rewrite (channel_result h b (fun x => x)) by apply length_map.
    apply channel_get_wf, Hwf.
  - apply Qeq_bool_neq in Ez.
    assert (Hpos : (0 < p)%Q).
    { destruct (Qlt_le_dec 0 p) as [Hlt|Hge]; [exact Hlt|].
      exfalso. apply Ez. apply Qle_antisym; assumption. }
    assert (Hix : forall a j, 0 <= j < Z.of_nat (length a) ->
              index (update_region s e
                       (fun _ x => num_mul x (num_div (of_Z 1) (Fin p))) a) j =
              if (s <=? j) && (j <? e)
              then num_mul (index a j) (Fin (1 / p)) else index a j).
    { intros a j Hj. rewrite index_update_region by exact Hj.
      unfold num_div, of_Z.
      destruct (Qeq_bool p 0) eqn:E; [|reflexivity].
      apply Qeq_bool_eq in E. contradiction. }
    split; [intros Hz; contradiction|]. split.
    + intros _ c a Hc.
      rewrite (channel_result h b (map _)) by (rewrite !length_map; reflexivity).
      rewrite list_lookup_fmap, (channel_get _ _ _ _ Hc). simpl.
      eexists. split; [reflexivity|]. split; [apply update_region_length|].
      intros j Hj. apply Hix, Hj.
    + intros _. split.
      * intros c a' j Hc Hj.
        rewrite (channel_result h b (map _)) in Hc
          by (rewrite !length_map; reflexivity).
        rewrite list_lookup_fmap, channel_get_wf in Hc by exact Hwf.
        destruct (channel h b c) as [a|] eqn:Ha; [|discriminate].
        simpl in Hc. injection Hc as <-.
        destruct (Hch c a Ha j Hj) as (x & Hx & Hxp).
        rewrite Hix by (eapply index_Fin_in_range; eauto).
        destruct (Z.leb_spec s j); [|lia]. destruct (Z.ltb_spec j e); [|lia].
        simpl. rewrite Hx. simpl. eexists. split; [reflexivity|].
        apply scaled_abs_le; assumption.
      * destruct Hatt as [->|(c & a & j & x & Hc & Hj & Hx & Hpx)].
        { exfalso. apply Ez. reflexivity. }
        exists c. eexists. exists j. eexists.
        rewrite (channel_result h b (map _)) by (rewrite !length_map; reflexivity).
        rewrite list_lookup_fmap, Hc. simpl. split; [reflexivity|].
        split; [exact Hj|].
        rewrite Hix by (eapply index_Fin_in_range; eauto).
        destruct (Z.leb_spec s j); [|lia]. destruct (Z.ltb_spec j e); [|lia].
        simpl. rewrite Hx. simpl. split; [reflexivity|].
        apply scaled_abs_eq; [exact Hpos|]. rewrite Hpx. reflexivity.
Qed.

(** ** C10 and C2: trimming *)

Lemma toSample_nonneg (t rate : Q) :
  (0 <= t)%Q -> (0 < rate)%Q -> 0 <= toSample t rate.
Proof.
  intros Ht Hr. unfold toSample.
  change 0 with (Qfloor 0). apply Qfloor_resp_le.
  apply Qmult_le_0_compat; [exact Ht | apply Qlt_le_weak, Hr].
Qed.

Lemma toSample_mono (t1 t2 rate : Q) :
  (t1 <= t2)%Q -> (0 < rate)%Q -> toSample t1 rate <= toSample t2 rate.
Proof.
  intros Ht Hr. unfold toSample. apply Qfloor_resp_le.
  apply Qmult_le_compat_r; [exact Ht | apply Qlt_le_weak, Hr].
Qed.

(** Frame [k] of a trimmed channel. *)
Lemma trim_channel_index (so eo : Z) (a : list num) (k : Z) :
  0 <= so -> 0 <= k < eo - so ->
  index (trim_channel so eo a) k =
  if so + k <? Z.of_nat (length a) then index a (so + k) else zero.
Proof.
  intros Hso Hk. unfold index at 1. destruct (Z.ltb_spec k 0); [lia|].
  unfold trim_channel.
  pose proof (subarray_lookup a so eo (Z.to_nat k) Hso ltac:(lia)) as Hsub.
  rewrite Z2Nat.id in Hsub by lia.
  destruct (Z.ltb_spec (so + k) eo); [|lia].
  destruct (Z.ltb_spec (so + k) (Z.of_nat (length a))) as [Hin|Hout].
  - destruct (index_in_range a (so + k) ltac:(lia)) as (x & Hx & ->).
    rewrite Hx in Hsub.
    rewrite lookup_app_l by (eapply lookup_lt_Some; eauto).
    rewrite Hsub. reflexivity.
  - rewrite (proj2 (lookup_ge_None a (Z.to_nat (so + k)))) in Hsub by lia.
    apply lookup_ge_None_1 in Hsub.
    rewrite lookup_app_r by exact Hsub.
    rewrite lookup_drop, lookup_replicate_2 by lia. reflexivity.
Qed.

(** C10.  With [0 <= start < end] and [floor(start*sr) < floor(end*sr)],
    [trimAudioBuffer] does not fail, also when the selection runs past the end
    of the buffer: the result has [floor(end*sr) - floor(start*sr)] frames in
    every channel; frame [k] is the source frame [floor(start*sr) + k] as long
    as the source has such a frame, and [0] from the end of the source on. *)
Theorem trimAudioBuffer_pads (h : heap) (b : AudioBuffer) (start end_ : Q) :
  wf_buffer h b = true ->
  (0 < sampleRate b)%Q ->
  (0 <= start)%Q -> (start < end_)%Q ->
  let so := toSample start (sampleRate b) in
  let eo := toSample end_ (sampleRate b) in
  so < eo ->
  exists (h' : heap) (nb : AudioBuffer),
    trimAudioBuffer b start end_ h = (h', Ok nb) /\
    numberOfChannels nb = numberOfChannels b /\
    buf_length nb = Z.to_nat (eo - so) /\
    sampleRate nb = sampleRate b /\
    forall c a, channel h b c = Some a ->
      exists a', channel h' nb c = Some a' /\
        length a' = Z.to_nat (eo - so) /\
        forall k, 0 <= k < eo - so ->
          index a' k =
          if so + k <? Z.of_nat (buf_length b) then index a (so + k) else zero.
Proof.
  intros Hwf Hrate Hstart Hlt so eo Hframes.
  eexists _, _. split; [apply trimAudioBuffer_spec; [exact Hwf | fold so eo; lia]|].
  fold so eo.
  split; [unfold fresh_buffer, numberOfChannels; simpl; apply length_seq|].
  split; [reflexivity|]. split; [reflexivity|].
  intros c a Hc.
  assert (Hlen : length a = buf_length b).
  { apply wf_buffer_Forall in Hwf. rewrite Forall_forall in Hwf.
    unfold channel in Hc. destruct (channelData b !! c) as [l|] eqn:El; [|discriminate].
    simpl in Hc. destruct (Hwf l) as (a0 & Ha0 & Hl0).
    - apply list_elem_of_lookup. eauto.
    - congruence. }
  pose proof (channel_fresh h
                (map (trim_channel so eo) (map (get h) (channelData b)))
                (Z.to_nat (eo - so)) (sampleRate b) c) as Hfresh.
  rewrite !length_map in Hfresh. unfold numberOfChannels. rewrite Hfresh.
  rewrite list_lookup_fmap, (channel_get _ _ _ _ Hc). simpl.
  eexists. split; [reflexivity|].
  split; [apply trim_channel_length; lia|].
  intros k Hk. rewrite <- Hlen. apply trim_channel_index; [|exact Hk].
  apply toSample_nonneg; assumption.
Qed.

(** C2 does not hold as stated: a selection that ends after the buffer
    (here [0, 10) of a 4 second buffer) is not rejected. *)
Lemma trimAudioBuffer_past_end_not_rejected :
  ~ (forall (h : heap) (b : AudioBuffer) (start end_ : Q),
       wf_buffer h b = true -> (0 < sampleRate b)%Q ->
       ((exists h', trimAudioBuffer b start end_ h = (h', Throw InvalidTrimRange))
        <-> selection_rejected b start end_)).
Proof.
  intros H.
  destruct (H four_ones four_ones_buffer 0%Q (10 # 1)%Q eq_refl eq_refl)
    as [_ Hfail].
  destruct Hfail as [h' Hh'].
  - right. intros (_ & _ & Hend). vm_compute in Hend. apply Hend. reflexivity.
  - vm_compute in Hh'. discriminate.
Qed.

(** C2, amended.  [trimAudioBuffer] fails with the invalid-range error if and
    only if [floor(end*sr) - floor(start*sr) <= 0], which is the case whenever
    [end <= start]; the heap is then left as it was.  Otherwise it returns a
    new buffer and leaves every existing array as it was; when the frames
    [floor(start*sr), floor(end*sr)) lie inside the source, the result holds
    exactly these frames. *)
Theorem trimAudioBuffer_range (h : heap) (b : AudioBuffer) (start end_ : Q) :
  wf_buffer h b = true ->
  let so := toSample start (sampleRate b) in
  let eo := toSample end_ (sampleRate b) in
  ((exists h', trimAudioBuffer b start end_ h = (h', Throw InvalidTrimRange))
   <-> eo - so <= 0) /\
  (eo - so <= 0 -> trimAudioBuffer b start end_ h = (h, Throw InvalidTrimRange)) /\
  ((0 < sampleRate b)%Q -> (end_ <= start)%Q -> eo - so <= 0) /\
  (0 < eo - so ->
   exists (h' : heap) (nb : AudioBuffer),
     trimAudioBuffer b start end_ h = (h', Ok nb) /\
     (forall l, (l < length h)%nat -> h' !! l = h !! l) /\
     numberOfChannels nb = numberOfChannels b /\
     buf_length nb = Z.to_nat (eo - so) /\
     (0 <= so -> eo <= Z.of_nat (buf_length b) ->
      forall c a, channel h b c = Some a ->
        exists a', channel h' nb c = Some a' /\
          length a' = Z.to_nat (eo - so) /\
          forall k, 0 <= k < eo - so -> index a' k = index a (so + k))).
Proof.
  intros Hwf so eo.
  assert (Hok : 0 < eo - so ->
            trimAudioBuffer b start end_ h =
            (h ++ map (trim_channel so eo) (map (get h) (channelData b)),
             Ok (fresh_buffer h (numberOfChannels b) (Z.to_nat (eo - so))
                   (sampleRate b)))).
  { intros Hpos. apply trimAudioBuffer_spec; assumption. }
  split; [split|].
  - intros [h' Hh']. destruct (Z.le_gt_cases (eo - so) 0) as [Hle|Hgt]; [exact Hle|].
    rewrite Hok in Hh' by lia. discriminate.
  - intros Hle. exists h. apply trimAudioBuffer_fail. exact Hle.
  - split; [apply trimAudioBuffer_fail|]. split.
    + intros Hrate Hes. pose proof (toSample_mono end_ start _ Hes Hrate).
      unfold so, eo. lia.
    + intros Hpos. eexists _, _. split; [apply Hok, Hpos|].
      split; [intros l Hl; apply lookup_app_l, Hl|].
      split; [unfold fresh_buffer, numberOfChannels; simpl; apply length_seq|].
      split; [reflexivity|].
      intros Hso Heo c a Hc.
      assert (Hlen : length a = buf_length b).
      { apply wf_buffer_Forall in Hwf. rewrite Forall_forall in Hwf.
        unfold channel in Hc.
        destruct (channelData b !! c) as [l|] eqn:El; [|discriminate].
        simpl in Hc. destruct (Hwf l) as (a0 & Ha0 & Hl0).
        - apply list_elem_of_lookup. eauto.
        - congruence. }
      pose proof (channel_fresh h
                    (map (trim_channel so eo) (map (get h) (channelData b)))
                    (Z.to_nat (eo - so)) (sampleRate b) c) as Hfresh.
      rewrite !length_map in Hfresh. unfold numberOfChannels. rewrite Hfresh.
      rewrite list_lookup_fmap, (channel_get _ _ _ _ Hc). simpl.
      eexists. split; [reflexivity|].
      split; [apply trim_channel_length; lia|].
      intros k Hk. rewrite trim_channel_index by lia.
      destruct (Z.ltb_spec (so + k) (Z.of_nat (length a))); [reflexivity | lia].
Qed.

(** ** C8: the source buffer is never written *)

Lemma fadeIn_channels_length (rate ss se d : Q) (arrs : list (list num)) :
  length (fadeIn_channels rate ss se d arrs) = length arrs.
Proof.
  unfold fadeIn_channels. destruct (_ <=? 0); [reflexivity | apply length_map].
Qed.

Lemma fadeOut_channels_length (rate ss se d : Q) (arrs : list (list num)) :
  length (fadeOut_channels rate ss se d arrs) = length arrs.
Proof.
  unfold fadeOut_channels. destruct (_ <=? 0); [reflexivity | apply length_map].
Qed.

Lemma normalize_channels_length (rate s e : Q) (arrs : list (list num)) :
  length (normalize_channels rate s e arrs) = length arrs.
Proof.
  unfold normalize_channels. destruct (num_is_zero _); [reflexivity | apply length_map].
Qed.

Lemma noiseGate_channels_length (rate s e : Q) (arrs : list (list num)) :
  length (noiseGate_channels rate s e arrs) = length arrs.
Proof. apply length_map. Qed.

(** One splice either is refused or replaces the target array. *)
Lemma splice_step (dst src : nat) (offset : Z) (h : list (list num)) :
  (a ← readArr src; typed_set dst a offset) h = (h, Throw RangeError) \/
  exists v, (a ← readArr src; typed_set dst a offset) h = (<[dst := v]> h, Ok tt).
Proof.
  unfold typed_set. run. destruct ((offset <? 0) || _); [left | right; eexists];
    reflexivity.
Qed.

(** Writing rendered channels into arrays above [n] leaves the arrays below
    [n] alone and allocates nothing, whether or not a write is refused. *)
Lemma splice_frame (n : nat) (offset : Z) (pairs : list (nat * nat)) :
  Forall (fun p => (n <= fst p)%nat) pairs ->
  forall h : list (list num),
  take n (fst (forM pairs
                 (fun '(dst, src) => a ← readArr src; typed_set dst a offset) h))
  = take n h /\
  length (fst (forM pairs
                 (fun '(dst, src) => a ← readArr src; typed_set dst a offset) h))
  = length h.
Proof.
  induction 1 as [|[dst src] pairs Hdst Hrest IH]; intros h.
  - simpl. auto.
  - simpl in Hdst. simpl forM. rewrite run_bind.
    destruct (splice_step dst src offset h) as [->|[v ->]].
    + simpl. auto.
    + destruct (IH (<[dst := v]> h)) as [IH1 IH2].
      rewrite IH1, IH2, take_insert_ge, length_insert by exact Hdst. auto.
Qed.

(** A heap that extends [h] by [k] arrays agrees with [h] on the old ones. *)
Lemma extends_lookup (h h' : list (list num)) (l : nat) :
  take (length h) h' = h -> (l < length h)%nat -> h' !! l = h !! l.
Proof.
  intros Ht Hl. rewrite <- Ht. rewrite lookup_take_lt by exact Hl. reflexivity.
Qed.

Lemma channel_extends (h h' : list (list num)) (b : AudioBuffer) (c : nat) :
  wf_buffer h b = true ->
  (forall l, (l < length h)%nat -> h' !! l = h !! l) ->
  channel h' b c = channel h b c.
Proof.
  intros Hwf Hsame. unfold channel.
  destruct (channelData b !! c) as [l|] eqn:E; [|reflexivity]. simpl.
  apply Hsame. pose proof (wf_buffer_alloc h b Hwf) as Ha.
  rewrite Forall_forall in Ha. apply Ha. apply list_elem_of_lookup. eauto.
Qed.

Lemma frame_ok_fresh (h ext : heap) (channels frames : nat) (rate : Q) :
  length ext = channels ->
  frame_ok h (h ++ ext) (Ok (fresh_buffer h channels frames rate)).
Proof.
  intros Hlen. split; [apply take_app_length|].
  intros nb Hnb l Hl.
  assert (E : nb = fresh_buffer h channels frames rate) by congruence.
  rewrite E in Hl. simpl in Hl. apply elem_of_seq in Hl. rewrite length_app. lia.
Qed.

Lemma frame_ok_throw (h : heap) (e : error) : frame_ok h h (Throw e).
Proof. split; [apply firstn_all | intros nb H; discriminate]. Qed.

Lemma applyStudioEffect_frame (chain : Q -> list (list num) -> list (list num))
    (h : heap) (b : AudioBuffer) (start end_ : Q) :
  wf_buffer h b = true ->
  forall (h' : heap) (r : result AudioBuffer),
  applyStudioEffect chain b start end_ h = (h', r) ->
  frame_ok h h' r.
Proof.
  intros Hwf h' r Hrun. unfold applyStudioEffect in Hrun. rewrite run_bind in Hrun.
  set (so := toSample start (sampleRate b)) in *.
  set (eo := toSample end_ (sampleRate b)) in *.
  destruct (Z.le_gt_cases (eo - so) 0) as [Hle|Hgt].
  { rewrite trimAudioBuffer_fail in Hrun by exact Hle.
    injection Hrun as <- <-. apply frame_ok_throw. }
  rewrite trimAudioBuffer_spec in Hrun by (try exact Hwf; fold so eo; lia).
  fold so eo in Hrun. rewrite run_bind in Hrun.
  unfold startRendering in Hrun. cbv beta iota zeta in Hrun.
  set (h1 := h ++ map (trim_channel so eo) (map (get h) (channelData b))) in *.
  match type of Hrun with context [cloneAudioBuffer b ≫= _] =>
    match type of Hrun with context [(h1 ++ ?R)] => set (h2 := h1 ++ R) in * end
  end.
  assert (Hwf2 : wf_buffer h2 b = true) by (do 2 apply wf_buffer_app; exact Hwf).
  rewrite run_bind, (cloneAudioBuffer_spec h2 b Hwf2) in Hrun.
  set (h3 := h2 ++ map (get h2) (channelData b)) in *.
  rewrite run_bind in Hrun.
  match type of Hrun with context [forM ?ps ?f h3] =>
    pose proof (splice_frame (length h2) so ps) as Hsplice;
    set (loop := forM ps f h3) in *
  end.
  destruct Hsplice with (h := h3) as [Htake Hlen].
  { apply Forall_forall. intros [dst src] Hin. apply elem_of_zip_l in Hin.
    simpl in Hin. apply elem_of_seq in Hin. simpl. lia. }
  fold loop in Htake, Hlen.
  assert (Hgrow : (length h <= length h2)%nat).
  { unfold h2, h1. rewrite !length_app. lia. }
  assert (Hh2 : take (length h) h2 = h).
  { unfold h2, h1. rewrite <- app_assoc. apply take_app_length. }
  assert (Hframe : take (length h) (fst loop) = h).
  { replace (length h) with (length h `min` length h2)%nat at 1 by lia.
    rewrite <- take_take, Htake. unfold h3. rewrite take_app_length. exact Hh2. }
  assert (Hsize : length (fst loop) = (length h2 + numberOfChannels b)%nat).
  { rewrite Hlen. unfold h3. rewrite length_app, length_map. reflexivity. }
  destruct loop as [h4 [[]|e]]; simpl in Hframe, Hsize; injection Hrun as <- <-.
  - split; [exact Hframe|]. intros nb Hnb l Hl.
    assert (E : nb = fresh_buffer h2 (numberOfChannels b) (buf_length b)
                       (sampleRate b)) by congruence.
    rewrite E in Hl. simpl in Hl. apply elem_of_seq in Hl. rewrite Hsize. lia.
  - split; [exact Hframe | intros nb H; discriminate].
Qed.

(** C8.  Whatever the effect, the selection and the outcome, a run on a
    buffer [b] leaves every array that existed before as it was, so the
    samples of [b] are what they were; and a returned buffer consists of
    arrays allocated by the run, none of which is an array of [b]. *)
Theorem effects_leave_source_intact
    (chain : Q -> list (list num) -> list (list num)) (eff : effect)
    (h : heap) (b : AudioBuffer) (start end_ : Q) :
  wf_buffer h b = true ->
  forall (h' : heap) (r : result AudioBuffer),
  apply_effect chain eff b start end_ h = (h', r) ->
  (forall l, (l < length h)%nat -> h' !! l = h !! l) /\
  (forall c, channel h' b c = channel h b c) /\
  (forall nb, r = Ok nb ->
     forall l, l ∈ channelData nb ->
       (length h <= l < length h')%nat /\ l ∉ channelData b).
Proof.
  intros Hwf h' r Hrun.
  assert (Hframe : frame_ok h h' r).
  { destruct eff; simpl in Hrun.
    - destruct (Z.le_gt_cases
                  (toSample end_ (sampleRate b) - toSample start (sampleRate b)) 0)
        as [Hle|Hgt].
      + rewrite trimAudioBuffer_fail in Hrun by exact Hle.
        injection Hrun as <- <-. apply frame_ok_throw.
      + rewrite trimAudioBuffer_spec in Hrun by (try exact Hwf; lia).
        injection Hrun as <- <-. apply frame_ok_fresh.
        rewrite !length_map. reflexivity.
    - rewrite applyFadeIn_spec in Hrun by exact Hwf.
      injection Hrun as <- <-. apply frame_ok_fresh.
      rewrite fadeIn_channels_length, length_map. reflexivity.
    - rewrite applyFadeOut_spec in Hrun by exact Hwf.
      injection Hrun as <- <-. apply frame_ok_fresh.
      rewrite fadeOut_channels_length, length_map. reflexivity.
    - rewrite applyNormalize_spec in Hrun by exact Hwf.
      injection Hrun as <- <-. apply frame_ok_fresh.
      rewrite normalize_channels_length, length_map. reflexivity.
    - rewrite applyNoiseReduction_spec in Hrun by exact Hwf.
      injection Hrun as <- <-. apply frame_ok_fresh.
      rewrite noiseGate_channels_length, length_map. reflexivity.
    - eapply applyStudioEffect_frame; eauto. }
  destruct Hframe as [Htake Hfresh].
  assert (Hsame : forall l, (l < length h)%nat -> h' !! l = h !! l).
  { intros l Hl. apply extends_lookup; assumption. }
  split; [exact Hsame|]. split.
  - intros c. apply channel_extends; assumption.
  - intros nb Hnb l Hl. split; [eapply Hfresh; eauto|].
    intros Hin. pose proof (wf_buffer_alloc h b Hwf) as Ha.
    rewrite Forall_forall in Ha. specialize (Ha l Hin).
    specialize (Hfresh nb Hnb l Hl). lia.
Qed.

(** ** C1: the layout of the encoded file *)

Lemma overwrite_app (bs old post : list Z) :
  length old = length bs -> overwrite (old ++ post) bs = Ok (bs ++ post).
Proof.
  revert old. induction bs as [|x bs IH]; intros [|o old] Hlen; try discriminate.
  - reflexivity.
  - simpl in *. rewrite IH by lia. reflexivity.
Qed.

(** Writing [bs] over the bytes [old] that follow the prefix [pre]. *)
Lemma setBytes_app (pre bs old post : list Z) :
  length old = length bs ->
  setBytes (pre ++ old ++ post) (length pre) bs = Ok (pre ++ bs ++ post).
Proof.
  intros Hlen. induction pre as [|p pre IH]; simpl.
  - apply overwrite_app, Hlen.
  - rewrite IH. reflexivity.
Qed.

Lemma trunc_inject_Z (z : Z) : trunc (inject_Z z) = z.
Proof.
  unfold trunc. destruct (Qle_bool 0 (inject_Z z));
    [apply Qfloor_Z | apply Qceiling_Z].
Qed.

Lemma trunc_comp (x y : Q) : (x == y)%Q -> trunc x = trunc y.
Proof.
  intros E. unfold trunc.
  replace (Qle_bool 0 y) with (Qle_bool 0 x).
  - destruct (Qle_bool 0 x); [apply Qfloor_comp | apply Qceiling_comp]; exact E.
  - destruct (Qle_bool 0 x) eqn:Ex, (Qle_bool 0 y) eqn:Ey; try reflexivity.
    + apply Qle_bool_iff in Ex. rewrite E in Ex. apply Qle_bool_iff in Ex. congruence.
    + apply Qle_bool_iff in Ey. rewrite <- E in Ey. apply Qle_bool_iff in Ey. congruence.
Qed.

Lemma to_integer_of_Z (z : Z) : to_integer (of_Z z) = z.
Proof. apply trunc_inject_Z. Qed.

Lemma interleave_length (channels : list (list num)) (frames : nat) :
  length (interleave channels frames) = (frames * length channels)%nat.
Proof.
  unfold interleave. generalize 0%nat.
  induction frames as [|n IH]; intros k; simpl; [reflexivity|].
  rewrite length_app, length_map, IH. reflexivity.
Qed.

(** The sample loop fills the zeroed data area behind [pre]. *)
Lemma floatTo16BitPCM_spec (input : list num) :
  forall pre : list Z,
  floatTo16BitPCM (pre ++ replicate (2 * length input) 0) (length pre) input
  = Ok (pre ++ flat_map (fun x => uint16_le (to_integer (pcm_value x))) input).
Proof.
  induction input as [|x input IH]; intros pre.
  - simpl. reflexivity.
  - cbn [floatTo16BitPCM]. unfold setInt16.
    replace (replicate (2 * length (x :: input)) 0)
      with ([0; 0] ++ replicate (2 * length input) 0).
    2:{ simpl length. replace (2 * S (length input))%nat
          with (2 + 2 * length input)%nat by lia. reflexivity. }
    rewrite setBytes_app by reflexivity.
    cbn [mbind result_bind].
    replace (length pre + 2)%nat
      with (length (pre ++ uint16_le (to_integer (pcm_value x))))
      by (rewrite length_app; reflexivity).
    rewrite app_assoc, IH. rewrite <- app_assoc. reflexivity.
Qed.

(** The thirteen header writes on a zeroed view. *)
Lemma header_writes {B : Type} (total channels : Z) (rate rate2 : num)
    (rest : list Z) (k : list Z -> result B) :
  to_integer rate2 = to_integer rate * 2 * channels ->
  (view ← writeString (replicate 44 0 ++ rest) 0 "RIFF"%string;
   view ← setUint32 view 4 (of_Z (total - 8));
   view ← writeString view 8 "WAVE"%string;
   view ← writeString view 12 "fmt "%string;
   view ← setUint32 view 16 (of_Z 16);
   view ← setUint16 view 20 (of_Z 1);
   view ← setUint16 view 22 (of_Z channels);
   view ← setUint32 view 24 rate;
   view ← setUint32 view 28 rate2;
   view ← setUint16 view 32 (of_Z (channels * 2));
   view ← setUint16 view 34 (of_Z 16);
   view ← writeString view 36 "data"%string;
   view ← setUint32 view 40 (of_Z (total - Z.of_nat 40 - 4));
   k view)
  = k (wav_header channels (to_integer rate) (total - 44) ++ rest).
Proof.
  intros E. unfold wav_header. rewrite <- E.
  replace (44 + (total - 44) - 8) with (total - 8) by lia.
  replace (total - Z.of_nat 40 - 4) with (total - 44) by lia.
  unfold writeString, setUint32, setUint16, setUint8.
  rewrite !to_integer_of_Z.
  cbn [replicate app writeString_from setBytes overwrite mbind result_bind mret
       result_ret setUint8 uint8_le uint16_le uint32_le charCodes map
       list_ascii_of_string].
  reflexivity.
Qed.

Lemma wav_header_length (channels rate dataLength : Z) :
  length (wav_header channels rate dataLength) = 44%nat.
Proof. reflexivity. Qed.

(** The clamped, scaled and truncated sample, as the code computes it. *)
Lemma pcm_value_pcm16 (x : Q) : to_integer (pcm_value (Fin x)) = pcm16 x.
Proof.
  unfold pcm_value, pcm16, clamp, num_min, num_max, of_Z.
  destruct (Qle_bool (inject_Z 1) x) eqn:E1.
  - change (inject_Z 1) with 1%Q in *. rewrite E1.
    destruct (Qle_bool x (-1)) eqn:E2.
    + apply Qle_bool_iff in E1, E2. lra.
    + reflexivity.
  - change (inject_Z 1) with 1%Q in *. rewrite E1.
    destruct (Qle_bool (inject_Z (-1)) x) eqn:E3;
      change (inject_Z (-1)) with (-1)%Q in *.
    + destruct (Qle_bool x (-1)) eqn:E2.
      * apply Qle_bool_iff in E2, E3.
        assert (Hx : (x == -1)%Q) by lra.
        unfold num_ltb, zero, num_mul, to_integer.
        destruct (Qle_bool 0 x) eqn:E0; [apply Qle_bool_iff in E0; lra|].
        simpl negb. cbv iota. change (Qle_bool 0 (-1)) with false. cbv iota.
        apply trunc_comp. rewrite Hx. reflexivity.
      * unfold num_ltb, zero, num_mul, to_integer.
        destruct (Qle_bool 0 x); reflexivity.
    + destruct (Qle_bool x (-1)) eqn:E2.
      * reflexivity.
      * exfalso. destruct (Qlt_le_dec x (-1)) as [Hlt|Hge].
        -- apply Qlt_le_weak, Qle_bool_iff in Hlt. congruence.
        -- apply Qle_bool_iff in Hge. congruence.
Qed.

Lemma clamp_range (x : Q) : (-1 <= clamp x <= 1)%Q.
Proof.
  unfold clamp. destruct (Qle_bool x (-1)) eqn:E1; [lra|].
  destruct (Qle_bool 1 x) eqn:E2; [lra|].
  split.
  - destruct (Qlt_le_dec x (-1)) as [Hlt|Hge]; [|exact Hge].
    apply Qlt_le_weak, Qle_bool_iff in Hlt. congruence.
  - destruct (Qlt_le_dec 1 x) as [Hlt|Hge]; [|exact Hge].
    apply Qlt_le_weak, Qle_bool_iff in Hlt. congruence.
Qed.

(** The converted sample fits a signed 16-bit integer. *)
Lemma pcm16_range (x : Q) : -32768 <= pcm16 x <= 32767.
Proof.
  unfold pcm16, trunc. pose proof (clamp_range x) as [Hlo Hhi].
  destruct (Qle_bool 0 (clamp x)) eqn:E.
  - apply Qle_bool_iff in E.
    assert (H0 : (0 <= clamp x * 32767)%Q) by lra.
    apply Qle_bool_iff in H0. rewrite H0. split.
    + apply Z.le_trans with 0; [lia|]. change 0 with (Qfloor 0).
      apply Qfloor_resp_le. apply Qle_bool_iff, H0.
    + change 32767 with (Qfloor 32767%Q) at 2. apply Qfloor_resp_le. lra.
  - assert (Hneg : (clamp x < 0)%Q).
    { destruct (Qlt_le_dec (clamp x) 0) as [Hlt|Hge]; [exact Hlt|].
      apply Qle_bool_iff in Hge. congruence. }
    destruct (Qle_bool 0 (clamp x * 32768)) eqn:E2.
    { apply Qle_bool_iff in E2. lra. }
    split.
    + change (-32768) with (Qceiling (-32768)%Q) at 1. apply Qceiling_resp_le. lra.
    + apply Z.le_trans with 0; [|lia]. change 0 with (Qceiling 0).
      apply Qceiling_resp_le. lra.
Qed.

Lemma uint16_le_value (v : Z) : le_value (uint16_le v) = v mod 65536.
Proof.
  unfold uint16_le. cbn [le_value]. change 65536 with (256 * 256).
  rewrite Z.rem_mul_r by lia. lia.
Qed.

Lemma uint32_le_value (v : Z) : le_value (uint32_le v) = v mod 4294967296.
Proof.
  unfold uint32_le. cbn [le_value].
  change 4294967296 with (256 * (256 * (256 * 256))).
  rewrite !Z.rem_mul_r by lia. rewrite !Z.div_div by lia.
  change (256 * 256) with 65536. change (65536 * 256) with 16777216. lia.
Qed.

Lemma flat_map_chunk {A : Type} (f : A -> list Z) (n : nat) (l : list A) :
  (forall y, length (f y) = n) ->
  forall (k : nat) (x : A), l !! k = Some x ->
  take n (drop (k * n) (flat_map f l)) = f x.
Proof.
  intros Hn. induction l as [|y l IH]; intros k x Hk; [discriminate|].
  destruct k as [|k]; cbn [flat_map]; simpl in Hk.
  - injection Hk as ->. change (0 * n)%nat with 0%nat. rewrite drop_0.
    rewrite take_app_length' by (symmetry; apply Hn). reflexivity.
  - replace (S k * n)%nat with (n + k * n)%nat by lia.
    rewrite drop_app_ge by (rewrite Hn; lia). rewrite Hn.
    replace (n + k * n - n)%nat with (k * n)%nat by lia. apply IH, Hk.
Qed.

Lemma interleave_lookup (channels : list (list num)) (frames i c : nat)
    (a : list num) :
  (i < frames)%nat -> channels !! c = Some a ->
  interleave channels frames !! (i * length channels + c)%nat
  = Some (index a (Z.of_nat i)).
Proof.
  intros Hi Hc. unfold interleave.
  assert (Hgen : forall n s i, (i < n)%nat ->
            flat_map (fun i => map (fun ch => index ch (Z.of_nat i)) channels)
                     (seq s n) !! (i * length channels + c)%nat
            = Some (index a (Z.of_nat (s + i)))).
  { clear i Hi. induction n as [|n IH]; intros s i Hi; [lia|].
    cbn [seq flat_map]. destruct i as [|i].
    - replace (0 * length channels + c)%nat with c by lia.
      rewrite lookup_app_l by (rewrite length_map; eapply lookup_lt_Some; eauto).
      rewrite list_lookup_fmap, Hc. simpl. rewrite Nat.add_0_r. reflexivity.
    - rewrite lookup_app_r by (rewrite length_map; lia).
      rewrite length_map.
      replace (S i * length channels + c - length channels)%nat
        with (i * length channels + c)%nat by lia.
      rewrite IH by lia. do 3 f_equal. lia. }
  rewrite Hgen by exact Hi. reflexivity.
Qed.

(** C1.  For a buffer whose sample rate is the integer [rate],
    [audioBufferToWavBlob] returns exactly [44 + frames*channels*2] bytes: the
    header fields of the RIFF/WAVE table at their offsets, each integer in
    little-endian order, then, for frame [i] and channel [c], at offset
    [44 + 2*(i*channels + c)] the 16-bit little-endian value of the sample
    clamped to [-1, 1], scaled by 32768 if negative and by 32767 otherwise,
    and truncated.  A mono buffer of two frames at 44100 Hz gives 48 bytes,
    with bytes 22 and 23 equal to 1 and 0 and the data length field equal
    to 4. *)
Theorem audioBufferToWavBlob_layout (h : heap) (b : AudioBuffer) (rate : Z) :
  (sampleRate b == inject_Z rate)%Q ->
  let channels := Z.of_nat (numberOfChannels b) in
  let dataLength := Z.of_nat (buf_length b) * channels * 2 in
  exists bytes : list Z,
    audioBufferToWavBlob h b = Ok bytes /\
    Z.of_nat (length bytes) = 44 + dataLength /\
    slice 0 4 bytes = charCodes "RIFF"%string /\
    slice 4 4 bytes = uint32_le (44 + dataLength - 8) /\
    slice 8 4 bytes = charCodes "WAVE"%string /\
    slice 12 4 bytes = charCodes "fmt "%string /\
    slice 16 4 bytes = uint32_le 16 /\
    slice 20 2 bytes = uint16_le 1 /\
    slice 22 2 bytes = uint16_le channels /\
    slice 24 4 bytes = uint32_le rate /\
    slice 28 4 bytes = uint32_le (rate * 2 * channels) /\
    slice 32 2 bytes = uint16_le (channels * 2) /\
    slice 34 2 bytes = uint16_le 16 /\
    slice 36 4 bytes = charCodes "data"%string /\
    slice 40 4 bytes = uint32_le dataLength /\
    (forall v, le_value (uint16_le v) = v mod 2 ^ 16) /\
    (forall v, le_value (uint32_le v) = v mod 2 ^ 32) /\
    (forall (i c : nat) (a : list num),
       (i < buf_length b)%nat -> channel h b c = Some a ->
       slice (44 + 2 * (i * numberOfChannels b + c)) 2 bytes =
       uint16_le (to_integer (pcm_value (index a (Z.of_nat i))))) /\
    (forall x : Q,
       to_integer (pcm_value (Fin x)) = pcm16 x /\ -32768 <= pcm16 x <= 32767) /\
    (numberOfChannels b = 1%nat -> buf_length b = 2%nat -> rate = 44100 ->
     length bytes = 48%nat /\ bytes !! 22%nat = Some 1 /\ bytes !! 23%nat = Some 0 /\
     slice 40 4 bytes = [4; 0; 0; 0]).
Proof.
  intros Hrate channels dataLength.
  set (interleaved := interleave (map (get h) (channelData b)) (buf_length b)).
  set (data := flat_map (fun x => uint16_le (to_integer (pcm_value x))) interleaved).
  assert (Hil : length interleaved = (buf_length b * numberOfChannels b)%nat).
  { unfold interleaved. rewrite interleave_length, length_map. reflexivity. }
  assert (Hrun : audioBufferToWavBlob h b =
                 Ok (wav_header channels rate dataLength ++ data)).
  { unfold audioBufferToWavBlob. cbv zeta. cbn [Nat.add].
    fold channels. fold interleaved.
    replace (Z.to_nat (Z.of_nat (buf_length b) * channels * 2 + 44))
      with (44 + 2 * length interleaved)%nat by (rewrite Hil; unfold channels; lia).
    rewrite replicate_add.
    rewrite (header_writes (Z.of_nat (buf_length b) * channels * 2 + 44) channels
               (Fin (sampleRate b))
               (num_mul (num_mul (Fin (sampleRate b)) (of_Z 2)) (of_Z channels))).
    - replace (Z.of_nat (buf_length b) * channels * 2 + 44 - 44) with dataLength
        by (unfold dataLength; lia).
      replace (to_integer (Fin (sampleRate b))) with rate.
      2:{ simpl. rewrite (trunc_comp _ _ Hrate). symmetry. apply trunc_inject_Z. }
      pose proof (floatTo16BitPCM_spec interleaved
                    (wav_header channels rate dataLength)) as Hpcm.
      rewrite wav_header_length in Hpcm. exact Hpcm.
    - simpl. rewrite (trunc_comp (sampleRate b) (inject_Z rate) Hrate).
      rewrite (trunc_comp (sampleRate b * inject_Z 2 * inject_Z channels)
                 (inject_Z (rate * 2 * channels))).
      + rewrite !trunc_inject_Z. reflexivity.
      + rewrite Hrate, !inject_Z_mult. reflexivity. }
  exists (wav_header channels rate dataLength ++ data).
  split; [exact Hrun|].
  assert (Hdata : length data = (2 * length interleaved)%nat).
  { unfold data. clear. induction interleaved as [|x l IH]; simpl; lia. }
  assert (Hlen : Z.of_nat (length (wav_header channels rate dataLength ++ data))
                 = 44 + dataLength).
  { rewrite length_app, wav_header_length, Hdata, Hil.
    unfold dataLength, channels. lia. }
  split; [exact Hlen|].
  do 13 (split; [reflexivity|]).
  split; [apply uint16_le_value|]. split; [apply uint32_le_value|].
  split.
  { intros i c a Hi Hc. unfold slice.
    rewrite drop_app_ge by (rewrite wav_header_length; lia).
    rewrite wav_header_length.
    replace (44 + 2 * (i * numberOfChannels b + c) - 44)%nat
      with ((i * numberOfChannels b + c) * 2)%nat by lia.
    unfold data.
    apply (flat_map_chunk (fun x => uint16_le (to_integer (pcm_value x)))).
    - reflexivity.
    - unfold interleaved.
      pose proof (interleave_lookup (map (get h) (channelData b)) (buf_length b)
                    i c a Hi (channel_get _ _ _ _ Hc)) as Hl.
      rewrite length_map in Hl. exact Hl. }
  split; [intros x; split; [apply pcm_value_pcm16 | apply pcm16_range]|].
  intros Hch Hfr ->.
  assert (Hd : dataLength = 4) by (unfold dataLength, channels; rewrite Hch, Hfr; lia).
  split; [lia|].
  unfold channels. rewrite Hch, Hd. repeat split; reflexivity.
Qed.

(** ** C5: the edit history *)

Lemma array_slice_prefix {A : Type} (l : list A) (e : Z) :
  0 <= e <= Z.of_nat (length l) -> array_slice l 0 e = take (Z.to_nat e) l.
Proof.
  intros He. unfold array_slice, relative_index.
  destruct (Z.ltb_spec 0 0); [lia|]. destruct (Z.ltb_spec e 0); [lia|].
  rewrite Z.min_l by lia. rewrite Z.min_l by lia. rewrite Z.sub_0_r.
  rewrite Z.max_l by lia. reflexivity.
Qed.

(** C5.  A commit keeps the entries up to the current index, appends the new
    buffer and makes it current, the index being the last position.  From the
    empty history, committing [A], committing [B] and undoing leaves [A]
    current; committing [C] then drops [B], and a redo after that changes
    nothing.  An undo at index [<= 0] and a redo at index [>= length - 1]
    return the state they were given. *)
Theorem history_commit_undo_redo (A B C : AudioBuffer) (st : Editor)
    (newBuffer : AudioBuffer) :
  (-1 <= historyIndex st < Z.of_nat (length (history st)) ->
   history (updateHistory st newBuffer) =
     take (Z.to_nat (historyIndex st + 1)) (history st) ++ [newBuffer] /\
   historyIndex (updateHistory st newBuffer) = historyIndex st + 1) /\
  historyIndex (updateHistory st newBuffer) =
    Z.of_nat (length (history (updateHistory st newBuffer))) - 1 /\
  audioBuffer (updateHistory st newBuffer) = Some newBuffer /\
  (let st2 := handleUndo (updateHistory (updateHistory emptyEditor A) B) in
   audioBuffer st2 = Some A /\ historyIndex st2 = 0 /\ history st2 = [A; B] /\
   let st3 := updateHistory st2 C in
   history st3 = [A; C] /\ historyIndex st3 = 1 /\ audioBuffer st3 = Some C /\
   handleRedo st3 = st3) /\
  (historyIndex st <= 0 -> handleUndo st = st) /\
  (Z.of_nat (length (history st)) - 1 <= historyIndex st -> handleRedo st = st).
Proof.
  split; [|split; [reflexivity|split; [reflexivity|split]]].
  - intros Hinv. unfold updateHistory. cbn [history historyIndex].
    rewrite array_slice_prefix by lia. split; [reflexivity|].
    rewrite length_app, length_take. simpl length. lia.
  - cbv zeta. repeat split; reflexivity.
  - split.
    + intros H. unfold handleUndo. destruct (Z.ltb_spec 0 (historyIndex st));
        [lia | reflexivity].
    + intros H. unfold handleRedo.
      destruct (Z.ltb_spec (historyIndex st) (Z.of_nat (length (history st)) - 1));
        [lia | reflexivity].
Qed.

(** ** C6: multi-track scheduling *)

Lemma schedule_fold (currentTime P : Q) (tracks : list Track) :
  forall nodes : list SourceStart,
  fold_left
    (fun nodes track =>
       match schedule_track currentTime P track with
       | Some source => nodes ++ [source]
       | None => nodes
       end) tracks nodes
  = nodes ++ omap (schedule_track currentTime P) tracks.
Proof.
  induction tracks as [|t tracks IH]; intros nodes; simpl.
  - symmetry. apply app_nil_r.
  - rewrite IH. destruct (schedule_track currentTime P t); [|reflexivity].
    rewrite <- app_assoc. reflexivity.
Qed.

Lemma startPlayback_nodes (st : Transport) (currentTime P : Q) (tracks : list Track) :
  studioSourceNodes (startPlayback st currentTime tracks P)
  = omap (schedule_track currentTime P) tracks.
Proof.
  unfold startPlayback. destruct tracks as [|t tracks]; [reflexivity|].
  cbn [length Nat.eqb studioSourceNodes stopAllAudio]. apply schedule_fold.
Qed.

Lemma Qle_bool_false (x y : Q) : Qle_bool x y = false <-> (y < x)%Q.
Proof.
  split.
  - intros H. destruct (Qlt_le_dec y x) as [Hlt|Hge]; [exact Hlt|].
    apply Qle_bool_iff in Hge. congruence.
  - intros H. destruct (Qle_bool x y) eqn:E; [|reflexivity].
    apply Qle_bool_iff in E. lra.
Qed.

(** C6.  At start position [P] a track gets a source if and only if it is
    not muted and [startTime + duration > P].  The source of a track with
    [startTime >= P] is started [startTime - P] after the current time, from
    offset 0 of its buffer; the source of a track with [startTime < P] is
    started at once, from offset [P - startTime].  With track A (start 0,
    5 seconds) and track B (start 3, 4 seconds) and [P = 4], A plays at once
    from offset 4 and B at once from offset 1. *)
Theorem startPlayback_schedule (st : Transport) (currentTime P : Q)
    (tracks : list Track) :
  (0 <= currentTime)%Q ->
  let nodes := studioSourceNodes (startPlayback st currentTime tracks P) in
  (forall track, track ∈ tracks ->
     ((exists s, s ∈ nodes /\ source_track s = track) <->
      isMuted track = false /\ (P < startTime track + duration (buffer track))%Q)) /\
  (forall s, s ∈ nodes ->
     source_track s ∈ tracks /\ gain_value s = volume (source_track s) /\
     ((P <= startTime (source_track s))%Q ->
      (start_delay currentTime (when s) == startTime (source_track s) - P)%Q /\
      offset s = 0%Q) /\
     ((startTime (source_track s) < P)%Q ->
      start_delay currentTime (when s) = 0%Q /\
      offset s = (P - startTime (source_track s))%Q)) /\
  (let nodes4 :=
     studioSourceNodes (startPlayback st currentTime [trackA; trackB] 4) in
   nodes4 = [mkSourceStart trackA 1 0 4; mkSourceStart trackB 1 0 1] /\
   Forall (fun s => start_delay currentTime (when s) = 0%Q) nodes4).
Proof.
  intros Hnow nodes. unfold nodes. rewrite !startPlayback_nodes.
  split; [|split].
  - intros track Hin. split.
    + intros (s & Hs & <-). apply list_elem_of_omap in Hs.
      destruct Hs as (t & Ht & Hsched). unfold schedule_track in Hsched.
      destruct (isMuted t) eqn:Em; [discriminate|].
      destruct (Qle_bool (startTime t + duration (buffer t)) P) eqn:Ee;
        [discriminate|].
      apply Qle_bool_false in Ee.
      destruct (Qle_bool P (startTime t)); injection Hsched as <-; simpl; auto.
    + intros [Hm He]. apply Qle_bool_false in He.
      destruct (schedule_track currentTime P track) as [s|] eqn:Es.
      * exists s. split.
        -- apply list_elem_of_omap. eauto.
        -- unfold schedule_track in Es. rewrite Hm, He in Es.
           destruct (Qle_bool P (startTime track)); injection Es as <-; reflexivity.
      * unfold schedule_track in Es. rewrite Hm, He in Es.
        destruct (Qle_bool P (startTime track)); discriminate.
  - intros s Hs. apply list_elem_of_omap in Hs.
    destruct Hs as (t & Ht & Hsched). unfold schedule_track in Hsched.
    destruct (isMuted t); [discriminate|].
    destruct (Qle_bool (startTime t + duration (buffer t)) P); [discriminate|].
    destruct (Qle_bool P (startTime t)) eqn:Ep; injection Hsched as <-;
      cbn [source_track gain_value when offset].
    + apply Qle_bool_iff in Ep.
      split; [exact Ht|]. split; [reflexivity|]. split; [|intros Hlt; lra].
      intros _. split; [|reflexivity]. unfold start_delay.
      destruct (Qle_bool (currentTime + (startTime t - P)) currentTime) eqn:E.
      * apply Qle_bool_iff in E. lra.
      * ring.
    + apply Qle_bool_false in Ep.
      split; [exact Ht|]. split; [reflexivity|]. split; [intros Hle; lra|].
      intros _. split; [|reflexivity]. unfold start_delay.
      apply Qle_bool_iff in Hnow. rewrite Hnow. reflexivity.
  - cbv zeta. split; [reflexivity|].
    assert (Hd : start_delay currentTime 0 = 0%Q).
    { unfold start_delay. apply Qle_bool_iff in Hnow. rewrite Hnow. reflexivity. }
    repeat constructor; exact Hd.
Qed.

(** ** C9: peak downsampling *)

Lemma push_loop {A : Type} (g : Z -> A) (e : Z) :
  forall (n : nat) (s : Z) (acc : list A),
  Z.to_nat (e - s) = n ->
  for_range s e (fun i acc => acc ++ [g i]) acc = acc ++ map g (seqZ s (e - s)).
Proof.
  induction n as [|n IH]; intros s acc Hn.
  - rewrite for_range_nil by lia. rewrite seqZ_nil by lia. symmetry. apply app_nil_r.
  - rewrite for_range_step by lia. rewrite IH by lia.
    rewrite (seqZ_cons s) by lia. simpl.
    replace (Z.succ s) with (s + 1) by lia.
    replace (Z.pred (e - s)) with (e - (s + 1)) by lia.
    rewrite <- app_assoc. reflexivity.
Qed.

(** Summing [|rawData[start + j]|] for [j] in [s, e) is folding over the
    frames [start + s, start + e), provided they exist. *)
Lemma sum_loop (rawData : list num) (start e : Z) :
  forall (n : nat) (s : Z) (acc : num),
  Z.to_nat (e - s) = n -> s <= e ->
  0 <= start + s -> start + e <= Z.of_nat (length rawData) ->
  for_range s e (fun j sum => num_add sum (num_abs (index rawData (start + j)))) acc
  = fold_left (fun sum x => num_add sum (num_abs x))
      (take (Z.to_nat (e - s)) (drop (Z.to_nat (start + s)) rawData)) acc.
Proof.
  induction n as [|n IH]; intros s acc Hn Hse Hlo Hhi.
  - rewrite for_range_nil by lia. replace (Z.to_nat (e - s)) with 0%nat by lia.
    reflexivity.
  - rewrite for_range_step by lia. rewrite IH by lia.
    destruct (index_in_range rawData (start + s) ltac:(lia)) as (x & Hx & ->).
    replace (Z.to_nat (e - s)) with (S (Z.to_nat (e - (s + 1)))) by lia.
    rewrite (drop_S _ _ _ Hx). cbn [take fold_left].
    replace (S (Z.to_nat (start + s))) with (Z.to_nat (start + (s + 1))) by lia.
    reflexivity.
Qed.

(** C9.  With [bucketCount = floor(width) >= 1] the result has exactly
    [bucketCount] values, and value [i] is the mean of [|sample|] over the
    [blockSize = floor(frames / bucketCount)] consecutive channel-0 frames that
    start at frame [i * blockSize], all of which exist. *)
Theorem downsampledData_mean (rawData : list num) (width : Q) :
  let bucketCount := Qfloor width in
  let blockSize := Z.of_nat (length rawData) / bucketCount in
  1 <= bucketCount ->
  Z.of_nat (length (downsampledData rawData width)) = bucketCount /\
  forall i : Z, 0 <= i < bucketCount ->
    length (bucket_block rawData blockSize i) = Z.to_nat blockSize /\
    (i + 1) * blockSize <= Z.of_nat (length rawData) /\
    downsampledData rawData width !! Z.to_nat i
    = Some (mean_abs (bucket_block rawData blockSize i)).
Proof.
  intros bucketCount blockSize Hn.
  assert (Hbs : 0 <= blockSize) by (apply Z.div_pos; lia).
  assert (Hfit : bucketCount * blockSize <= Z.of_nat (length rawData)).
  { unfold blockSize. apply Z.mul_div_le. lia. }
  unfold downsampledData. fold bucketCount. fold blockSize. cbv zeta.
  rewrite (push_loop _ bucketCount (Z.to_nat (bucketCount - 0)) 0 []) by reflexivity.
  rewrite app_nil_l, Z.sub_0_r.
  split; [rewrite length_map, length_seqZ; lia|].
  intros i Hi.
  assert (Hend : (i + 1) * blockSize <= Z.of_nat (length rawData)) by nia.
  assert (Hlen : length (bucket_block rawData blockSize i) = Z.to_nat blockSize).
  { unfold bucket_block. rewrite length_take, length_drop. nia. }
  split; [exact Hlen|]. split; [exact Hend|].
  rewrite list_lookup_fmap, lookup_seqZ_lt by lia. simpl. f_equal.
  rewrite Z2Nat.id by lia.
  unfold mean_abs. rewrite Hlen, Z2Nat.id by lia. f_equal.
  rewrite (sum_loop rawData (blockSize * i) blockSize (Z.to_nat (blockSize - 0)) 0)
    by (try reflexivity; nia).
  unfold sum_abs, bucket_block. rewrite Z.sub_0_r, Z.add_0_r.
  rewrite (Z.mul_comm i blockSize). reflexivity.
Qed.

(** ** C7: mixdown *)

Lemma total_duration_fold (tracks : list Track) :
  forall t0 : Q,
  let m := fold_left
             (fun totalDuration track =>
                if Qle_bool (track_end track) totalDuration
                then totalDuration else track_end track) tracks t0 in
  (t0 <= m)%Q /\
  (forall t, t ∈ tracks -> (track_end t <= m)%Q) /\
  (m = t0 \/ exists t, t ∈ tracks /\ m = track_end t).
Proof.
  induction tracks as [|t tracks IH]; intros t0; cbn [fold_left].
  - split; [apply Qle_refl|]. split; [|left; reflexivity].
    intros t Ht. apply elem_of_nil in Ht. contradiction.
  - destruct (Qle_bool (track_end t) t0) eqn:E.
    + apply Qle_bool_iff in E. destruct (IH t0) as (Hle & Hub & Hatt).
      split; [exact Hle|]. split.
      * intros t' Ht'. apply elem_of_cons in Ht'. destruct Ht' as [->|Ht'].
        -- eapply Qle_trans; eauto.
        -- apply Hub, Ht'.
      * destruct Hatt as [Hm|(t' & Ht' & Hm)]; [left; exact Hm|].
        right. exists t'. split; [right; exact Ht' | exact Hm].
    + apply Qle_bool_false in E. destruct (IH (track_end t)) as (Hle & Hub & Hatt).
      split; [lra|]. split.
      * intros t' Ht'. apply elem_of_cons in Ht'. destruct Ht' as [->|Ht'].
        -- exact Hle.
        -- apply Hub, Ht'.
      * right. destruct Hatt as [Hm|(t' & Ht' & Hm)].
        -- exists t. split; [left | exact Hm].
        -- exists t'. split; [right; exact Ht' | exact Hm].
Qed.

Lemma sources_fold (tracks : list Track) :
  forall sources : list SourceStart,
  fold_left
    (fun sources track =>
       if isMuted track then sources
       else sources ++ [mkSourceStart track (volume track) (startTime track) 0])
    tracks sources
  = sources ++
    omap (fun track =>
            if isMuted track then None
            else Some (mkSourceStart track (volume track) (startTime track) 0))
         tracks.
Proof.
  induction tracks as [|t tracks IH]; intros sources; simpl.
  - symmetry. apply app_nil_r.
  - rewrite IH. destruct (isMuted t); [reflexivity|].
    rewrite <- app_assoc. reflexivity.
Qed.

Lemma mix_source_length (rate : Q) (src : list num) (gain start : Q) (out : list num) :
  length (mix_source rate src gain start out) = length out.
Proof. apply update_region_length. Qed.

(** Sample [k] of a channel after all non-muted tracks have been mixed in. *)
Lemma mix_tracks_index (h : heap) (rate : Q) (c : nat) (k : Z) (tracks : list Track) :
  forall out : list num,
  0 <= k < Z.of_nat (length out) ->
  let mixed :=
    fold_left
      (fun out s =>
         mix_source rate
           (source_channel (map (get h) (channelData (buffer (source_track s)))) c)
           (gain_value s) (when s) out)
      (omap (fun track =>
               if isMuted track then None
               else Some (mkSourceStart track (volume track) (startTime track) 0))
            tracks)
      out in
  length mixed = length out /\
  index mixed k = fold_left (mix_at h rate c k) tracks (index out k).
Proof.
  induction tracks as [|t tracks IH]; intros out Hk; cbn [omap list_omap fold_left].
  - auto.
  - unfold mix_at at 2. destruct (isMuted t) eqn:Em.
    + apply IH, Hk.
    + cbn [fold_left source_track gain_value when buffer].
      destruct (IH (mix_source rate
                      (source_channel (map (get h) (channelData (buffer t))) c)
                      (volume t) (startTime t) out)) as [Hlen Hix].
      { rewrite mix_source_length. exact Hk. }
      rewrite mix_source_length in Hlen. split; [exact Hlen|].
      rewrite Hix. f_equal. unfold mix_source.
      rewrite index_update_region by exact Hk. reflexivity.
Qed.

Lemma total_duration_spec (tracks : list Track) :
  (0 <= total_duration tracks)%Q /\
  (forall t, t ∈ tracks -> (track_end t <= total_duration tracks)%Q) /\
  (total_duration tracks = 0%Q \/
   exists t, t ∈ tracks /\ total_duration tracks = track_end t).
Proof. apply (total_duration_fold tracks 0%Q). Qed.

(** C7.  [renderMix] fails with the no-tracks error exactly when there is no
    track.  Otherwise it returns a new two-channel buffer of
    [ceil((latest + 0.5) * rate)] frames, [latest] being the latest track end;
    sample [k] of output channel [c] is the result of going through the
    tracks from silence, a muted track leaving the sample as it is and any
    other adding its sample times its volume from the frame offset of its
    start time on. *)
Theorem renderMix_mixdown (h : heap) (tracks : list Track) (rate : Q) :
  ((exists h', renderMix tracks rate h = (h', Throw NoTracksToRender))
   <-> tracks = []) /\
  (tracks <> [] ->
   exists (h' : heap) (nb : AudioBuffer),
     renderMix tracks rate h = (h', Ok nb) /\
     numberOfChannels nb = 2%nat /\
     buf_length nb = Z.to_nat (Qceiling ((total_duration tracks + (1 # 2)) * rate)) /\
     (forall t, t ∈ tracks -> (track_end t <= total_duration tracks)%Q) /\
     (Forall (fun t => (0 <= track_end t)%Q) tracks ->
      exists t, t ∈ tracks /\ (total_duration tracks == track_end t)%Q) /\
     ((0 < rate)%Q ->
      Z.of_nat (buf_length nb)
      = Qceiling ((total_duration tracks + (1 # 2)) * rate)) /\
     (forall l, (l < length h)%nat -> h' !! l = h !! l) /\
     (forall c, (c < 2)%nat ->
        exists out, channel h' nb c = Some out /\
          length out = buf_length nb /\
          forall k, 0 <= k < Z.of_nat (buf_length nb) ->
            index out k = fold_left (mix_at h rate c k) tracks zero) /\
     (forall c k acc track, isMuted track = true ->
        mix_at h rate c k acc track = acc)).
Proof.
  split.
  - split.
    + intros [h' Hrun]. destruct tracks as [|t tracks]; [reflexivity|].
      unfold renderMix in Hrun. cbn [length Nat.eqb] in Hrun.
      unfold offline_mix in Hrun. discriminate.
    + intros ->. exists h. reflexivity.
  - intros Hne. destruct (total_duration_spec tracks) as (Hpos & Hub & Hatt).
    set (frames := Z.to_nat (Qceiling ((total_duration tracks + (1 # 2)) * rate))).
    assert (Hrun : renderMix tracks rate h =
              offline_mix 2 frames rate
                (omap (fun track =>
                         if isMuted track then None
                         else Some (mkSourceStart track (volume track)
                                      (startTime track) 0)) tracks) h).
    { unfold renderMix. destruct tracks as [|t tracks]; [contradiction|].
      cbn [length Nat.eqb]. cbv zeta. rewrite sources_fold. reflexivity. }
    unfold offline_mix in Hrun.
    eexists _, _. split; [exact Hrun|].
    split; [reflexivity|]. split; [reflexivity|]. split; [exact Hub|].
    split.
    { intros Hnn. destruct Hatt as [H0|(t & Ht & Hm)].
      - destruct tracks as [|t tracks]; [contradiction|].
        exists t. split; [left|].
        pose proof (Hub t ltac:(left)) as H1. rewrite H0 in *.
        apply Forall_cons in Hnn. destruct Hnn as [H2 _]. lra.
      - exists t. split; [exact Ht|]. rewrite Hm. reflexivity. }
    split.
    { intros Hrate. cbn [buf_length]. unfold frames. apply Z2Nat.id.
      change 0 with (Qceiling 0). apply Qceiling_resp_le.
      apply Qmult_le_0_compat; lra. }
    split; [intros l Hl; apply lookup_app_l, Hl|].
    split.
    + intros c Hc.
      match goal with |- context [h ++ map ?out (seq 0 2)] =>
        pose proof (channel_fresh h (map out (seq 0 2)) frames rate c) as Hfresh
      end.
      unfold fresh_buffer in Hfresh. cbn [length map seq] in Hfresh.
      cbn [map seq]. rewrite Hfresh.
      assert (Hmix : forall c' k, 0 <= k < Z.of_nat frames ->
                let mixed :=
                  fold_left
                    (fun out s =>
                       mix_source rate
                         (source_channel
                            (map (get h) (channelData (buffer (source_track s)))) c')
                         (gain_value s) (when s) out)
                    (omap (fun track =>
                             if isMuted track then None
                             else Some (mkSourceStart track (volume track)
                                          (startTime track) 0)) tracks)
                    (replicate frames zero) in
                length mixed = frames /\
                index mixed k = fold_left (mix_at h rate c' k) tracks zero).
      { intros c' k Hk.
        destruct (mix_tracks_index h rate c' k tracks (replicate frames zero))
          as [Hlen Hix]; [rewrite length_replicate; exact Hk|].
        rewrite length_replicate in Hlen. split; [exact Hlen|].
        rewrite Hix. f_equal. unfold index.
        destruct (Z.ltb_spec k 0); [lia|].
        rewrite lookup_replicate_2 by lia. reflexivity. }
      assert (Hlen : forall c',
                length
                  (fold_left
                     (fun out s =>
                        mix_source rate
                          (source_channel
                             (map (get h) (channelData (buffer (source_track s)))) c')
                          (gain_value s) (when s) out)
                     (omap (fun track =>
                              if isMuted track then None
                              else Some (mkSourceStart track (volume track)
                                           (startTime track) 0)) tracks)
                     (replicate frames zero)) = frames).
      { intros c'. clear. generalize (length_replicate frames zero).
        generalize (replicate frames zero).
        induction (omap _ tracks) as [|s l IH]; intros out Hout; [exact Hout|].
        cbn [fold_left]. apply IH. rewrite mix_source_length. exact Hout. }
      destruct c as [|[|c]]; [| |lia]; cbn [lookup list_lookup];
        (eexists; split; [reflexivity|]; split; [apply Hlen|]);
        intros k Hk; apply Hmix; exact Hk.
    + intros c k acc track Hm. unfold mix_at. rewrite Hm. reflexivity.
Qed.

(** ** Worked instances *)

(** Fading in the whole second: the first frame is silenced, the last one is
    scaled by 3/4. *)
Lemma applyFadeIn_ramp_witness :
  wf_buffer four_ones one_second = true /\
  exists (h' : heap) (nb : AudioBuffer) (a' : list num),
    applyFadeIn one_second 0 1 1 four_ones = (h', Ok nb) /\
    channel h' nb 0 = Some a' /\
    num_eqv (index a' 0) zero /\
    index a' 3 = num_mul (Fin 1) (Fin (inject_Z 3 / inject_Z 4)).
Proof.
  split; [reflexivity|].
  pose proof (applyFadeIn_ramp four_ones one_second 0 1 1 eq_refl) as H.
  cbv zeta in H. destruct H as (h' & nb & Hrun & _ & _ & _ & _ & Hramp).
  destruct (Hramp eq_refl 0%nat [Fin 1; Fin 1; Fin 1; Fin 1] eq_refl)
    as (a' & Hch & _ & _ & Hstart & Hend).
  exists h', nb, a'. split; [exact Hrun|]. split; [exact Hch|]. split.
  - apply (Hstart 1%Q); [vm_compute; split; [discriminate | reflexivity]|].
    reflexivity.
  - apply Hend. vm_compute. split; [discriminate | reflexivity].
Defined.

(** Normalising the first frame only: it reaches 1, and the second frame,
    outside the region, keeps its value 2. *)
Lemma applyNormalize_peak_witness :
  wf_buffer quiet_loud quiet_loud_buffer = true /\
  region_finite quiet_loud quiet_loud_buffer 0 1 = true /\
  exists (h' : heap) (nb : AudioBuffer) (a' : list num),
    applyNormalize quiet_loud_buffer 0 1 quiet_loud = (h', Ok nb) /\
    channel h' nb 0 = Some a' /\
    index a' 1 = Fin 2.
Proof.
  split; [reflexivity|]. split; [reflexivity|].
  pose proof (applyNormalize_peak quiet_loud quiet_loud_buffer 0 1 eq_refl) as H.
  cbv zeta in H.
  destruct (H eq_refl)
    as (h' & nb & peak & Hrun & _ & _ & _ & _ & Hub & _ & _ & Hscale & _).
  assert (Hnz : ~ (peak == 0)%Q).
  { destruct (Hub 0%nat [Fin (1 # 2); Fin 2] 0 eq_refl) as (x & Hx & Hle).
    - vm_compute. split; [discriminate | reflexivity].
    - injection Hx as <-. intros Hz. rewrite Hz in Hle.
      vm_compute in Hle. apply Hle. reflexivity. }
  destruct (Hscale Hnz 0%nat [Fin (1 # 2); Fin 2] eq_refl) as (a' & Hch & _ & Hix).
  exists h', nb, a'. split; [exact Hrun|]. split; [exact Hch|].
  apply (Hix 1). vm_compute. split; [discriminate | reflexivity].
Defined.

(** Trimming [0, 10) out of four frames: ten frames, silence from frame 4. *)
Lemma trimAudioBuffer_pads_witness :
  wf_buffer four_ones four_ones_buffer = true /\
  exists (h' : heap) (nb : AudioBuffer) (a' : list num),
    trimAudioBuffer four_ones_buffer 0 (10 # 1) four_ones = (h', Ok nb) /\
    buf_length nb = 10%nat /\
    channel h' nb 0 = Some a' /\
    index a' 3 = Fin 1 /\ index a' 4 = zero.
Proof.
  split; [reflexivity|].
  pose proof (trimAudioBuffer_pads four_ones four_ones_buffer 0 (10 # 1)
                eq_refl eq_refl) as H.
  cbv zeta in H.
  destruct H as (h' & nb & Hrun & _ & Hlen & _ & Hframes).
  - vm_compute. discriminate.
  - reflexivity.
  - reflexivity.
  - destruct (Hframes 0%nat [Fin 1; Fin 1; Fin 1; Fin 1] eq_refl)
      as (a' & Hch & _ & Hix).
    exists h', nb, a'. split; [exact Hrun|]. split; [exact Hlen|].
    split; [exact Hch|]. split.
    + apply (Hix 3). vm_compute. split; [discriminate | reflexivity].
    + apply (Hix 4). vm_compute. split; [discriminate | reflexivity].
Defined.

(** An empty selection is refused and the heap is untouched. *)
Lemma trimAudioBuffer_range_witness :
  wf_buffer four_ones four_ones_buffer = true /\
  trimAudioBuffer four_ones_buffer 1 1 four_ones = (four_ones, Throw InvalidTrimRange).
Proof.
  split; [reflexivity|].
  pose proof (trimAudioBuffer_range four_ones four_ones_buffer 1 1 eq_refl) as H.
  cbv zeta in H. destruct H as (_ & Hfail & _).
  apply Hfail. vm_compute. discriminate.
Defined.

(** The header of the two-frame file. *)
Lemma audioBufferToWavBlob_layout_witness :
  (sampleRate two_frames_buffer == inject_Z 44100)%Q /\
  exists bytes : list Z,
    audioBufferToWavBlob two_frames two_frames_buffer = Ok bytes /\
    length bytes = 48%nat /\
    bytes !! 22%nat = Some 1 /\ bytes !! 23%nat = Some 0 /\
    slice 40 4 bytes = [4; 0; 0; 0].
Proof.
  split; [reflexivity|].
  pose proof (audioBufferToWavBlob_layout two_frames two_frames_buffer 44100
                ltac:(reflexivity)) as H.
  cbv zeta in H. destruct H as (bytes & Hrun & H').
  do 18 (destruct H' as [_ H']).
  exists bytes. split; [exact Hrun|]. apply H'; reflexivity.
Defined.

(** The scenario of the two tracks, played from position 4 at context
    time 0. *)
Lemma startPlayback_schedule_witness :
  (0 <= 0)%Q /\
  studioSourceNodes
    (startPlayback (mkTransport [] 0 0 false) 0 [trackA; trackB] 4)
  = [mkSourceStart trackA 1 0 4; mkSourceStart trackB 1 0 1].
Proof.
  split; [apply Qle_refl|].
  pose proof (startPlayback_schedule (mkTransport [] 0 0 false) 0 4 []
                (Qle_refl 0)) as H.
  cbv zeta in H. destruct H as (_ & _ & Hnodes & _). exact Hnodes.
Defined.

(** The studio effect with a chain that passes the signal through. *)
Lemma effects_leave_source_intact_witness :
  wf_buffer four_ones four_ones_buffer = true /\
  forall c,
    channel (fst (apply_effect (fun _ x => x) StudioEffect four_ones_buffer
                    1 3 four_ones)) four_ones_buffer c
    = channel four_ones four_ones_buffer c.
Proof.
  split; [reflexivity|].
  pose proof (effects_leave_source_intact (fun _ x => x) StudioEffect four_ones
                four_ones_buffer 1 3 eq_refl
                (fst (apply_effect (fun _ x => x) StudioEffect four_ones_buffer
                        1 3 four_ones))
                (snd (apply_effect (fun _ x => x) StudioEffect four_ones_buffer
                        1 3 four_ones))
                eq_refl) as H.
  destruct H as (_ & Hsame & _). exact Hsame.
Defined.

(** Five frames in two buckets: blocks of two frames, the fifth is left
    out. *)
Lemma downsampledData_mean_witness :
  1 <= Qfloor (5 # 2) /\
  downsampledData [Fin 1; Fin (-1); Fin (1 # 2); Fin (1 # 2); Fin 3] (5 # 2)
    !! 1%nat
  = Some (mean_abs [Fin (1 # 2); Fin (1 # 2)]).
Proof.
  split; [vm_compute; discriminate|].
  pose proof (downsampledData_mean
                [Fin 1; Fin (-1); Fin (1 # 2); Fin (1 # 2); Fin 3] (5 # 2)) as H.
  cbv zeta in H. destruct H as [_ H]; [vm_compute; discriminate|].
  destruct (H 1) as (_ & _ & Hb); [vm_compute; split; [discriminate | reflexivity]|].
  exact Hb.
Defined.

(** Commit, commit, undo, commit and redo on three buffers told apart by
    their length. *)
Lemma history_commit_undo_redo_witness :
  let A := mkAudioBuffer 1 1 [] in
  let B := mkAudioBuffer 2 1 [] in
  let C := mkAudioBuffer 3 1 [] in
  let st3 := updateHistory (handleUndo (updateHistory (updateHistory emptyEditor A) B)) C in
  history st3 = [A; C] /\ handleRedo st3 = st3 /\ handleUndo emptyEditor = emptyEditor.
Proof.
  intros A B C st3.
  pose proof (history_commit_undo_redo A B C emptyEditor A) as H.
  destruct H as (_ & _ & _ & Hscenario & Hundo & _).
  cbv zeta in Hscenario. destruct Hscenario as (_ & _ & _ & Hh & _ & _ & Hredo).
  split; [exact Hh|]. split; [exact Hredo|].
  apply Hundo. vm_compute. discriminate.
Defined.

(** Track A (5 seconds from 0) alone is heard; the muted track B (4 seconds
    from 3) lengthens the mix to 7.5 seconds and adds nothing to it. *)
Lemma renderMix_mixdown_witness :
  [trackA; mutedB] <> [] /\
  exists (h' : heap) (nb : AudioBuffer) (out : list num),
    renderMix [trackA; mutedB] 1 two_tracks_heap = (h', Ok nb) /\
    buf_length nb = 8%nat /\
    channel h' nb 0 = Some out /\
    index out 4 = num_add zero (num_mul (Fin 1) (Fin 1)) /\
    index out 6 = zero.
Proof.
  split; [discriminate|].
  destruct (renderMix_mixdown two_tracks_heap [trackA; mutedB] 1) as [_ H].
  destruct (H ltac:(discriminate))
    as (h' & nb & Hrun & _ & Hlen & _ & _ & _ & _ & Hout & _).
  destruct (Hout 0%nat ltac:(repeat constructor)) as (out & Hch & _ & Hix).
  exists h', nb, out. split; [exact Hrun|]. split; [exact Hlen|].
  split; [exact Hch|]. split.
  - apply (Hix 4). rewrite Hlen. vm_compute. split; [discriminate | reflexivity].
  - apply (Hix 6). rewrite Hlen. vm_compute. split; [discriminate | reflexivity].
Defined.

(** * Further properties of the engine *)

(** ** Buffers returned by the effects *)

Lemma wf_buffer_fresh (h arrs : heap) (frames : nat) (rate : Q) :
  Forall (fun a => length a = frames) arrs ->
  wf_buffer (h ++ arrs) (fresh_buffer h (length arrs) frames rate) = true.
Proof.
  intros Hlen. apply wf_buffer_Forall. unfold fresh_buffer. simpl.
  apply Forall_forall. intros l Hl. apply elem_of_seq in Hl.
  destruct (lookup_lt_is_Some_2 arrs (l - length h)) as [a Ha]; [lia|].
  exists a. split.
  - rewrite lookup_app_r by lia. exact Ha.
  - rewrite Forall_forall in Hlen. apply Hlen. apply list_elem_of_lookup. eauto.
Qed.

Lemma get_fresh (h arrs : heap) :
  map (get (h ++ arrs)) (seq (length h) (length arrs)) = arrs.
Proof.
  apply list_eq. intros i. rewrite list_lookup_fmap.
  destruct (arrs !! i) as [a|] eqn:E.
  - rewrite lookup_seq_lt by (eapply lookup_lt_Some; eauto). simpl.
    unfold get. rewrite lookup_app_r by lia.
    replace (length h + i - length h)%nat with i by lia. rewrite E. reflexivity.
  - rewrite lookup_seq_ge by (apply lookup_ge_None_1, E). reflexivity.
Qed.

Lemma wf_buffer_lengths (h : heap) (b : AudioBuffer) :
  wf_buffer h b = true ->
  Forall (fun a => length a = buf_length b) (map (get h) (channelData b)).
Proof.
  intros Hwf. apply wf_buffer_Forall in Hwf. apply Forall_fmap.
  eapply Forall_impl; [exact Hwf|]. intros l (a & Ha & Hlen). simpl.
  rewrite (get_Some _ _ _ Ha). exact Hlen.
Qed.

Lemma Forall_map_length (F : list num -> list num) (n : nat) (arrs : list (list num)) :
  (forall a, length (F a) = length a) ->
  Forall (fun a => length a = n) arrs ->
  Forall (fun a => length a = n) (map F arrs).
Proof.
  intros HF Hlen. apply Forall_fmap. eapply Forall_impl; [exact Hlen|].
  intros a Ha. simpl. rewrite HF. exact Ha.
Qed.

(** ** The fade-out ramp *)

Lemma of_Z_one_minus_div (n d : Z) :
  d <> 0 ->
  num_sub (of_Z 1) (num_div (of_Z n) (of_Z d))
  = Fin (1 - inject_Z n / inject_Z d).
Proof. intros Hd. rewrite of_Z_div by exact Hd. reflexivity. Qed.

(** X1.  [applyFadeOut]: the ramp window ends at the end of the selection and
    starts inside it; sample [j] of the window is multiplied by
    [1 - (j - startSample)/len], so the first sample of the window keeps its
    value and the last one is scaled by [1/len]; every other sample is
    unchanged, and an empty window gives an equal clone. *)
Theorem applyFadeOut_ramp (h : heap) (b : AudioBuffer) (selStart selEnd dur : Q) :
  wf_buffer h b = true ->
  let endSample := toSample selEnd (sampleRate b) in
  let startSample :=
    Z.max (toSample selStart (sampleRate b))
          (endSample - toSample dur (sampleRate b)) in
  let len := endSample - startSample in
  exists (h' : heap) (nb : AudioBuffer),
    applyFadeOut b selStart selEnd dur h = (h', Ok nb) /\
    wf_buffer h' nb = true /\
    numberOfChannels nb = numberOfChannels b /\
    buf_length nb = buf_length b /\
    toSample selStart (sampleRate b) <= startSample /\
    (len <= 0 -> forall c, channel h' nb c = channel h b c) /\
    (0 < len ->
     forall c a, channel h b c = Some a ->
       exists a', channel h' nb c = Some a' /\ length a' = length a /\
         (forall j, 0 <= j < Z.of_nat (length a) ->
            index a' j =
            if (startSample <=? j) && (j <? endSample)
            then num_mul (index a j)
                   (Fin (1 - inject_Z (j - startSample) / inject_Z len))
            else index a j) /\
         (0 <= startSample < Z.of_nat (length a) ->
            num_eqv (index a' startSample) (index a startSample)) /\
         (forall x, 0 <= endSample - 1 < Z.of_nat (length a) ->
            index a (endSample - 1) = Fin x ->
            num_eqv (index a' (endSample - 1)) (Fin (x / inject_Z len)))).
Proof.
  intros Hwf endSample startSample len.
  eexists _, _. split; [apply applyFadeOut_spec, Hwf|].
  assert (Hshape : forall arrs,
            Forall (fun a => length a = buf_length b) arrs ->
            Forall (fun a => length a = buf_length b)
              (fadeOut_channels (sampleRate b) selStart selEnd dur arrs)).
  { intros arrs Ha. unfold fadeOut_channels. destruct (_ <=? 0); [exact Ha|].
    apply Forall_map_length; [|exact Ha]. intros a. apply update_region_length. }
  split.
  { unfold numberOfChannels.
    rewrite <- (length_map (get h) (channelData b)).
    rewrite <- (fadeOut_channels_length (sampleRate b) selStart selEnd dur).
    apply wf_buffer_fresh, Hshape, wf_buffer_lengths, Hwf. }
  split; [unfold fresh_buffer, numberOfChannels; simpl; apply length_seq|].
  split; [reflexivity|]. split; [unfold startSample; lia|].
  unfold fadeOut_channels. fold endSample. fold startSample. fold len.
  destruct (Z.leb_spec len 0) as [Hle|Hgt].
  - split; [|lia]. intros _ c.
    rewrite (channel_result h b (fun x => x)) by apply length_map.
    apply channel_get_wf, Hwf.
  - split; [lia|]. intros _ c a Hc.
    rewrite (channel_result h b (map _)) by (rewrite !length_map; reflexivity).
    rewrite list_lookup_fmap, (channel_get _ _ _ _ Hc). simpl.
    eexists. split; [reflexivity|].
    split; [apply update_region_length|].
    assert (Hix : forall j, 0 <= j < Z.of_nat (length a) ->
              index (update_region startSample endSample
                       (fun j x => num_mul x
                          (num_sub (of_Z 1)
                             (num_div (of_Z (j - startSample)) (of_Z len)))) a) j =
              if (startSample <=? j) && (j <? endSample)
              then num_mul (index a j)
                     (Fin (1 - inject_Z (j - startSample) / inject_Z len))
              else index a j).
    { intros j Hj. rewrite index_update_region by exact Hj.
      rewrite of_Z_one_minus_div by lia. reflexivity. }
    split; [exact Hix|]. split.
    + intros Hs. rewrite Hix by exact Hs.
      destruct (Z.leb_spec startSample startSample); [|lia].
      destruct (Z.ltb_spec startSample endSample); [|unfold len in Hgt; lia].
      simpl. destruct (index a startSample) as [x|]; simpl; [|exact I].
      rewrite Z.sub_diag. unfold Qdiv. change (inject_Z 0) with 0%Q. ring.
    + intros x He Hx. rewrite Hix by exact He.
      destruct (Z.leb_spec startSample (endSample - 1)); [|unfold len in Hgt; lia].
      destruct (Z.ltb_spec (endSample - 1) endSample); [|lia]. simpl.
      rewrite Hx. simpl.
      replace (endSample - 1 - startSample) with (len - 1) by (unfold len; lia).
      assert (Hnz : ~ (inject_Z len == 0)%Q).
      { unfold Qeq, inject_Z. simpl. lia. }
      change (x * (1 - inject_Z (len - 1) / inject_Z len) == x / inject_Z len)%Q.
      assert (E : (inject_Z (len - 1) == inject_Z len - 1)%Q).
      { unfold Z.sub. rewrite inject_Z_plus. reflexivity. }
      rewrite E. field. exact Hnz.
Qed.

(** Half a second of fade-out at the end of [one_second]: the window is the
    last two frames, the last one is halved. *)
Lemma applyFadeOut_ramp_witness :
  wf_buffer four_ones one_second = true /\
  exists (h' : heap) (nb : AudioBuffer) (a' : list num),
    applyFadeOut one_second 0 1 (1 # 2) four_ones = (h', Ok nb) /\
    channel h' nb 0 = Some a' /\
    index a' 1 = Fin 1 /\
    num_eqv (index a' 3) (Fin (1 / inject_Z 2)).
Proof.
  split; [reflexivity|].
  pose proof (applyFadeOut_ramp four_ones one_second 0 1 (1 # 2) eq_refl) as H.
  cbv zeta in H. destruct H as (h' & nb & Hrun & _ & _ & _ & _ & _ & Hramp).
  destruct (Hramp eq_refl 0%nat [Fin 1; Fin 1; Fin 1; Fin 1] eq_refl)
    as (a' & Hch & _ & Hix & _ & Hend).
  exists h', nb, a'. split; [exact Hrun|]. split; [exact Hch|]. split.
  - apply (Hix 1). vm_compute. split; [discriminate | reflexivity].
  - apply (Hend 1%Q); [vm_compute; split; [discriminate | reflexivity]|].
    reflexivity.
Defined.

(** ** The noise gate *)

Lemma below_threshold (x : Q) :
  num_ltb (num_abs (Fin x)) threshold = true <-> (Qabs x < 2 # 100)%Q.
Proof.
  unfold num_ltb, num_abs, threshold. rewrite negb_true_iff. apply Qle_bool_false.
Qed.

(** X2.  [applyNoiseReduction]: inside the region a sample whose absolute value is
    below 0.02 becomes 0; every other sample, inside or outside the region, is
    unchanged (a [NaN] is not below the threshold). *)
Theorem applyNoiseReduction_gate (h : heap) (b : AudioBuffer) (start end_ : Q) :
  wf_buffer h b = true ->
  let s := toSample start (sampleRate b) in
  let e := toSample end_ (sampleRate b) in
  exists (h' : heap) (nb : AudioBuffer),
    applyNoiseReduction b start end_ h = (h', Ok nb) /\
    wf_buffer h' nb = true /\
    numberOfChannels nb = numberOfChannels b /\
    buf_length nb = buf_length b /\
    forall c a, channel h b c = Some a ->
      exists a', channel h' nb c = Some a' /\ length a' = length a /\
        forall j, 0 <= j < Z.of_nat (length a) ->
          (forall x, s <= j < e -> index a j = Fin x -> (Qabs x < 2 # 100)%Q ->
             index a' j = Fin 0) /\
          (forall x, index a j = Fin x -> (2 # 100 <= Qabs x)%Q ->
             index a' j = index a j) /\
          (index a j = NaN -> index a' j = NaN) /\
          (~ s <= j < e -> index a' j = index a j).
Proof.
  intros Hwf s e.
  eexists _, _. split; [apply applyNoiseReduction_spec, Hwf|].
  split.
  { unfold numberOfChannels.
    rewrite <- (length_map (get h) (channelData b)).
    rewrite <- (noiseGate_channels_length (sampleRate b) start end_).
    apply wf_buffer_fresh. unfold noiseGate_channels.
    apply Forall_map_length; [intros a; apply update_region_length|].
    apply wf_buffer_lengths, Hwf. }
  split; [unfold fresh_buffer, numberOfChannels; simpl; apply length_seq|].
  split; [reflexivity|].
  intros c a Hc. unfold noiseGate_channels. fold s. fold e.
  rewrite (channel_result h b (map _)) by (rewrite !length_map; reflexivity).
  rewrite list_lookup_fmap, (channel_get _ _ _ _ Hc). simpl.
  eexists. split; [reflexivity|]. split; [apply update_region_length|].
  intros j Hj. rewrite index_update_region by exact Hj.
  split; [|split; [|split]].
  - intros x Hin Hx Hlow. rewrite Hx.
    destruct (Z.leb_spec s j); [|lia]. destruct (Z.ltb_spec j e); [|lia]. simpl andb.
    cbv iota. rewrite (proj2 (below_threshold x) Hlow). reflexivity.
  - intros x Hx Hhigh. rewrite Hx.
    destruct ((s <=? j) && (j <? e)); [|reflexivity].
    destruct (num_ltb (num_abs (Fin x)) threshold) eqn:E; [|reflexivity].
    apply below_threshold in E. lra.
  - intros Hx. rewrite Hx. destruct ((s <=? j) && (j <? e)); reflexivity.
  - intros Hout. destruct (Z.leb_spec s j), (Z.ltb_spec j e); try reflexivity. lia.
Qed.

Lemma applyNoiseReduction_gate_witness :
  wf_buffer [[Fin (1 # 100); Fin (-1 # 100); Fin (1 # 2)]]
            (mkAudioBuffer 3 1 [0%nat]) = true /\
  exists (h' : heap) (nb : AudioBuffer) (a' : list num),
    applyNoiseReduction (mkAudioBuffer 3 1 [0%nat]) 0 (3 # 1)
      [[Fin (1 # 100); Fin (-1 # 100); Fin (1 # 2)]] = (h', Ok nb) /\
    channel h' nb 0 = Some a' /\
    index a' 1 = Fin 0 /\ index a' 2 = Fin (1 # 2).
Proof.
  split; [reflexivity|].
  pose proof (applyNoiseReduction_gate
                [[Fin (1 # 100); Fin (-1 # 100); Fin (1 # 2)]]
                (mkAudioBuffer 3 1 [0%nat]) 0 (3 # 1) eq_refl) as H.
  cbv zeta in H. destruct H as (h' & nb & Hrun & _ & _ & _ & Hgate).
  destruct (Hgate 0%nat [Fin (1 # 100); Fin (-1 # 100); Fin (1 # 2)] eq_refl)
    as (a' & Hch & _ & Hix).
  exists h', nb, a'. split; [exact Hrun|]. split; [exact Hch|]. split.
  - destruct (Hix 1) as (Hlow & _).
    + vm_compute. split; [discriminate | reflexivity].
    + apply (Hlow (-1 # 100)%Q).
      * vm_compute. split; [discriminate | reflexivity].
      * reflexivity.
      * reflexivity.
  - destruct (Hix 2) as (_ & Hhigh & _).
    + vm_compute. split; [discriminate | reflexivity].
    + apply (Hhigh (1 # 2)%Q); [reflexivity|]. vm_compute. discriminate.
Defined.

Lemma gate_twice (s e : Z) (a : list num) :
  update_region s e (fun _ x => if num_ltb (num_abs x) threshold then zero else x)
    (update_region s e
       (fun _ x => if num_ltb (num_abs x) threshold then zero else x) a)
  = update_region s e
      (fun _ x => if num_ltb (num_abs x) threshold then zero else x) a.
Proof.
  apply list_eq. intros k. rewrite !update_region_lookup.
  destruct (a !! k) as [x|]; simpl; [|reflexivity]. f_equal.
  destruct ((s <=? Z.of_nat k) && (Z.of_nat k <? e)); [|reflexivity].
  destruct (num_ltb (num_abs x) threshold) eqn:E; [reflexivity|].
  rewrite E. reflexivity.
Qed.

(** X3.  Gating the result of the gate again, with the same selection, changes
    nothing: the second result holds the samples of the first. *)
Theorem applyNoiseReduction_idempotent (h : heap) (b : AudioBuffer) (start end_ : Q) :
  wf_buffer h b = true ->
  exists (h1 h2 : heap) (nb1 nb2 : AudioBuffer),
    applyNoiseReduction b start end_ h = (h1, Ok nb1) /\
    applyNoiseReduction nb1 start end_ h1 = (h2, Ok nb2) /\
    forall c, channel h2 nb2 c = channel h1 nb1 c.
Proof.
  intros Hwf.
  set (arrs := noiseGate_channels (sampleRate b) start end_
                 (map (get h) (channelData b))).
  assert (Hn : numberOfChannels b = length arrs).
  { unfold arrs. rewrite noiseGate_channels_length, length_map. reflexivity. }
  set (nb1 := fresh_buffer h (length arrs) (buf_length b) (sampleRate b)).
  assert (Hwf1 : wf_buffer (h ++ arrs) nb1 = true).
  { apply wf_buffer_fresh. unfold arrs, noiseGate_channels.
    apply Forall_map_length; [intros a; apply update_region_length|].
    apply wf_buffer_lengths, Hwf. }
  assert (Hch1 : map (get (h ++ arrs)) (channelData nb1) = arrs)
    by apply get_fresh.
  assert (Hn1 : numberOfChannels nb1
                = length (noiseGate_channels (sampleRate b) start end_ arrs)).
  { rewrite noiseGate_channels_length. unfold nb1, fresh_buffer, numberOfChannels.
    simpl. apply length_seq. }
  exists (h ++ arrs),
         ((h ++ arrs) ++ noiseGate_channels (sampleRate b) start end_ arrs),
         nb1,
         (fresh_buffer (h ++ arrs)
            (length (noiseGate_channels (sampleRate b) start end_ arrs))
            (buf_length b) (sampleRate b)).
  split.
  { rewrite (applyNoiseReduction_spec h b start end_ Hwf).
    fold arrs. rewrite Hn. reflexivity. }
  split.
  { rewrite (applyNoiseReduction_spec (h ++ arrs) nb1 start end_ Hwf1).
    rewrite Hch1, Hn1. reflexivity. }
  intros c. unfold nb1. rewrite !channel_fresh.
  unfold arrs, noiseGate_channels. rewrite !list_lookup_fmap.
  destruct (channelData b !! c); simpl; [|reflexivity].
  f_equal. apply gate_twice.
Qed.

Lemma applyNoiseReduction_idempotent_witness :
  wf_buffer four_ones four_ones_buffer = true /\
  exists (h1 h2 : heap) (nb1 nb2 : AudioBuffer),
    applyNoiseReduction four_ones_buffer 0 (4 # 1) four_ones = (h1, Ok nb1) /\
    applyNoiseReduction nb1 0 (4 # 1) h1 = (h2, Ok nb2) /\
    channel h2 nb2 0 = channel h1 nb1 0.
Proof.
  split; [reflexivity|].
  destruct (applyNoiseReduction_idempotent four_ones four_ones_buffer 0 (4 # 1)
              eq_refl) as (h1 & h2 & nb1 & nb2 & H1 & H2 & Hsame).
  exists h1, h2, nb1, nb2. split; [exact H1|]. split; [exact H2|]. apply Hsame.
Defined.

(** ** The studio effect: splicing the rendering into the clone *)

Lemma splice_fill (offset : Z) (frames len : nat) (h : heap) :
  0 <= offset -> offset + Z.of_nat frames <= Z.of_nat len ->
  forall (srcs : list nat) (todo done : list (list num)),
  Forall (fun l => (l < length h)%nat /\ length (get h l) = frames) srcs ->
  Forall (fun t => length t = len) todo ->
  length todo = length srcs ->
  forM (zip (seq (length h + length done) (length srcs)) srcs)
       (fun '(dst, src) => a ← readArr src; typed_set dst a offset)
       (h ++ done ++ todo)
  = (h ++ done
       ++ zip_with (fun t s => take (Z.to_nat offset) t ++ get h s
                                 ++ drop (Z.to_nat offset + frames) t) todo srcs,
     Ok tt).
Proof.
  intros Hoff Hfit srcs. induction srcs as [|s rest IH]; intros todo done Hs Ht Hlen.
  - destruct todo; [reflexivity | discriminate].
  - destruct todo as [|t todo]; [discriminate|].
    apply Forall_cons in Hs as [[Hs Hsl] Hrest]. apply Forall_cons in Ht as [Htl Ht].
    simpl in Hlen.
    set (v := take (Z.to_nat offset) t ++ get h s ++ drop (Z.to_nat offset + frames) t).
    assert (Hd : (h ++ done ++ t :: todo) !! (length h + length done)%nat = Some t).
    { rewrite app_assoc, lookup_app_r by (rewrite length_app; lia).
      rewrite length_app, Nat.sub_diag. reflexivity. }
    assert (Hstep : (a ← readArr s; typed_set (length h + length done)%nat a offset)
                      (h ++ done ++ t :: todo)
                    = (<[(length h + length done)%nat := v]> (h ++ done ++ t :: todo),
                       Ok tt)).
    { unfold typed_set. run.
      rewrite (get_Some _ _ _ Hd), get_app_l, Hsl, Htl by exact Hs.
      destruct (Z.ltb_spec offset 0); [lia|].
      destruct (Z.ltb_spec (Z.of_nat len) (offset + Z.of_nat frames)); [lia|].
      reflexivity. }
    simpl. rewrite run_bind, Hstep.
    replace (<[(length h + length done)%nat := v]> (h ++ done ++ t :: todo))
      with (h ++ (done ++ [v]) ++ todo).
    2:{ rewrite (app_assoc h done), insert_app_r_alt by (rewrite length_app; lia).
        rewrite length_app, Nat.sub_diag. simpl.
        rewrite <- !app_assoc. reflexivity. }
    replace (S (length h + length done)) with
      (length h + length (done ++ [v]))%nat by (rewrite length_app; simpl; lia).
    rewrite IH by (try assumption; lia). rewrite <- !app_assoc. reflexivity.
Qed.

Lemma splice_lookup (frames : nat) (offset : Z) (t r : list num) (j : Z) :
  0 <= offset -> length r = frames ->
  offset + Z.of_nat frames <= Z.of_nat (length t) ->
  0 <= j < Z.of_nat (length t) ->
  index (take (Z.to_nat offset) t ++ r ++ drop (Z.to_nat offset + frames) t) j
  = if (offset <=? j) && (j <? offset + Z.of_nat frames)
    then index r (j - offset) else index t j.
Proof.
  intros Hoff Hr Hfit Hj. unfold index.
  destruct (Z.ltb_spec j 0); [lia|].
  destruct (Z.leb_spec offset j) as [Hge|Hlt]; simpl.
  - rewrite lookup_app_r by (rewrite length_take; lia).
    rewrite length_take.
    destruct (Z.ltb_spec j (offset + Z.of_nat frames)) as [Hin|Hout].
    + destruct (Z.ltb_spec (j - offset) 0); [lia|].
      rewrite lookup_app_l by lia. do 2 f_equal. lia.
    + rewrite lookup_app_r by lia. rewrite lookup_drop. do 2 f_equal. lia.
  - rewrite lookup_app_l by (rewrite length_take; lia).
    rewrite lookup_take_lt by lia. reflexivity.
Qed.

(** The effect up to its last loop: the trimmed channels and the rendering
    are allocated, the source is cloned, and the rendered channels are about to
    be written into the clone. *)
Lemma applyStudioEffect_run (chain : Q -> list (list num) -> list (list num))
    (h : heap) (b : AudioBuffer) (start end_ : Q) :
  wf_buffer h b = true ->
  let so := toSample start (sampleRate b) in
  let eo := toSample end_ (sampleRate b) in
  0 < eo - so ->
  let n := numberOfChannels b in
  let frames := Z.to_nat (eo - so) in
  let arrs := map (get h) (channelData b) in
  let T := map (trim_channel so eo) arrs in
  let R := map (fun i => resize frames zero
                           (default [] (chain (sampleRate b) T !! i))) (seq 0 n) in
  let h1 := h ++ T in
  let h2 := h1 ++ R in
  applyStudioEffect chain b start end_ h =
  (_ ← forM (zip (seq (length h2) n) (seq (length h1) n))
         (fun '(dst, src) => a ← readArr src; typed_set dst a so);
   mret (fresh_buffer h2 n (buf_length b) (sampleRate b))) (h2 ++ arrs).
Proof.
  intros Hwf so eo Hpos n frames arrs T R h1 h2.
  assert (HT : length T = n) by (unfold T, arrs; rewrite !length_map; reflexivity).
  assert (Hwf2 : wf_buffer h2 b = true) by (do 2 apply wf_buffer_app; exact Hwf).
  assert (Harrs2 : map (get h2) (channelData b) = arrs).
  { unfold arrs, h2, h1. rewrite <- app_assoc. apply map_ext_Forall.
    eapply Forall_impl; [apply wf_buffer_alloc, Hwf|].
    intros l Hl. apply get_app_l, Hl. }
  unfold applyStudioEffect. rewrite run_bind.
  rewrite trimAudioBuffer_spec by (try exact Hwf; fold so eo; lia).
  fold so eo arrs T h1 n frames. rewrite run_bind.
  unfold startRendering. cbv beta iota zeta.
  simpl channelData. simpl buf_length. simpl sampleRate.
  change (numberOfChannels (fresh_buffer h n frames (sampleRate b)))
    with (length (seq (length h) n)).
  rewrite length_seq.
  replace (map (get h1) (seq (length h) n)) with T.
  2:{ unfold h1. rewrite <- HT. symmetry. apply get_fresh. }
  change (h1 ++ map _ (seq 0 n)) with h2.
  rewrite run_bind, (cloneAudioBuffer_spec h2 b Hwf2). rewrite Harrs2.
  reflexivity.
Qed.

(** X4.  [applyStudioEffect] on a selection whose frames [so, eo) lie inside the
    buffer: the result is a new buffer of the source's shape; a sample outside
    [so, eo) is the source's, and sample [j] inside is sample [j - so] of the
    rendering of the trimmed selection (padded with zeros or cut to
    [eo - so] frames, as the offline context delivers it). *)
Theorem applyStudioEffect_splice (chain : Q -> list (list num) -> list (list num))
    (h : heap) (b : AudioBuffer) (start end_ : Q) :
  wf_buffer h b = true ->
  let so := toSample start (sampleRate b) in
  let eo := toSample end_ (sampleRate b) in
  0 <= so -> so < eo -> eo <= Z.of_nat (buf_length b) ->
  let rendered :=
    chain (sampleRate b) (map (trim_channel so eo) (map (get h) (channelData b))) in
  exists (h' : heap) (nb : AudioBuffer),
    applyStudioEffect chain b start end_ h = (h', Ok nb) /\
    wf_buffer h' nb = true /\
    numberOfChannels nb = numberOfChannels b /\
    buf_length nb = buf_length b /\
    sampleRate nb = sampleRate b /\
    forall c a, channel h b c = Some a ->
      exists a', channel h' nb c = Some a' /\ length a' = length a /\
        forall j, 0 <= j < Z.of_nat (length a) ->
          index a' j =
          if (so <=? j) && (j <? eo)
          then index (resize (Z.to_nat (eo - so)) zero (default [] (rendered !! c)))
                     (j - so)
          else index a j.
Proof.
  intros Hwf so eo Hso Hlt Heo rendered.
  set (n := numberOfChannels b).
  set (frames := Z.to_nat (eo - so)).
  set (arrs := map (get h) (channelData b)).
  set (T := map (trim_channel so eo) arrs).
  set (R := map (fun i => resize frames zero (default [] (rendered !! i))) (seq 0 n)).
  set (h1 := h ++ T). set (h2 := h1 ++ R).
  set (V := zip_with (fun t s => take (Z.to_nat so) t ++ get h2 s
                                  ++ drop (Z.to_nat so + frames) t)
              arrs (seq (length h1) n)).
  assert (HT : length T = n) by (unfold T, arrs; rewrite !length_map; reflexivity).
  assert (HR : length R = n) by (unfold R; rewrite length_map, length_seq; reflexivity).
  assert (Harrs : length arrs = n) by (unfold arrs; apply length_map).
  assert (HV : length V = n).
  { unfold V. rewrite length_zip_with, length_seq. lia. }
  assert (Hlens : Forall (fun a => length a = buf_length b) arrs)
    by apply wf_buffer_lengths, Hwf.
  assert (Hrun : applyStudioEffect chain b start end_ h
                 = (h2 ++ V, Ok (fresh_buffer h2 n (buf_length b) (sampleRate b)))).
  { rewrite applyStudioEffect_run by (try exact Hwf; fold so eo; lia).
    fold so eo n frames arrs T. change (h ++ T) with h1.
    change (h1 ++ map _ (seq 0 n)) with h2. rewrite run_bind.
    pose proof (splice_fill so frames (buf_length b) h2 ltac:(lia) ltac:(lia)
                  (seq (length h1) n) arrs []) as Hfill.
    simpl in Hfill. rewrite ?Nat.add_0_r, ?length_seq in Hfill.
    rewrite Hfill; [reflexivity | | exact Hlens | exact Harrs].
    apply Forall_forall. intros l Hl. apply elem_of_seq in Hl.
    unfold h2. rewrite length_app, HR. split; [lia|].
    unfold get. rewrite lookup_app_r by lia.
    destruct (lookup_lt_is_Some_2 R (l - length h1)) as [r Hr]; [lia|].
    rewrite Hr. simpl. unfold R in Hr. rewrite list_lookup_fmap in Hr.
    destruct (seq 0 n !! (l - length h1)%nat); [|discriminate].
    injection Hr as <-. apply length_resize. }
  assert (Hget : forall c, (c < n)%nat ->
            get h2 (length h1 + c) = resize frames zero (default [] (rendered !! c))).
  { intros c Hc. unfold get, h2. rewrite lookup_app_r by lia.
    replace (length h1 + c - length h1)%nat with c by lia.
    unfold R. rewrite list_lookup_fmap, lookup_seq_lt by exact Hc. reflexivity. }
  exists (h2 ++ V), (fresh_buffer h2 n (buf_length b) (sampleRate b)).
  split; [exact Hrun|].
  assert (HVlen : Forall (fun a => length a = buf_length b) V).
  { apply Forall_lookup. intros c v Hv. unfold V in Hv.
    apply lookup_zip_with_Some in Hv as (t & s & -> & Ht & Hs).
    apply lookup_seq in Hs as [-> Hc]. rewrite (Hget c Hc).
    rewrite Forall_lookup in Hlens. specialize (Hlens c t Ht).
    rewrite !length_app, length_take, length_drop, length_resize. lia. }
  split.
  { rewrite <- HV. apply wf_buffer_fresh. exact HVlen. }
  split; [unfold fresh_buffer, numberOfChannels; simpl; apply length_seq|].
  split; [reflexivity|]. split; [reflexivity|].
  intros c a Hc. apply channel_get in Hc. fold arrs in Hc.
  assert (Hcn : (c < n)%nat) by (rewrite <- Harrs; eapply lookup_lt_Some; eauto).
  assert (Hla : length a = buf_length b).
  { rewrite Forall_lookup in Hlens. exact (Hlens c a Hc). }
  exists (take (Z.to_nat so) a ++ resize frames zero (default [] (rendered !! c))
            ++ drop (Z.to_nat so + frames) a).
  split.
  { rewrite <- HV at 1. rewrite channel_fresh. unfold V.
    rewrite lookup_zip_with, Hc. simpl.
    rewrite lookup_seq_lt by exact Hcn. simpl. rewrite (Hget c Hcn). reflexivity. }
  split.
  { rewrite !length_app, length_take, length_drop, length_resize. lia. }
  intros j Hj.
  rewrite (splice_lookup frames) by (try apply length_resize; lia).
  replace (so + Z.of_nat frames) with eo by lia. reflexivity.
Qed.

Lemma applyStudioEffect_splice_witness :
  exists (h' : heap) (nb : AudioBuffer),
    applyStudioEffect (fun _ chs => chs) four_ones_buffer 1 (3 # 1) four_ones
    = (h', Ok nb) /\
    wf_buffer h' nb = true /\ buf_length nb = 4%nat.
Proof.
  destruct (applyStudioEffect_splice (fun _ chs => chs) four_ones four_ones_buffer
              1 (3 # 1) eq_refl)
    as (h' & nb & Hrun & Hwf & _ & Hlen & _).
  - vm_compute. discriminate.
  - reflexivity.
  - vm_compute. discriminate.
  - exists h', nb. split; [exact Hrun|]. split; [exact Hwf | exact Hlen].
Defined.

(** X5.  [applyStudioEffect] fails in two ways.  A selection of no frames is
    refused by the trim, before anything is allocated.  A selection of at least
    one frame that starts before frame 0 or ends after the last frame of the
    buffer makes the final [set] throw a [RangeError]: the effect does not clamp
    the selection to the buffer. *)
Theorem applyStudioEffect_errors (chain : Q -> list (list num) -> list (list num))
    (h : heap) (b : AudioBuffer) (start end_ : Q) :
  wf_buffer h b = true ->
  let so := toSample start (sampleRate b) in
  let eo := toSample end_ (sampleRate b) in
  (eo - so <= 0 ->
   applyStudioEffect chain b start end_ h = (h, Throw InvalidTrimRange)) /\
  (0 < eo - so -> so < 0 \/ Z.of_nat (buf_length b) < eo ->
   (0 < numberOfChannels b)%nat ->
   exists h', applyStudioEffect chain b start end_ h = (h', Throw RangeError)).
Proof.
  intros Hwf so eo. split.
  - intros Hle. unfold applyStudioEffect. rewrite run_bind.
    rewrite trimAudioBuffer_fail by exact Hle. reflexivity.
  - intros Hpos Hout Hn.
    rewrite applyStudioEffect_run by (try exact Hwf; fold so eo; lia).
    fold so eo.
    set (n := numberOfChannels b) in *.
    set (frames := Z.to_nat (eo - so)).
    set (arrs := map (get h) (channelData b)).
    set (T := map (trim_channel so eo) arrs).
    set (R := map _ (seq 0 n)).
    set (h1 := h ++ T). set (h2 := h1 ++ R).
    assert (HR : length R = n) by (unfold R; rewrite length_map, length_seq; reflexivity).
    assert (Harrs : length arrs = n) by (unfold arrs; apply length_map).
    destruct n as [|n']; [lia|].
    destruct arrs as [|a rest] eqn:Ea; [discriminate|].
    assert (Hla : length a = buf_length b).
    { pose proof (wf_buffer_lengths h b Hwf) as Hl. fold arrs in Hl.
      rewrite Ea in Hl. apply Forall_cons in Hl as [Hl _]. exact Hl. }
    assert (Hdst : get (h2 ++ a :: rest) (length h2) = a).
    { unfold get. rewrite lookup_app_r by lia. rewrite Nat.sub_diag. reflexivity. }
    assert (Hsrc : length (get (h2 ++ a :: rest) (length h1)) = frames).
    { rewrite get_app_l by (unfold h2; rewrite length_app, HR; lia).
      unfold get, h2. rewrite lookup_app_r by lia. rewrite Nat.sub_diag.
      unfold R. simpl. apply length_resize. }
    exists (h2 ++ a :: rest).
    rewrite run_bind. simpl zip. simpl forM. rewrite run_bind.
    assert (Hstep : (x ← readArr (length h1); typed_set (length h2) x so)
                      (h2 ++ a :: rest) = (h2 ++ a :: rest, Throw RangeError)).
    { unfold typed_set. run. rewrite Hdst, Hsrc, Hla.
      destruct (Z.ltb_spec so 0); [reflexivity|].
      destruct (Z.ltb_spec (Z.of_nat (buf_length b)) (so + Z.of_nat frames));
        [reflexivity | lia]. }
    rewrite Hstep. reflexivity.
Qed.

Lemma applyStudioEffect_errors_witness :
  applyStudioEffect (fun _ chs => chs) four_ones_buffer (3 # 1) 1 four_ones
  = (four_ones, Throw InvalidTrimRange) /\
  exists h', applyStudioEffect (fun _ chs => chs) four_ones_buffer 1 (6 # 1) four_ones
             = (h', Throw RangeError).
Proof.
  split.
  - apply (applyStudioEffect_errors (fun _ chs => chs) four_ones four_ones_buffer
             (3 # 1) 1 eq_refl).
    vm_compute. discriminate.
  - apply (applyStudioEffect_errors (fun _ chs => chs) four_ones four_ones_buffer
             1 (6 # 1) eq_refl).
    + reflexivity.
    + right. reflexivity.
    + unfold numberOfChannels, four_ones_buffer. simpl. lia.
Defined.

(** ** The shape of every result *)

Lemma typed_set_lengths (dst src : nat) (offset : Z) (h h' : heap) (r : result unit) :
  (a ← readArr src; typed_set dst a offset) h = (h', r) ->
  map length h' = map length h.
Proof.
  unfold typed_set. run.
  destruct (Z.ltb_spec offset 0) as [Hneg|Hpos]; simpl.
  { intros [= <- _]. reflexivity. }
  destruct (Z.ltb_spec (Z.of_nat (length (get h dst)))
              (offset + Z.of_nat (length (get h src)))) as [Hbig|Hfit].
  { intros [= <- _]. reflexivity. }
  intros [= <- _]. apply list_eq. intros k. rewrite !list_lookup_fmap.
  destruct (decide (k = dst)) as [->|Hne].
  - destruct (h !! dst) as [t|] eqn:Ht.
    + rewrite list_lookup_insert_eq by (eapply lookup_lt_Some; eauto). simpl.
      f_equal. rewrite (get_Some _ _ _ Ht) in *.
      rewrite !length_app, length_take, length_drop. lia.
    + rewrite list_insert_ge by (apply lookup_ge_None_1; exact Ht).
      rewrite Ht. reflexivity.
  - rewrite list_lookup_insert_ne by (intros E; apply Hne; symmetry; exact E).
    reflexivity.
Qed.

Lemma splice_lengths (offset : Z) (pairs : list (nat * nat)) :
  forall (h h' : heap) (r : result unit),
  forM pairs (fun '(dst, src) => a ← readArr src; typed_set dst a offset) h = (h', r) ->
  map length h' = map length h.
Proof.
  induction pairs as [|[dst src] pairs IH]; intros h h' r.
  - intros [= <- _]. reflexivity.
  - simpl forM. rewrite run_bind.
    destruct ((a ← readArr src; typed_set dst a offset) h) as [h1 [[]|e]] eqn:E.
    + intros Hrest. rewrite (IH _ _ _ Hrest). eapply typed_set_lengths, E.
    + intros [= <- _]. eapply typed_set_lengths, E.
Qed.

Lemma wf_buffer_same_lengths (h h' : heap) (b : AudioBuffer) :
  map length h' = map length h -> wf_buffer h' b = wf_buffer h b.
Proof.
  intros Hlen. unfold wf_buffer.
  induction (channelData b) as [|l ls IH]; [reflexivity|].
  simpl. rewrite IH. f_equal.
  assert (E : length <$> (h' !! l) = length <$> (h !! l)).
  { rewrite <- !list_lookup_fmap. f_equal. exact Hlen. }
  destruct (h' !! l), (h !! l); simpl in E; try discriminate; [|reflexivity].
  injection E as ->. reflexivity.
Qed.

Lemma effect_result_wf (h : heap) (b : AudioBuffer) (arrs : list (list num)) :
  wf_buffer h b = true ->
  length arrs = numberOfChannels b ->
  Forall (fun a => length a = buf_length b) arrs ->
  wf_buffer (h ++ arrs)
    (fresh_buffer h (numberOfChannels b) (buf_length b) (sampleRate b)) = true.
Proof.
  intros _ <- Hlen. apply wf_buffer_fresh, Hlen.
Qed.

Lemma fadeIn_channels_shape (rate ss se d : Q) (n : nat) (arrs : list (list num)) :
  Forall (fun a => length a = n) arrs ->
  Forall (fun a => length a = n) (fadeIn_channels rate ss se d arrs).
Proof.
  intros H. unfold fadeIn_channels. destruct (_ <=? 0); [exact H|].
  apply Forall_map_length; [intros a; apply update_region_length | exact H].
Qed.

Lemma fadeOut_channels_shape (rate ss se d : Q) (n : nat) (arrs : list (list num)) :
  Forall (fun a => length a = n) arrs ->
  Forall (fun a => length a = n) (fadeOut_channels rate ss se d arrs).
Proof.
  intros H. unfold fadeOut_channels. destruct (_ <=? 0); [exact H|].
  apply Forall_map_length; [intros a; apply update_region_length | exact H].
Qed.

Lemma normalize_channels_shape (rate s e : Q) (n : nat) (arrs : list (list num)) :
  Forall (fun a => length a = n) arrs ->
  Forall (fun a => length a = n) (normalize_channels rate s e arrs).
Proof.
  intros H. unfold normalize_channels. destruct (num_is_zero _); [exact H|].
  apply Forall_map_length; [intros a; apply update_region_length | exact H].
Qed.

Lemma noiseGate_channels_shape (rate s e : Q) (n : nat) (arrs : list (list num)) :
  Forall (fun a => length a = n) arrs ->
  Forall (fun a => length a = n) (noiseGate_channels rate s e arrs).
Proof.
  intros H. unfold noiseGate_channels.
  apply Forall_map_length; [intros a; apply update_region_length | exact H].
Qed.

(** The buffer an effect returns is the one just allocated for it, and its
    channels hold as many samples as it says. *)
Lemma effect_result (chain : Q -> list (list num) -> list (list num))
    (eff : effect) (h h' : heap) (b nb : AudioBuffer) (start end_ : Q) :
  wf_buffer h b = true ->
  apply_effect chain eff b start end_ h = (h', Ok nb) ->
  wf_buffer h' nb = true /\
  exists g : heap,
    nb = fresh_buffer g (numberOfChannels b)
           match eff with
           | Trim => Z.to_nat (toSample end_ (sampleRate b)
                               - toSample start (sampleRate b))
           | _ => buf_length b
           end
           (sampleRate b).
Proof.
  intros Hwf Hrun.
  pose proof (wf_buffer_lengths h b Hwf) as Hlens.
  set (so := toSample start (sampleRate b)) in *.
  set (eo := toSample end_ (sampleRate b)) in *.
  destruct eff as [|d|d| | |]; simpl in Hrun.
  - destruct (Z.le_gt_cases (eo - so) 0) as [Hle|Hgt].
    { rewrite trimAudioBuffer_fail in Hrun by exact Hle. discriminate. }
    rewrite trimAudioBuffer_spec in Hrun by (try exact Hwf; fold so eo; lia).
    fold so eo in Hrun. injection Hrun as <- <-.
    split; [|eexists; reflexivity].
    unfold numberOfChannels.
    rewrite <- (length_map (get h) (channelData b)).
    rewrite <- (length_map (trim_channel so eo)).
    apply wf_buffer_fresh, Forall_fmap, Forall_forall. intros a _. simpl.
    apply trim_channel_length. lia.
  - rewrite applyFadeIn_spec in Hrun by exact Hwf. injection Hrun as <- <-.
    split; [|eexists; reflexivity].
    apply effect_result_wf; [exact Hwf | | apply fadeIn_channels_shape, Hlens].
    rewrite fadeIn_channels_length. apply length_map.
  - rewrite applyFadeOut_spec in Hrun by exact Hwf. injection Hrun as <- <-.
    split; [|eexists; reflexivity].
    apply effect_result_wf; [exact Hwf | | apply fadeOut_channels_shape, Hlens].
    rewrite fadeOut_channels_length. apply length_map.
  - rewrite applyNormalize_spec in Hrun by exact Hwf. injection Hrun as <- <-.
    split; [|eexists; reflexivity].
    apply effect_result_wf; [exact Hwf | | apply normalize_channels_shape, Hlens].
    rewrite normalize_channels_length. apply length_map.
  - rewrite applyNoiseReduction_spec in Hrun by exact Hwf. injection Hrun as <- <-.
    split; [|eexists; reflexivity].
    apply effect_result_wf; [exact Hwf | | apply noiseGate_channels_shape, Hlens].
    rewrite noiseGate_channels_length. apply length_map.
  - destruct (Z.le_gt_cases (eo - so) 0) as [Hle|Hgt].
    { unfold applyStudioEffect in Hrun. rewrite run_bind in Hrun.
      rewrite trimAudioBuffer_fail in Hrun by exact Hle. discriminate. }
    rewrite applyStudioEffect_run in Hrun by (try exact Hwf; fold so eo; lia).
    fold so eo in Hrun. rewrite run_bind in Hrun.
    match type of Hrun with context [forM ?ps ?f ?h3] =>
      destruct (forM ps f h3) as [h4 [[]|e]] eqn:Eloop
    end; [|discriminate].
    rewrite run_ret in Hrun. injection Hrun as <- <-.
    split; [|eexists; reflexivity].
    rewrite (wf_buffer_same_lengths _ _ _ (splice_lengths _ _ _ _ _ Eloop)).
    apply effect_result_wf; [do 2 apply wf_buffer_app; exact Hwf | apply length_map
                            | exact Hlens].
Qed.

(** X6.  Whatever effect succeeds on a well-formed buffer, its result is again a
    well-formed buffer (every channel allocated, with [length] samples) with the
    channel count and the sample rate of the source; its length is the
    selection's frame count for the trim and the source's length for the
    others.  So the effects can be chained. *)
Theorem apply_effect_shape (chain : Q -> list (list num) -> list (list num))
    (eff : effect) (h h' : heap) (b nb : AudioBuffer) (start end_ : Q) :
  wf_buffer h b = true ->
  apply_effect chain eff b start end_ h = (h', Ok nb) ->
  wf_buffer h' nb = true /\
  numberOfChannels nb = numberOfChannels b /\
  sampleRate nb = sampleRate b /\
  buf_length nb =
    match eff with
    | Trim => Z.to_nat (toSample end_ (sampleRate b) - toSample start (sampleRate b))
    | _ => buf_length b
    end.
Proof.
  intros Hwf Hrun.
  destruct (effect_result chain eff h h' b nb start end_ Hwf Hrun)
    as (Hwf' & g & Hnb).
  split; [exact Hwf'|]. rewrite Hnb. unfold fresh_buffer, numberOfChannels.
  cbn [channelData sampleRate buf_length].
  split; [apply length_seq|]. split; [reflexivity|].
  destruct eff; reflexivity.
Qed.

Lemma apply_effect_shape_witness :
  exists (h' : heap) (nb : AudioBuffer),
    apply_effect (fun _ chs => chs) Normalize four_ones_buffer 0 (4 # 1) four_ones
    = (h', Ok nb) /\
    wf_buffer h' nb = true /\ buf_length nb = 4%nat.
Proof.
  destruct (apply_effect (fun _ chs => chs) Normalize four_ones_buffer 0 (4 # 1)
              four_ones) as [h' [nb|e]] eqn:E.
  - exists h', nb. split; [reflexivity|].
    pose proof (apply_effect_shape (fun _ chs => chs) Normalize four_ones h'
                  four_ones_buffer nb 0 (4 # 1) eq_refl E) as (Hwf & _ & _ & Hlen).
    split; [exact Hwf | exact Hlen].
  - vm_compute in E. discriminate.
Defined.

(** ** Quantisation of a sample to 16 bits *)

Lemma trunc_nonneg (q : Q) : (0 <= q)%Q -> trunc q = Qfloor q.
Proof. intros H. unfold trunc. apply Qle_bool_iff in H. rewrite H. reflexivity. Qed.

Lemma trunc_neg (q : Q) : (q < 0)%Q -> trunc q = Qceiling q.
Proof.
  intros H. unfold trunc. destruct (Qle_bool 0 q) eqn:E; [|reflexivity].
  apply Qle_bool_iff in E. lra.
Qed.

Lemma Qle_bool_true (x y : Q) : (x <= y)%Q -> Qle_bool x y = true.
Proof. apply Qle_bool_iff. Qed.

Lemma Qle_bool_gt (x y : Q) : (y < x)%Q -> Qle_bool x y = false.
Proof.
  intros H. destruct (Qle_bool x y) eqn:E; [|reflexivity].
  apply Qle_bool_iff in E. lra.
Qed.

Lemma clamp_mono (x y : Q) : (x <= y)%Q -> (clamp x <= clamp y)%Q.
Proof.
  intros H. unfold clamp.
  destruct (Qlt_le_dec (-1) x) as [Hx|Hx]; [rewrite (Qle_bool_gt x (-1)) by exact Hx
                                           | rewrite (Qle_bool_true x (-1)) by exact Hx];
  destruct (Qlt_le_dec (-1) y) as [Hy|Hy];
    try rewrite (Qle_bool_gt y (-1)) by exact Hy;
    try rewrite (Qle_bool_true y (-1)) by exact Hy;
  destruct (Qlt_le_dec x 1) as [Hx1|Hx1];
    try rewrite (Qle_bool_gt 1 x) by exact Hx1;
    try rewrite (Qle_bool_true 1 x) by exact Hx1;
  destruct (Qlt_le_dec y 1) as [Hy1|Hy1];
    try rewrite (Qle_bool_gt 1 y) by exact Hy1;
    try rewrite (Qle_bool_true 1 y) by exact Hy1; lra.
Qed.

Lemma clamp_id (x : Q) : (-1 < x < 1)%Q -> clamp x = x.
Proof.
  intros [Hlo Hhi]. unfold clamp.
  rewrite (Qle_bool_gt x (-1)) by exact Hlo.
  rewrite (Qle_bool_gt 1 x) by exact Hhi. reflexivity.
Qed.

Lemma Qceiling_nonpos (q : Q) : (q <= 0)%Q -> Qceiling q <= 0.
Proof.
  intros H. change 0 with (Qceiling 0). apply Qceiling_resp_le, H.
Qed.

Lemma Qfloor_nonneg (q : Q) : (0 <= q)%Q -> 0 <= Qfloor q.
Proof.
  intros H. change 0 with (Qfloor 0). apply Qfloor_resp_le, H.
Qed.

Lemma pcm16_nonneg (x : Q) : (0 <= clamp x)%Q -> pcm16 x = Qfloor (clamp x * 32767).
Proof.
  intros H. unfold pcm16. rewrite (Qle_bool_true 0 (clamp x)) by exact H.
  apply trunc_nonneg. lra.
Qed.

Lemma pcm16_neg (x : Q) : (clamp x < 0)%Q -> pcm16 x = Qceiling (clamp x * 32768).
Proof.
  intros H. unfold pcm16. rewrite (Qle_bool_gt 0 (clamp x)) by exact H.
  apply trunc_neg. lra.
Qed.

Lemma pcm16_mono (x y : Q) : (x <= y)%Q -> pcm16 x <= pcm16 y.
Proof.
  intros H. apply clamp_mono in H.
  destruct (Qlt_le_dec (clamp x) 0) as [Hx|Hx], (Qlt_le_dec (clamp y) 0) as [Hy|Hy].
  - rewrite !pcm16_neg by assumption. apply Qceiling_resp_le. lra.
  - rewrite pcm16_neg, pcm16_nonneg by assumption.
    apply Z.le_trans with 0; [apply Qceiling_nonpos | apply Qfloor_nonneg]; lra.
  - lra.
  - rewrite !pcm16_nonneg by assumption. apply Qfloor_resp_le. lra.
Qed.

(** X7.  The sample conversion of [floatTo16BitPCM] keeps the order of the samples,
    saturates at full scale (1 and above gives 32767, -1 and below gives
    -32768), stores 0 for silence and for [NaN], and otherwise truncates the
    scaled sample toward zero: the stored integer is less than one step away
    from it, on the side of zero. *)
Theorem floatTo16BitPCM_quantisation :
  (forall x y : Q, (x <= y)%Q ->
     to_integer (pcm_value (Fin x)) <= to_integer (pcm_value (Fin y))) /\
  (forall x : Q, (1 <= x)%Q -> to_integer (pcm_value (Fin x)) = 32767) /\
  (forall x : Q, (x <= -1)%Q -> to_integer (pcm_value (Fin x)) = -32768) /\
  to_integer (pcm_value (Fin 0)) = 0 /\
  to_integer (pcm_value NaN) = 0 /\
  (forall x : Q, (0 <= x < 1)%Q ->
     let v := to_integer (pcm_value (Fin x)) in
     (inject_Z v <= x * 32767 < inject_Z v + 1)%Q) /\
  (forall x : Q, (-1 < x < 0)%Q ->
     let v := to_integer (pcm_value (Fin x)) in
     (inject_Z v - 1 < x * 32768 <= inject_Z v)%Q).
Proof.
  split; [intros x y H; rewrite !pcm_value_pcm16; apply pcm16_mono, H|].
  split.
  { intros x Hx. rewrite pcm_value_pcm16.
    assert (E : clamp x = 1%Q).
    { unfold clamp. rewrite (Qle_bool_gt x (-1)) by lra.
      rewrite (Qle_bool_true 1 x) by exact Hx. reflexivity. }
    unfold pcm16. rewrite E. reflexivity. }
  split.
  { intros x Hx. rewrite pcm_value_pcm16.
    assert (E : clamp x = (-1)%Q).
    { unfold clamp. rewrite (Qle_bool_true x (-1)) by exact Hx. reflexivity. }
    unfold pcm16. rewrite E. reflexivity. }
  split; [reflexivity|]. split; [reflexivity|].
  split.
  - intros x [Hlo Hhi] v. unfold v. rewrite pcm_value_pcm16.
    rewrite pcm16_nonneg by (rewrite clamp_id; lra).
    rewrite clamp_id by lra.
    pose proof (Qfloor_le (x * 32767)) as Hf.
    pose proof (Qlt_floor (x * 32767)) as Hl.
    rewrite inject_Z_plus in Hl. change (inject_Z 1) with 1%Q in Hl.
    split; [exact Hf | exact Hl].
  - intros x [Hlo Hhi] v. unfold v. rewrite pcm_value_pcm16.
    rewrite pcm16_neg by (rewrite clamp_id; lra).
    rewrite clamp_id by lra.
    pose proof (Qle_ceiling (x * 32768)) as Hc.
    pose proof (Qceiling_lt (x * 32768)) as Hl.
    split; [|exact Hc].
    replace (Qceiling (x * 32768)) with (Qceiling (x * 32768) - 1 + 1)%Z by lia.
    rewrite inject_Z_plus. change (inject_Z 1) with 1%Q. lra.
Qed.

(** ** The encoder on any buffer *)

(** The thirteen header writes, whatever the two rate fields hold. *)
Lemma header_writes_any {B : Type} (total channels : Z) (rate rate2 : num)
    (rest : list Z) (k : list Z -> result B) :
  (view ← writeString (replicate 44 0 ++ rest) 0 "RIFF"%string;
   view ← setUint32 view 4 (of_Z (total - 8));
   view ← writeString view 8 "WAVE"%string;
   view ← writeString view 12 "fmt "%string;
   view ← setUint32 view 16 (of_Z 16);
   view ← setUint16 view 20 (of_Z 1);
   view ← setUint16 view 22 (of_Z channels);
   view ← setUint32 view 24 rate;
   view ← setUint32 view 28 rate2;
   view ← setUint16 view 32 (of_Z (channels * 2));
   view ← setUint16 view 34 (of_Z 16);
   view ← writeString view 36 "data"%string;
   view ← setUint32 view 40 (of_Z (total - Z.of_nat 40 - 4));
   k view)
  = k ((charCodes "RIFF"%string ++ uint32_le (total - 8) ++
        charCodes "WAVE"%string ++
        charCodes "fmt "%string ++ uint32_le 16 ++
        uint16_le 1 ++ uint16_le channels ++
        uint32_le (to_integer rate) ++ uint32_le (to_integer rate2) ++
        uint16_le (channels * 2) ++ uint16_le 16 ++
        charCodes "data"%string ++ uint32_le (total - 44)) ++ rest).
Proof.
  replace (total - Z.of_nat 40 - 4) with (total - 44) by lia.
  unfold writeString, setUint32, setUint16, setUint8.
  rewrite !to_integer_of_Z.
  cbn [replicate app writeString_from setBytes overwrite mbind result_bind mret
       result_ret setUint8 uint8_le uint16_le uint32_le charCodes map
       list_ascii_of_string].
  reflexivity.
Qed.

Lemma uint16_le_bytes (v : Z) : Forall (fun x => 0 <= x < 256) (uint16_le v).
Proof. unfold uint16_le. repeat constructor; apply Z.mod_pos_bound; lia. Qed.

Lemma uint32_le_bytes (v : Z) : Forall (fun x => 0 <= x < 256) (uint32_le v).
Proof. unfold uint32_le. repeat constructor; apply Z.mod_pos_bound; lia. Qed.

Lemma pcm_data_bytes (input : list num) :
  Forall (fun x => 0 <= x < 256)
         (flat_map (fun x => uint16_le (to_integer (pcm_value x))) input) /\
  length (flat_map (fun x => uint16_le (to_integer (pcm_value x))) input)
  = (2 * length input)%nat.
Proof.
  induction input as [|x input [IH1 IH2]]; [split; [constructor | reflexivity]|].
  cbn [flat_map]. split.
  - apply Forall_app. split; [apply uint16_le_bytes | exact IH1].
  - rewrite length_app, IH2. simpl. lia.
Qed.

(** The whole encoder as one value: the header fields, then the samples. *)
Lemma audioBufferToWavBlob_run (h : heap) (b : AudioBuffer) :
  let channels := Z.of_nat (numberOfChannels b) in
  let total := Z.of_nat (buf_length b) * channels * 2 + 44 in
  audioBufferToWavBlob h b =
  Ok ((charCodes "RIFF"%string ++ uint32_le (total - 8) ++
       charCodes "WAVE"%string ++
       charCodes "fmt "%string ++ uint32_le 16 ++
       uint16_le 1 ++ uint16_le channels ++
       uint32_le (trunc (sampleRate b)) ++
       uint32_le (trunc (sampleRate b * 2 * inject_Z channels)) ++
       uint16_le (channels * 2) ++ uint16_le 16 ++
       charCodes "data"%string ++ uint32_le (total - 44)) ++
      flat_map (fun x => uint16_le (to_integer (pcm_value x)))
        (interleave (map (get h) (channelData b)) (buf_length b))).
Proof.
  intros channels total.
  set (interleaved := interleave (map (get h) (channelData b)) (buf_length b)).
  assert (Hil : length interleaved = (buf_length b * numberOfChannels b)%nat).
  { unfold interleaved. rewrite interleave_length, length_map. reflexivity. }
  unfold audioBufferToWavBlob. cbv zeta. cbn [Nat.add].
  fold channels. fold interleaved. fold total.
  replace (Z.to_nat total)
    with (44 + 2 * length interleaved)%nat
    by (rewrite Hil; unfold total, channels; lia).
  rewrite replicate_add.
  rewrite (header_writes_any total channels (Fin (sampleRate b))
             (num_mul (num_mul (Fin (sampleRate b)) (of_Z 2)) (of_Z channels))).
  match goal with |- floatTo16BitPCM (?hd ++ _) _ _ = _ =>
    pose proof (floatTo16BitPCM_spec interleaved hd) as Hpcm
  end.
  exact Hpcm.
Qed.

(** X8.  [audioBufferToWavBlob] never fails: for every buffer, whatever its sample
    rate and its samples, every write lands inside the view.  The file has
    44 + 2 * frames * channels bytes, each in [0, 256); the RIFF size field
    reads as the file length minus 8 and the data size field as the file length
    minus 44 (modulo 2^32); the rate fields hold the truncated sample rate and
    the truncated rate * 2 * channels. *)
Theorem audioBufferToWavBlob_total (h : heap) (b : AudioBuffer) :
  exists bytes : list Z,
    audioBufferToWavBlob h b = Ok bytes /\
    length bytes = (44 + 2 * (buf_length b * numberOfChannels b))%nat /\
    Forall (fun x => 0 <= x < 256) bytes /\
    le_value (slice 4 4 bytes) = (Z.of_nat (length bytes) - 8) mod 2 ^ 32 /\
    le_value (slice 40 4 bytes) = (Z.of_nat (length bytes) - 44) mod 2 ^ 32 /\
    le_value (slice 24 4 bytes) = trunc (sampleRate b) mod 2 ^ 32 /\
    le_value (slice 28 4 bytes)
    = trunc (sampleRate b * 2 * inject_Z (Z.of_nat (numberOfChannels b))) mod 2 ^ 32.
Proof.
  pose proof (audioBufferToWavBlob_run h b) as Hrun. cbv zeta in Hrun.
  set (channels := Z.of_nat (numberOfChannels b)) in *.
  set (total := Z.of_nat (buf_length b) * channels * 2 + 44) in *.
  set (interleaved := interleave (map (get h) (channelData b)) (buf_length b)) in *.
  destruct (pcm_data_bytes interleaved) as [Hbytes Hdata].
  assert (Hil : length interleaved = (buf_length b * numberOfChannels b)%nat).
  { unfold interleaved. rewrite interleave_length, length_map. reflexivity. }
  eexists. split; [exact Hrun|].
  assert (Hlen : length
            ((charCodes "RIFF"%string ++ uint32_le (total - 8) ++
              charCodes "WAVE"%string ++
              charCodes "fmt "%string ++ uint32_le 16 ++
              uint16_le 1 ++ uint16_le channels ++
              uint32_le (trunc (sampleRate b)) ++
              uint32_le (trunc (sampleRate b * 2 * inject_Z channels)) ++
              uint16_le (channels * 2) ++ uint16_le 16 ++
              charCodes "data"%string ++ uint32_le (total - 44)) ++
             flat_map (fun x => uint16_le (to_integer (pcm_value x))) interleaved)
          = (44 + 2 * (buf_length b * numberOfChannels b))%nat).
  { rewrite length_app, Hdata, Hil. reflexivity. }
  split; [exact Hlen|].
  split.
  { apply Forall_app. split; [|exact Hbytes].
    repeat (apply Forall_app; split);
      try apply uint32_le_bytes; try apply uint16_le_bytes;
      repeat constructor; lia. }
  rewrite Hlen.
  replace (Z.of_nat (44 + 2 * (buf_length b * numberOfChannels b))) with total
    by (unfold total, channels; lia).
  repeat split.
  - change (slice 4 4 _) with (uint32_le (total - 8)). apply uint32_le_value.
  - change (slice 40 4 _) with (uint32_le (total - 44)). apply uint32_le_value.
  - change (slice 24 4 _) with (uint32_le (trunc (sampleRate b))).
    apply uint32_le_value.
  - change (slice 28 4 _)
      with (uint32_le (trunc (sampleRate b * 2 * inject_Z channels))).
    apply uint32_le_value.
Qed.

(** ** The edit history from any state *)

Lemma updateHistory_fields (st : Editor) (b : AudioBuffer) :
  -1 <= historyIndex st < Z.of_nat (length (history st)) ->
  history (updateHistory st b)
  = take (Z.to_nat (historyIndex st + 1)) (history st) ++ [b] /\
  historyIndex (updateHistory st b) = historyIndex st + 1 /\
  audioBuffer (updateHistory st b) = Some b.
Proof.
  intros Hinv. unfold updateHistory. cbn [history historyIndex audioBuffer].
  rewrite array_slice_prefix by lia. split; [reflexivity|]. split; [|reflexivity].
  rewrite length_app, length_take. simpl length. lia.
Qed.

Lemma history_at_lookup (st : Editor) (i : Z) :
  0 <= i -> history_at st i = history st !! Z.to_nat i.
Proof.
  intros Hi. unfold history_at. destruct (Z.ltb_spec i 0); [lia | reflexivity].
Qed.

Lemma Editor_eta (st : Editor) :
  st = mkEditor (history st) (historyIndex st) (audioBuffer st).
Proof. destruct st; reflexivity. Qed.

(** X9.  The history handlers keep the index inside the history (or at -1 while
    it is empty) and the current buffer equal to the entry at the index: this
    holds before a file is loaded and after every commit, undo and redo. *)
Theorem history_ok_preserved (st : Editor) (newBuffer : AudioBuffer) :
  history_ok emptyEditor /\
  (history_ok st ->
   history_ok (updateHistory st newBuffer) /\
   history_ok (handleUndo st) /\
   history_ok (handleRedo st) /\
   0 <= historyIndex (updateHistory st newBuffer) /\
   (0 <= historyIndex st ->
    0 <= historyIndex (handleUndo st) /\ 0 <= historyIndex (handleRedo st))).
Proof.
  split; [split; [simpl; lia | reflexivity]|].
  intros [Hidx Hcur].
  destruct (updateHistory_fields st newBuffer Hidx) as (Hh & Hi & Hb).
  split; [|split; [|split; [|split]]].
  - split.
    + rewrite Hh, Hi, length_app, length_take. simpl length. lia.
    + rewrite Hb, history_at_lookup by lia. rewrite Hh, Hi.
      rewrite lookup_app_r by (rewrite length_take; lia).
      rewrite length_take.
      replace (Z.to_nat (historyIndex st + 1)
               - Z.to_nat (historyIndex st + 1) `min` length (history st))%nat
        with 0%nat by lia.
      reflexivity.
  - unfold handleUndo. destruct (Z.ltb_spec 0 (historyIndex st)).
    + split; [cbn [history historyIndex]; lia | reflexivity].
    + split; assumption.
  - unfold handleRedo.
    destruct (Z.ltb_spec (historyIndex st) (Z.of_nat (length (history st)) - 1)).
    + split; [cbn [history historyIndex]; lia | reflexivity].
    + split; assumption.
  - lia.
  - intros Hpos. unfold handleUndo, handleRedo.
    destruct (Z.ltb_spec 0 (historyIndex st));
    destruct (Z.ltb_spec (historyIndex st) (Z.of_nat (length (history st)) - 1));
      cbn [historyIndex]; lia.
Qed.

Lemma history_ok_preserved_witness :
  history_ok (updateHistory emptyEditor four_ones_buffer) /\
  history_ok (handleUndo (updateHistory emptyEditor four_ones_buffer)).
Proof.
  assert (H0 : history_ok emptyEditor)
    by exact (proj1 (history_ok_preserved emptyEditor four_ones_buffer)).
  pose proof (proj2 (history_ok_preserved emptyEditor four_ones_buffer) H0)
    as (H1 & _).
  split; [exact H1|].
  exact (proj1 (proj2 (proj2 (history_ok_preserved
                                (updateHistory emptyEditor four_ones_buffer)
                                four_ones_buffer) H1))).
Defined.

(** X10.  Undo and redo are inverse to each other: a redo after an undo that moved,
    and an undo after a redo that moved, give back the state, history, index
    and current buffer alike. *)
Theorem handleUndo_handleRedo_inverse (st : Editor) :
  history_ok st ->
  (0 < historyIndex st -> handleRedo (handleUndo st) = st) /\
  (0 <= historyIndex st < Z.of_nat (length (history st)) - 1 ->
   handleUndo (handleRedo st) = st).
Proof.
  destruct st as [hs i cur]. unfold history_ok. cbn [history historyIndex audioBuffer].
  intros [Hidx Hcur]. split.
  - intros Hpos. unfold handleUndo. cbn [history historyIndex].
    destruct (Z.ltb_spec 0 i); [|lia].
    unfold handleRedo. cbn [history historyIndex].
    destruct (Z.ltb_spec (i - 1) (Z.of_nat (length hs) - 1)); [|lia].
    replace (i - 1 + 1) with i by lia. f_equal. rewrite Hcur. reflexivity.
  - intros Hpos. unfold handleRedo. cbn [history historyIndex].
    destruct (Z.ltb_spec i (Z.of_nat (length hs) - 1)); [|lia].
    unfold handleUndo. cbn [history historyIndex].
    destruct (Z.ltb_spec 0 (i + 1)); [|lia].
    replace (i + 1 - 1) with i by lia. f_equal. rewrite Hcur. reflexivity.
Qed.

Lemma handleUndo_handleRedo_inverse_witness :
  let st := updateHistory (updateHistory emptyEditor four_ones_buffer) one_second in
  handleRedo (handleUndo st) = st /\
  handleUndo (handleRedo (handleUndo st)) = handleUndo st.
Proof.
  cbv zeta. split.
  - apply (handleUndo_handleRedo_inverse
             (updateHistory (updateHistory emptyEditor four_ones_buffer) one_second)).
    + split; [simpl; lia | reflexivity].
    + simpl. lia.
  - apply (handleUndo_handleRedo_inverse
             (handleUndo
                (updateHistory (updateHistory emptyEditor four_ones_buffer)
                   one_second))).
    + split; [simpl; lia | reflexivity].
    + simpl. lia.
Defined.

(** X11.  A commit can be undone and redone: from a state with a current buffer, an
    undo right after a commit makes the previous buffer current again, at the
    previous index, and a redo after that gives back the state of the commit.
    A redo right after a commit changes nothing, whatever the state was: the
    entries after the index are gone. *)
Theorem updateHistory_undo_redo (st : Editor) (newBuffer : AudioBuffer) :
  handleRedo (updateHistory st newBuffer) = updateHistory st newBuffer /\
  (history_ok st -> 0 <= historyIndex st ->
   audioBuffer (handleUndo (updateHistory st newBuffer)) = audioBuffer st /\
   historyIndex (handleUndo (updateHistory st newBuffer)) = historyIndex st /\
   handleRedo (handleUndo (updateHistory st newBuffer)) = updateHistory st newBuffer).
Proof.
  split.
  - unfold handleRedo, updateHistory. cbn [history historyIndex].
    destruct (Z.ltb_spec
                (Z.of_nat (length (array_slice (history st) 0 (historyIndex st + 1)
                                     ++ [newBuffer])) - 1)
                (Z.of_nat (length (array_slice (history st) 0 (historyIndex st + 1)
                                     ++ [newBuffer])) - 1)); [lia | reflexivity].
  - intros [Hidx Hcur] Hpos.
    destruct (updateHistory_fields st newBuffer Hidx) as (Hh & Hi & Hb).
    assert (Hundo : handleUndo (updateHistory st newBuffer)
                    = mkEditor (history (updateHistory st newBuffer))
                        (historyIndex st) (audioBuffer st)).
    { unfold handleUndo. rewrite Hi.
      destruct (Z.ltb_spec 0 (historyIndex st + 1)); [|lia].
      replace (historyIndex st + 1 - 1) with (historyIndex st) by lia.
      f_equal. rewrite history_at_lookup by lia. rewrite Hh.
      rewrite lookup_app_l by (rewrite length_take; lia).
      rewrite lookup_take_lt by lia.
      rewrite Hcur, history_at_lookup by lia. reflexivity. }
    rewrite Hundo. cbn [audioBuffer historyIndex].
    split; [reflexivity|]. split; [reflexivity|].
    unfold handleRedo. cbn [history historyIndex].
    rewrite Hh at 1. rewrite length_app, length_take. simpl length.
    destruct (Z.ltb_spec (historyIndex st)
                (Z.of_nat (Z.to_nat (historyIndex st + 1) `min` length (history st) + 1)
                 - 1)); [|lia].
    rewrite (Editor_eta (updateHistory st newBuffer)) at 3.
    rewrite Hi, Hb. f_equal.
    unfold history_at. cbn [history].
    destruct (Z.ltb_spec (historyIndex st + 1) 0); [lia|].
    rewrite Hh. rewrite lookup_app_r by (rewrite length_take; lia).
    rewrite length_take.
    replace (Z.to_nat (historyIndex st + 1)
             - Z.to_nat (historyIndex st + 1) `min` length (history st))%nat
      with 0%nat by lia.
    reflexivity.
Qed.

(** ** Effects from the editor: commit, failure and undo *)

Lemma effect_keeps_heap (chain : Q -> list (list num) -> list (list num))
    (eff : effect) (h h' : heap) (b : AudioBuffer) (start end_ : Q)
    (r : result AudioBuffer) :
  wf_buffer h b = true ->
  apply_effect chain eff b start end_ h = (h', r) ->
  take (length h) h' = h.
Proof.
  intros Hwf Hrun.
  destruct eff; simpl in Hrun.
  - destruct (Z.le_gt_cases
                (toSample end_ (sampleRate b) - toSample start (sampleRate b)) 0)
      as [Hle|Hgt].
    + rewrite trimAudioBuffer_fail in Hrun by exact Hle.
      injection Hrun as <- <-. apply firstn_all.
    + rewrite trimAudioBuffer_spec in Hrun by (try exact Hwf; lia).
      injection Hrun as <- <-. apply take_app_length.
  - rewrite applyFadeIn_spec in Hrun by exact Hwf.
    injection Hrun as <- <-. apply take_app_length.
  - rewrite applyFadeOut_spec in Hrun by exact Hwf.
    injection Hrun as <- <-. apply take_app_length.
  - rewrite applyNormalize_spec in Hrun by exact Hwf.
    injection Hrun as <- <-. apply take_app_length.
  - rewrite applyNoiseReduction_spec in Hrun by exact Hwf.
    injection Hrun as <- <-. apply take_app_length.
  - exact (proj1 (applyStudioEffect_frame chain h b start end_ Hwf h' r Hrun)).
Qed.

Lemma in_place_effect_succeeds (chain : Q -> list (list num) -> list (list num))
    (eff : effect) (h : heap) (b : AudioBuffer) (start end_ : Q) :
  wf_buffer h b = true ->
  match eff with Trim | StudioEffect => False | _ => True end ->
  exists h' nb, apply_effect chain eff b start end_ h = (h', Ok nb).
Proof.
  intros Hwf Heff. destruct eff; try contradiction; simpl.
  - rewrite applyFadeIn_spec by exact Hwf. eauto.
  - rewrite applyFadeOut_spec by exact Hwf. eauto.
  - rewrite applyNormalize_spec by exact Hwf. eauto.
  - rewrite applyNoiseReduction_spec by exact Hwf. eauto.
Qed.

Lemma undo_after_commit (st : Editor) (b nb : AudioBuffer) :
  history_ok st -> 0 <= historyIndex st -> audioBuffer st = Some b ->
  audioBuffer (handleUndo (updateHistory st nb)) = Some b /\
  historyIndex (handleUndo (updateHistory st nb)) = historyIndex st.
Proof.
  intros [Hidx Hcur] Hpos Hb.
  destruct (updateHistory_fields st nb Hidx) as (Hh & Hi & _).
  unfold handleUndo. rewrite Hi.
  destruct (Z.ltb_spec 0 (historyIndex st + 1)); [|lia].
  cbn [audioBuffer historyIndex].
  replace (historyIndex st + 1 - 1) with (historyIndex st) by lia.
  split; [|reflexivity].
  rewrite history_at_lookup by lia. rewrite Hh.
  rewrite lookup_app_l by (rewrite length_take; lia).
  rewrite lookup_take_lt by lia.
  rewrite <- Hb, Hcur, history_at_lookup by lia. reflexivity.
Qed.

(** X12.  An effect run from the editor ([handleEffect]) on the current buffer.
    If the effect throws, the error is shown and the history, the index and
    the current buffer stay as they were.  If it succeeds, the error is
    cleared, the result is committed and current, it is a well-formed buffer,
    and an undo makes the source current again, with the samples it had before
    the effect.  The fades, the normalisation and the noise gate always
    succeed; only the trim and the studio effect can fail. *)
Theorem handleEffect_undoable (chain : Q -> list (list num) -> list (list num))
    (eff : effect) (st : Editor) (selection : SelectionRange)
    (shown : option ui_error) (h : heap) (b : AudioBuffer) :
  history_ok st -> 0 <= historyIndex st -> audioBuffer st = Some b ->
  wf_buffer h b = true ->
  exists (h' : heap) (st' : Editor) (shown' : option ui_error),
    handleEffect st selection shown (apply_effect chain eff) h = (h', st', shown') /\
    (forall c, channel h' b c = channel h b c) /\
    match shown' with
    | None =>
        exists nb, st' = updateHistory st nb /\ audioBuffer st' = Some nb /\
                   wf_buffer h' nb = true /\
                   audioBuffer (handleUndo st') = Some b /\
                   historyIndex (handleUndo st') = historyIndex st
    | Some e => st' = st /\ exists e', e = EffectFailed e'
    end /\
    match eff with
    | Trim | StudioEffect => True
    | _ => shown' = None
    end.
Proof.
  intros Hok Hpos Hb Hwf. unfold handleEffect. rewrite Hb.
  destruct (apply_effect chain eff b (start selection) (end_ selection) h)
    as [h' [nb|e]] eqn:Erun.
  - exists h', (updateHistory st nb), None. split; [reflexivity|].
    split.
    { intros c. apply channel_extends; [exact Hwf|].
      intros l Hl. apply extends_lookup; [|exact Hl].
      eapply effect_keeps_heap; eauto. }
    split.
    { exists nb. split; [reflexivity|]. split; [reflexivity|].
      split; [exact (proj1 (effect_result chain eff h h' b nb _ _ Hwf Erun))|].
      apply undo_after_commit; assumption. }
    destruct eff; auto.
  - exists h', st, (Some (EffectFailed e)). split; [reflexivity|].
    split.
    { intros c. apply channel_extends; [exact Hwf|].
      intros l Hl. apply extends_lookup; [|exact Hl].
      eapply effect_keeps_heap; eauto. }
    split; [split; [reflexivity | eauto]|].
    destruct eff; auto;
      match type of Erun with
      | apply_effect _ ?eff' _ _ _ _ = _ =>
          exfalso;
          destruct (in_place_effect_succeeds chain eff' h b (start selection)
                      (end_ selection) Hwf I) as (h2 & nb2 & E2);
          rewrite E2 in Erun; discriminate
      end.
Qed.

Lemma handleEffect_undoable_witness :
  exists (h' : heap) (st' : Editor),
    handleEffect (updateHistory emptyEditor four_ones_buffer) (mkSelection 0 (4 # 1))
      None (apply_effect (fun _ chs => chs) NoiseGate) four_ones = (h', st', None) /\
    audioBuffer (handleUndo st') = Some four_ones_buffer.
Proof.
  destruct (handleEffect_undoable (fun _ chs => chs) NoiseGate
              (updateHistory emptyEditor four_ones_buffer) (mkSelection 0 (4 # 1))
              None four_ones four_ones_buffer)
    as (h' & st' & shown' & Hrun & _ & Hres & Hnone).
  - split; [simpl; lia | reflexivity].
  - simpl. lia.
  - reflexivity.
  - reflexivity.
  - simpl in Hnone. subst shown'. destruct Hres as (nb & _ & _ & _ & Hundo & _).
    exists h', st'. split; [exact Hrun | exact Hundo].
Defined.

(** ** Cutting the selection into a file *)

Lemma wav_sample_slice (header : list Z) (input : list num) (k : nat) (x : num) :
  length header = 44%nat -> input !! k = Some x ->
  slice (44 + 2 * k) 2
    (header ++ flat_map (fun x => uint16_le (to_integer (pcm_value x))) input)
  = uint16_le (to_integer (pcm_value x)).
Proof.
  intros Hh Hk. unfold slice.
  rewrite drop_app_ge by lia. rewrite Hh.
  replace (44 + 2 * k - 44)%nat with (k * 2)%nat by lia.
  apply (flat_map_chunk (fun x => uint16_le (to_integer (pcm_value x))));
    [reflexivity | exact Hk].
Qed.

(** X13.  [handleTrimAndDownload] on a current buffer.  A selection of no frames
    shows the error and offers no file.  Otherwise the file offered is the WAV
    encoding of the selection: 44 + 2 * frames * channels bytes for the
    [frames = floor(end*sr) - floor(start*sr)] frames of the selection, and,
    when the selection starts inside the buffer, the sample of frame [i] and
    channel [c] is the 16-bit value of source frame [floor(start*sr) + i], or of
    silence past the end of the source. *)
Theorem handleTrimAndDownload_file (h : heap) (b : AudioBuffer)
    (selection : SelectionRange) (shown : option ui_error) :
  wf_buffer h b = true ->
  let so := toSample (start selection) (sampleRate b) in
  let eo := toSample (end_ selection) (sampleRate b) in
  (eo - so <= 0 ->
   handleTrimAndDownload (Some b) selection shown h
   = (h, Some TrimExportFailed, None)) /\
  (0 < eo - so ->
   exists (h' : heap) (blob : list Z),
     handleTrimAndDownload (Some b) selection shown h = (h', shown, Some blob) /\
     length blob = (44 + 2 * (Z.to_nat (eo - so) * numberOfChannels b))%nat /\
     (0 <= so ->
      forall (i c : nat) (a : list num),
        (i < Z.to_nat (eo - so))%nat -> channel h b c = Some a ->
        slice (44 + 2 * (i * numberOfChannels b + c)) 2 blob
        = uint16_le (to_integer (pcm_value
            (if so + Z.of_nat i <? Z.of_nat (length a)
             then index a (so + Z.of_nat i) else zero))))).
Proof.
  intros Hwf so eo. unfold handleTrimAndDownload. split.
  - intros Hle. rewrite trimAudioBuffer_fail by exact Hle. reflexivity.
  - intros Hpos.
    rewrite trimAudioBuffer_spec by (try exact Hwf; fold so eo; lia).
    fold so eo.
    set (arrs := map (get h) (channelData b)).
    set (T := map (trim_channel so eo) arrs).
    set (frames := Z.to_nat (eo - so)).
    set (n := numberOfChannels b).
    assert (HT : length T = n) by (unfold T, arrs; rewrite !length_map; reflexivity).
    unfold downloadBuffer.
    pose proof (audioBufferToWavBlob_run (h ++ T) (fresh_buffer h n frames (sampleRate b)))
      as Hrun.
    cbv zeta in Hrun.
    change (channelData (fresh_buffer h n frames (sampleRate b)))
      with (seq (length h) n) in Hrun.
    change (buf_length (fresh_buffer h n frames (sampleRate b))) with frames in Hrun.
    replace (map (get (h ++ T)) (seq (length h) n)) with T in Hrun
      by (rewrite <- HT; symmetry; apply get_fresh).
    rewrite Hrun. eexists _, _. split; [reflexivity|].
    destruct (pcm_data_bytes (interleave T frames)) as [_ Hdata].
    split.
    { rewrite length_app, Hdata, interleave_length, HT. reflexivity. }
    intros Hso i c a Hi Hc.
    assert (HTc : T !! c = Some (trim_channel so eo a)).
    { unfold T. rewrite list_lookup_fmap. unfold arrs.
      rewrite (channel_get _ _ _ _ Hc). reflexivity. }
    pose proof (interleave_lookup T frames i c _ Hi HTc) as Hil.
    rewrite HT in Hil.
    fold n. erewrite wav_sample_slice; [|reflexivity|exact Hil].
    rewrite trim_channel_index by (unfold frames in Hi; lia). reflexivity.
Qed.

Lemma handleTrimAndDownload_file_witness :
  handleTrimAndDownload (Some four_ones_buffer) (mkSelection (3 # 1) 1) None four_ones
  = (four_ones, Some TrimExportFailed, None) /\
  exists (h' : heap) (blob : list Z),
    handleTrimAndDownload (Some four_ones_buffer) (mkSelection 1 (3 # 1)) None
      four_ones = (h', None, Some blob) /\
    length blob = 48%nat.
Proof.
  split.
  - apply (handleTrimAndDownload_file four_ones four_ones_buffer
             (mkSelection (3 # 1) 1) None eq_refl).
    vm_compute. discriminate.
  - destruct (proj2 (handleTrimAndDownload_file four_ones four_ones_buffer
                       (mkSelection 1 (3 # 1)) None eq_refl))
      as (h' & blob & Hrun & Hlen & _); [reflexivity|].
    exists h', blob. split; [exact Hrun | exact Hlen].
Defined.

(** ** Playback in the editor and in the studio *)

Lemma Q_max_cases (a b : Q) :
  ((a <= b)%Q /\ Q_max a b = b) \/ ((b < a)%Q /\ Q_max a b = a).
Proof.
  unfold Q_max. destruct (Qlt_le_dec b a) as [H|H].
  - right. rewrite (Qle_bool_gt a b) by exact H. auto.
  - left. rewrite (Qle_bool_true a b) by exact H. auto.
Qed.

Lemma Q_min_cases (a b : Q) :
  ((a <= b)%Q /\ Q_min a b = a) \/ ((b < a)%Q /\ Q_min a b = b).
Proof.
  unfold Q_min. destruct (Qlt_le_dec b a) as [H|H].
  - right. rewrite (Qle_bool_gt a b) by exact H. auto.
  - left. rewrite (Qle_bool_true a b) by exact H. auto.
Qed.

Lemma Qle_bool_cases (a b : Q) :
  ((a <= b)%Q /\ Qle_bool a b = true) \/ ((b < a)%Q /\ Qle_bool a b = false).
Proof.
  destruct (Qlt_le_dec b a) as [H|H].
  - right. split; [exact H | apply Qle_bool_gt, H].
  - left. split; [exact H | apply Qle_bool_true, H].
Qed.

(** The offset the editor starts from. *)
Lemma editor_offset (selection : SelectionRange) (startOffset : Q) :
  (start selection < end_ selection)%Q ->
  let offset :=
    if Qle_bool (end_ selection) startOffset then start selection
    else Q_max (start selection) startOffset in
  (start selection <= offset)%Q /\ (offset < end_ selection)%Q /\
  Qle_bool (end_ selection - offset) 0 = false /\
  ((start selection <= startOffset)%Q -> (startOffset < end_ selection)%Q ->
   offset = startOffset) /\
  ((startOffset < start selection)%Q \/ (end_ selection <= startOffset)%Q ->
   offset = start selection).
Proof.
  intros Hsel offset. unfold offset.
  destruct (Qle_bool_cases (end_ selection) startOffset) as [[H ->]|[H ->]].
  - split; [lra|]. split; [exact Hsel|]. split; [apply Qle_bool_gt; lra|].
    split; [intros; lra | reflexivity].
  - destruct (Q_max_cases (start selection) startOffset) as [[Hm ->]|[Hm ->]].
    + split; [exact Hm|]. split; [exact H|]. split; [apply Qle_bool_gt; lra|].
      split; [reflexivity|]. intros [Hlt|Hge]; lra.
    + split; [lra|]. split; [exact Hsel|]. split; [apply Qle_bool_gt; lra|].
      split; [intros; lra | reflexivity].
Qed.

(** X14.  [startPlayback] in the editor, on a selection with its end after its
    start: one source is started at once, through the volume gain, and it plays
    a range that begins inside the selection and ends at the selection's end.
    It begins at the requested offset if that lies in the selection, and at the
    selection's start if the offset is before the selection or at or after its
    end.  The position shown and the start offset are the beginning of that
    range. *)
Theorem startPlayback_editor (st : Player.Playback) (now : Q) (b : AudioBuffer)
    (selection : SelectionRange) (tracks : list Track) (volume startOffset : Q) :
  (start selection < end_ selection)%Q ->
  let st' := Player.startPlayback st now Player.editor (Some b) selection tracks
               volume startOffset in
  exists src : Player.BufferSource,
    Player.audioSource st' = Some src /\
    Player.studioSourceNodes st' = [] /\
    Player.source_when src = 0%Q /\
    Player.source_gain src = volume /\
    (start selection <= Player.source_offset src)%Q /\
    (Player.source_offset src < end_ selection)%Q /\
    (Player.source_offset src + Player.source_duration src == end_ selection)%Q /\
    Player.playbackStartOffset st' = Player.source_offset src /\
    Player.currentTime st' = Player.source_offset src /\
    Player.playbackStartTime st' = now /\
    Player.isPlaying st' = true /\
    ((start selection <= startOffset)%Q -> (startOffset < end_ selection)%Q ->
     Player.source_offset src = startOffset) /\
    ((startOffset < start selection)%Q \/ (end_ selection <= startOffset)%Q ->
     Player.source_offset src = start selection).
Proof.
  intros Hsel st'.
  destruct (editor_offset selection startOffset Hsel) as (Hlo & Hhi & Hdur & Hin & Hout).
  unfold st', Player.startPlayback. cbv zeta. rewrite Hdur.
  eexists. split; [reflexivity|]. cbn.
  split; [reflexivity|]. split; [reflexivity|]. split; [reflexivity|].
  split; [exact Hlo|]. split; [exact Hhi|]. split; [ring|].
  split; [reflexivity|]. split; [reflexivity|]. split; [reflexivity|].
  split; [reflexivity|]. split; [exact Hin | exact Hout].
Qed.

Lemma startPlayback_editor_witness :
  exists src : Player.BufferSource,
    Player.audioSource
      (Player.startPlayback (Player.mkPlayback None [] 0 0 false 0) 0 Player.editor
         (Some four_ones_buffer) (mkSelection 1 (3 # 1)) [] 1 (2 # 1)) = Some src /\
    Player.source_offset src = (2 # 1)%Q.
Proof.
  destruct (startPlayback_editor (Player.mkPlayback None [] 0 0 false 0) 0
              four_ones_buffer (mkSelection 1 (3 # 1)) [] 1 (2 # 1))
    as (src & Hsrc & _ & _ & _ & _ & _ & _ & _ & _ & _ & _ & Hin & _).
  - reflexivity.
  - exists src. split; [exact Hsrc|]. apply Hin.
    + simpl. vm_compute. discriminate.
    + reflexivity.
Defined.

(** What holds of the editor's transport from [startPlayback] on. *)
Lemma loop_editor_inv (selection : SelectionRange) (t0 : Q) (st : Player.Playback)
    (now : Q) :
  (start selection <= end_ selection)%Q ->
  (t0 <= now)%Q ->
  Player.playbackStartTime st = t0 /\
  (start selection <= Player.playbackStartOffset st)%Q /\
  (start selection <= Player.currentTime st <= end_ selection)%Q /\
  (Player.isPlaying st = false ->
   Player.currentTime st = end_ selection /\ Player.audioSource st = None) ->
  let st' := Player.loop st now Player.editor selection in
  Player.playbackStartTime st' = t0 /\
  (start selection <= Player.playbackStartOffset st')%Q /\
  (start selection <= Player.currentTime st' <= end_ selection)%Q /\
  (Player.isPlaying st' = false ->
   Player.currentTime st' = end_ selection /\ Player.audioSource st' = None).
Proof.
  intros Hsel Hnow (Ht0 & Hoff & Hcur & Hstop) st'. unfold st', Player.loop.
  destruct (Player.isPlaying st) eqn:Eplay; simpl negb; cbv iota.
  2:{ rewrite Eplay. auto. }
  cbv zeta.
  destruct (Qle_bool_cases (end_ selection)
              (Player.playbackStartOffset st + (now - Player.playbackStartTime st)))
    as [[H ->]|[H ->]]; cbn.
  - split; [exact Ht0|]. split; [exact Hoff|]. split; [lra|]. auto.
  - split; [exact Ht0|]. split; [exact Hoff|]. rewrite Ht0 in *.
    split; [lra | discriminate].
Qed.

(** X15.  Editor playback never leaves the selection: after [startPlayback] and any
    number of runs of the animation loop, at times not before the start, the
    position shown lies between the selection's start and end; and when the
    loop has stopped the playback, the position is the selection's end and the
    source is released. *)
Theorem editor_playback_in_selection (st : Player.Playback) (now : Q)
    (b : AudioBuffer) (selection : SelectionRange) (tracks : list Track)
    (volume startOffset : Q) (times : list Q) :
  (start selection < end_ selection)%Q ->
  Forall (fun t => (now <= t)%Q) times ->
  let st' :=
    fold_left (fun s t => Player.loop s t Player.editor selection) times
      (Player.startPlayback st now Player.editor (Some b) selection tracks volume
         startOffset) in
  (start selection <= Player.currentTime st' <= end_ selection)%Q /\
  (Player.isPlaying st' = false ->
   Player.currentTime st' = end_ selection /\ Player.audioSource st' = None).
Proof.
  intros Hsel Htimes st'.
  assert (Hgen : forall s,
            (Player.playbackStartTime s = now /\
             (start selection <= Player.playbackStartOffset s)%Q /\
             (start selection <= Player.currentTime s <= end_ selection)%Q /\
             (Player.isPlaying s = false ->
              Player.currentTime s = end_ selection /\ Player.audioSource s = None)) ->
            let s' := fold_left (fun s t => Player.loop s t Player.editor selection)
                        times s in
            (start selection <= Player.currentTime s' <= end_ selection)%Q /\
            (Player.isPlaying s' = false ->
             Player.currentTime s' = end_ selection /\ Player.audioSource s' = None)).
  { induction Htimes as [|t times Ht _ IH]; intros s Hinv.
    - simpl. tauto.
    - simpl. apply IH.
      apply (loop_editor_inv selection now s t); [lra | exact Ht | exact Hinv]. }
  apply Hgen.
  destruct (editor_offset selection startOffset Hsel) as (Hlo & Hhi & Hdur & _).
  unfold Player.startPlayback. cbv zeta. rewrite Hdur. cbn.
  split; [reflexivity|]. split; [exact Hlo|]. split; [lra | discriminate].
Qed.

Lemma editor_playback_in_selection_witness :
  let st' :=
    fold_left
      (fun s t => Player.loop s t Player.editor (mkSelection 1 (3 # 1)))
      [(1 # 2)%Q; 5%Q]
      (Player.startPlayback (Player.mkPlayback None [] 0 0 false 0) 0 Player.editor
         (Some four_ones_buffer) (mkSelection 1 (3 # 1)) [] 1 (2 # 1)) in
  (1 <= Player.currentTime st' <= 3 # 1)%Q.
Proof.
  cbv zeta.
  apply (editor_playback_in_selection (Player.mkPlayback None [] 0 0 false 0) 0
           four_ones_buffer (mkSelection 1 (3 # 1)) [] 1 (2 # 1) [(1 # 2)%Q; 5%Q]).
  - reflexivity.
  - repeat constructor; vm_compute; discriminate.
Defined.

Lemma studio_nodes (now P : Q) (tracks : list Track) :
  fold_left
    (fun nodes track =>
       match schedule_track now P track with
       | Some source => nodes ++ [source]
       | None => nodes
       end) tracks []
  = omap (schedule_track now P) tracks.
Proof. apply (schedule_fold now P tracks []). Qed.

Lemma length_eqb_cons {A : Type} (l : list A) :
  l <> [] -> (length l =? 0)%nat = false.
Proof. destruct l; [congruence | reflexivity]. Qed.

(** X16.  Pause and resume ([handlePlayPause]).  Pausing a running playback stops
    every source and keeps the position reached, start offset plus the time
    elapsed on the audio clock; while paused the animation loop changes
    nothing.  Resuming in the studio, however much later, schedules the tracks
    from that position, and the position shown right after is the same.
    Resuming in the editor continues from that position if it lies in the
    selection. *)
Theorem handlePlayPause_resume (st : Player.Playback) (t1 t2 : Q)
    (activeTab : Player.tab) (current : option AudioBuffer)
    (selection : SelectionRange) (tracks : list Track) (volume : Q) :
  Player.isPlaying st = true ->
  let position :=
    (Player.playbackStartOffset st + (t1 - Player.playbackStartTime st))%Q in
  let paused :=
    Player.handlePlayPause st t1 activeTab current selection tracks volume in
  let resumed :=
    Player.handlePlayPause paused t2 activeTab current selection tracks volume in
  Player.isPlaying paused = false /\
  Player.audioSource paused = None /\
  Player.studioSourceNodes paused = [] /\
  Player.currentTime paused = position /\
  Player.playbackStartOffset paused = position /\
  (forall t, Player.loop paused t activeTab selection = paused) /\
  (activeTab = Player.studio -> tracks <> [] ->
   Player.isPlaying resumed = true /\
   Player.playbackStartOffset resumed = position /\
   Player.playbackStartTime resumed = t2 /\
   Player.studioSourceNodes resumed = omap (schedule_track t2 position) tracks /\
   (Player.currentTime (Player.loop resumed t2 Player.studio selection)
    == position)%Q) /\
  (activeTab = Player.editor -> current <> None ->
   (start selection <= position)%Q -> (position < end_ selection)%Q ->
   Player.isPlaying resumed = true /\
   Player.audioSource resumed
   = Some (Player.mkBufferSource 0 position (end_ selection - position) volume) /\
   Player.currentTime resumed = position /\
   Player.playbackStartOffset resumed = position).
Proof.
  intros Hplay position paused resumed.
  assert (Hpaused : paused = Player.mkPlayback None [] position
                               (Player.playbackStartTime st) false position).
  { unfold paused, Player.handlePlayPause. rewrite Hplay. reflexivity. }
  rewrite Hpaused. cbn [Player.isPlaying Player.audioSource Player.studioSourceNodes
                        Player.currentTime Player.playbackStartOffset].
  do 5 (split; [reflexivity|]). split; [reflexivity|].
  unfold resumed. rewrite Hpaused. unfold Player.handlePlayPause.
  cbn [Player.isPlaying Player.currentTime]. cbv iota.
  split.
  - intros -> Htr. unfold Player.startPlayback. cbv zeta.
    rewrite (length_eqb_cons tracks Htr).
    cbn [Player.stopAllAudio Player.studioSourceNodes Player.audioSource
         Player.currentTime Player.isPlaying Player.playbackStartOffset
         Player.playbackStartTime].
    rewrite studio_nodes.
    split; [reflexivity|]. split; [reflexivity|]. split; [reflexivity|].
    split; [reflexivity|].
    unfold Player.loop. cbn. ring.
  - intros -> Hcur Hlo Hhi. destruct current as [b|]; [|congruence].
    assert (Hsel : (start selection < end_ selection)%Q) by lra.
    destruct (editor_offset selection position Hsel) as (_ & _ & Hdur & Hin & _).
    specialize (Hin Hlo Hhi). cbv zeta in Hdur.
    unfold Player.startPlayback. cbv zeta. rewrite Hdur, Hin.
    cbn. repeat split; reflexivity.
Qed.

Lemma handlePlayPause_resume_witness :
  let paused :=
    Player.handlePlayPause (Player.mkPlayback None [] 1 (10 # 1) true 1) (12 # 1)
      Player.studio None (mkSelection 0 0) [trackA; trackB] 1 in
  Player.isPlaying paused = false /\
  (Player.currentTime paused == 3 # 1)%Q.
Proof.
  cbv zeta.
  pose proof (handlePlayPause_resume (Player.mkPlayback None [] 1 (10 # 1) true 1)
                (12 # 1) (20 # 1) Player.studio None (mkSelection 0 0)
                [trackA; trackB] 1 eq_refl) as H.
  cbv zeta in H. destruct H as (Hp & _ & _ & Hc & _).
  split; [exact Hp|]. rewrite Hc. reflexivity.
Defined.

(** X17.  Seeking ([handleSeek]).  The position sought is never negative.  While
    nothing plays, a seek moves the position and the start offset and starts no
    source.  While the studio plays, every source is replaced by the schedule
    of the tracks from the new position.  While the editor plays, playback
    restarts inside the selection: at the position sought if it lies in the
    selection, otherwise at the selection's start. *)
Theorem handleSeek_position (st : Player.Playback) (now : Q)
    (activeTab : Player.tab) (current : option AudioBuffer)
    (selection : SelectionRange) (tracks : list Track) (volume time : Q) :
  let newTime := Q_max 0 time in
  let st' := Player.handleSeek st now activeTab current selection tracks volume time in
  (0 <= newTime)%Q /\ ((0 <= time)%Q -> newTime = time) /\
  (Player.isPlaying st = false ->
   Player.currentTime st' = newTime /\
   Player.playbackStartOffset st' = newTime /\
   Player.isPlaying st' = false /\
   Player.audioSource st' = Player.audioSource st /\
   Player.studioSourceNodes st' = Player.studioSourceNodes st) /\
  (Player.isPlaying st = true -> activeTab = Player.studio -> tracks <> [] ->
   Player.currentTime st' = newTime /\
   Player.playbackStartOffset st' = newTime /\
   Player.playbackStartTime st' = now /\
   Player.isPlaying st' = true /\
   Player.studioSourceNodes st' = omap (schedule_track now newTime) tracks) /\
  (Player.isPlaying st = true -> activeTab = Player.editor -> current <> None ->
   (start selection < end_ selection)%Q ->
   (start selection <= Player.currentTime st' < end_ selection)%Q /\
   Player.playbackStartOffset st' = Player.currentTime st' /\
   ((start selection <= newTime)%Q -> (newTime < end_ selection)%Q ->
    Player.currentTime st' = newTime) /\
   ((newTime < start selection)%Q \/ (end_ selection <= newTime)%Q ->
    Player.currentTime st' = start selection)).
Proof.
  intros newTime st'.
  split; [unfold newTime; destruct (Q_max_cases 0 time) as [[H ->]|[H ->]]; lra|].
  split.
  { intros Ht. unfold newTime.
    destruct (Q_max_cases 0 time) as [[H ->]|[H E]]; [reflexivity | lra]. }
  unfold st', Player.handleSeek. cbv zeta. fold newTime.
  split; [|split].
  - intros ->. cbn. repeat split; reflexivity.
  - intros -> -> Htr. unfold Player.startPlayback. cbv zeta.
    rewrite (length_eqb_cons tracks Htr).
    cbn [Player.stopAllAudio Player.studioSourceNodes Player.audioSource
         Player.currentTime Player.isPlaying Player.playbackStartOffset
         Player.playbackStartTime].
    rewrite studio_nodes. repeat split; reflexivity.
  - intros -> -> Hcur Hsel. destruct current as [b|]; [|congruence].
    destruct (editor_offset selection newTime Hsel) as (Hlo & Hhi & Hdur & Hin & Hout).
    cbv zeta in Hlo, Hhi, Hdur, Hin, Hout.
    unfold Player.startPlayback. cbv zeta. rewrite Hdur. cbn.
    split; [split; [exact Hlo | exact Hhi]|].
    split; [reflexivity|]. split; [exact Hin | exact Hout].
Qed.

(** ** The track list *)

Lemma updateTrack_lookup (tracks : list Track) (i : string) (u : TrackUpdates)
    (k : nat) :
  updateTrack tracks i u !! k
  = (fun t => if String.eqb (id t) i then spread t u else t) <$> (tracks !! k).
Proof. unfold updateTrack. apply list_lookup_fmap. Qed.

Lemma elem_of_removeTrack (tracks : list Track) (i : string) (t : Track) :
  t ∈ removeTrack tracks i <-> t ∈ tracks /\ id t <> i.
Proof.
  unfold removeTrack. rewrite list_elem_of_filter.
  destruct (String.eqb_spec (id t) i) as [E|E]; simpl; split.
  - intros [[] _].
  - intros [_ H]. contradiction.
  - intros [_ H]. auto.
  - intros [H _]. auto.
Qed.

Lemma removeTrack_absent (tracks : list Track) (i : string) :
  Forall (fun t => id t <> i) tracks -> removeTrack tracks i = tracks.
Proof.
  unfold removeTrack. induction 1 as [|t tracks Ht _ IH]; [reflexivity|].
  rewrite filter_cons_True.
  - rewrite IH. reflexivity.
  - destruct (String.eqb_spec (id t) i) as [E|E]; [contradiction | exact I].
Qed.

(** X18.  [updateTrack] and [removeTrack] act on the tracks with the given id and
    on no other.  An update keeps the number and the order of the tracks: the
    track at each position is merged with the update if it has the id and is
    untouched otherwise, so an id that no track has changes nothing.  A removal
    keeps exactly the tracks with another id, in their order; removing an id
    that no track has changes nothing, and removing the track just added, its
    id being new, gives back the list. *)
Theorem updateTrack_removeTrack (tracks : list Track) (i : string)
    (u : TrackUpdates) (decoded : AudioBuffer) :
  length (updateTrack tracks i u) = length tracks /\
  (forall k t, tracks !! k = Some t ->
     updateTrack tracks i u !! k = Some (if String.eqb (id t) i then spread t u else t)) /\
  (new_id u = None -> map id (updateTrack tracks i u) = map id tracks) /\
  (Forall (fun t => id t <> i) tracks -> updateTrack tracks i u = tracks) /\
  (forall t, t ∈ removeTrack tracks i <-> t ∈ tracks /\ id t <> i) /\
  sublist (removeTrack tracks i) tracks /\
  (Forall (fun t => id t <> i) tracks ->
   removeTrack tracks i = tracks /\
   removeTrack (addTrackToStudio tracks i decoded) i = tracks).
Proof.
  split; [apply length_map|].
  split.
  { intros k t Hk. rewrite updateTrack_lookup, Hk. reflexivity. }
  split.
  { intros Hid. unfold updateTrack. rewrite map_map. apply map_ext.
    intros t. destruct (String.eqb (id t) i); [|reflexivity].
    unfold spread. simpl. rewrite Hid. reflexivity. }
  split.
  { intros Habs. unfold updateTrack. rewrite <- (map_id tracks) at 2.
    apply map_ext_Forall. eapply Forall_impl; [exact Habs|].
    intros t Ht. simpl. destruct (String.eqb_spec (id t) i); [contradiction|].
    reflexivity. }
  split; [apply elem_of_removeTrack|].
  split; [apply sublist_filter|].
  intros Habs. split; [apply removeTrack_absent, Habs|].
  unfold addTrackToStudio, removeTrack. rewrite filter_app.
  fold (removeTrack tracks i). rewrite (removeTrack_absent tracks i Habs).
  rewrite filter_cons_False by (simpl; rewrite String.eqb_refl; intros []).
  rewrite filter_nil. apply app_nil_r.
Qed.

Lemma Q_max_nonneg (x : Q) : (0 <= Q_max 0 x)%Q.
Proof. destruct (Q_max_cases 0 x) as [[H ->]|[H ->]]; lra. Qed.

(** X19.  No track ever starts before time 0: a track is added at 0, a drag
    moves it to [max(0, ...)], whatever the mouse position, and the volume,
    mute and remove actions leave the start times alone.  The scale is
    positive, as [handleWheel] keeps it: the drag divides by it. *)
Theorem track_starts_nonnegative (tracks : list Track) (i : string)
    (decoded : AudioBuffer) (dragState : option DragState)
    (pixelsPerSecond clientX : Q) (newVolume : Q) (muted : bool) :
  Forall (fun t => (0 <= startTime t)%Q) tracks ->
  (0 < pixelsPerSecond)%Q ->
  Forall (fun t => (0 <= startTime t)%Q) (addTrackToStudio tracks i decoded) /\
  Forall (fun t => (0 <= startTime t)%Q) (removeTrack tracks i) /\
  Forall (fun t => (0 <= startTime t)%Q) (drag tracks dragState pixelsPerSecond clientX) /\
  Forall (fun t => (0 <= startTime t)%Q)
    (updateTrack tracks i (mkTrackUpdates None None None (Some newVolume) None)) /\
  Forall (fun t => (0 <= startTime t)%Q)
    (updateTrack tracks i (mkTrackUpdates None None None None (Some muted))).
Proof.
  intros Hinv _.
  assert (Hupd : forall j u,
            match new_startTime u with Some x => (0 <= x)%Q | None => True end ->
            Forall (fun t => (0 <= startTime t)%Q) (updateTrack tracks j u)).
  { intros j u Hu. unfold updateTrack. apply Forall_fmap.
    eapply Forall_impl; [exact Hinv|]. intros t Ht. simpl.
    destruct (String.eqb (id t) j); [|exact Ht].
    unfold spread. simpl. destruct (new_startTime u); [exact Hu | exact Ht]. }
  split.
  { unfold addTrackToStudio. apply Forall_app. split; [exact Hinv|].
    repeat constructor. simpl. lra. }
  split.
  { apply Forall_forall. intros t Ht. apply elem_of_removeTrack in Ht as [Ht _].
    rewrite Forall_forall in Hinv. apply Hinv, Ht. }
  split.
  { unfold drag, handleMouseMove. destruct dragState as [d|]; [|exact Hinv].
    apply Hupd. simpl. apply Q_max_nonneg. }
  split; apply Hupd; exact I.
Qed.

Lemma track_starts_nonnegative_witness :
  Forall (fun t => (0 <= startTime t)%Q)
    (drag [trackA; trackB] (Some (mkDragState "B" 100 3)) 50 (-400 # 1)).
Proof.
  apply (track_starts_nonnegative [trackA; trackB] "B"%string four_ones_buffer
           (Some (mkDragState "B" 100 3)) 50 (-400 # 1) 1 false).
  - repeat constructor; vm_compute; discriminate.
  - reflexivity.
Defined.

(** ** Zoom and the width of the timeline *)

(** X20.  [handleWheel]: the scale always ends between 10 and 500 pixels per
    second; from a scale in that range, scrolling up (a negative [deltaY])
    never zooms out and scrolling down never zooms in. *)
Theorem handleWheel_zoom (pixelsPerSecond deltaY : Q) :
  (10 <= handleWheel pixelsPerSecond deltaY <= 500)%Q /\
  ((10 <= pixelsPerSecond <= 500)%Q ->
   ((deltaY <= 0)%Q -> (pixelsPerSecond <= handleWheel pixelsPerSecond deltaY)%Q) /\
   ((0 <= deltaY)%Q -> (handleWheel pixelsPerSecond deltaY <= pixelsPerSecond)%Q)).
Proof.
  unfold handleWheel. cbv zeta.
  set (newScale := (pixelsPerSecond * (1 - deltaY * (1 # 1000)))%Q).
  split.
  - destruct (Q_min_cases 500 newScale) as [[H1 ->]|[H1 ->]];
    destruct (Q_max_cases 10 500) as [[H2 E2]|[H2 E2]];
    destruct (Q_max_cases 10 newScale) as [[H3 E3]|[H3 E3]];
      try rewrite E2; try rewrite E3; lra.
  - intros [Hlo Hhi]. split; intros Hd.
    + assert (Hn : (pixelsPerSecond <= newScale)%Q).
      { unfold newScale. nra. }
      destruct (Q_min_cases 500 newScale) as [[H1 ->]|[H1 ->]];
      destruct (Q_max_cases 10 500) as [[H2 E2]|[H2 E2]];
      destruct (Q_max_cases 10 newScale) as [[H3 E3]|[H3 E3]];
        try rewrite E2; try rewrite E3; lra.
    + assert (Hn : (newScale <= pixelsPerSecond)%Q).
      { unfold newScale. nra. }
      destruct (Q_min_cases 500 newScale) as [[H1 ->]|[H1 ->]];
      destruct (Q_max_cases 10 500) as [[H2 E2]|[H2 E2]];
      destruct (Q_max_cases 10 newScale) as [[H3 E3]|[H3 E3]];
        try rewrite E2; try rewrite E3; lra.
Qed.

Lemma Q_max_ge_l (a b : Q) : (a <= Q_max a b)%Q.
Proof. destruct (Q_max_cases a b) as [[H ->]|[H ->]]; lra. Qed.

Lemma Q_max_ge_r (a b : Q) : (b <= Q_max a b)%Q.
Proof. destruct (Q_max_cases a b) as [[H ->]|[H ->]]; lra. Qed.

Lemma max_of_ge (xs : list Q) :
  forall x : Q, (x <= max_of x xs)%Q /\ Forall (fun y => (y <= max_of x xs)%Q) xs.
Proof.
  unfold max_of. induction xs as [|y xs IH]; intros x; simpl.
  - split; [lra | constructor].
  - destruct (IH (Q_max x y)) as [H1 H2].
    pose proof (Q_max_ge_l x y). pose proof (Q_max_ge_r x y).
    split; [lra|]. constructor; [lra | exact H2].
Qed.

(** X21.  The timeline is wide enough: [maxDuration] is at least 10 seconds, at
    least the duration handed in and at least the end of every track, so with a
    positive scale the block of every track that starts at or after 0 lies
    between 0 and [timelineWidth].  The duration the application hands in is 60
    for an empty list and otherwise at least the end of every track. *)
Theorem timeline_fits_tracks (duration' : Q) (tracks : list Track)
    (pixelsPerSecond : Q) :
  (0 < pixelsPerSecond)%Q ->
  (10 <= maxDuration duration' tracks)%Q /\
  (duration' <= maxDuration duration' tracks)%Q /\
  Forall (fun t =>
            (track_end t <= maxDuration duration' tracks)%Q /\
            ((0 <= startTime t)%Q ->
             (0 <= startTime t * pixelsPerSecond)%Q /\
             (startTime t * pixelsPerSecond + duration (buffer t) * pixelsPerSecond
              <= timelineWidth duration' tracks pixelsPerSecond)%Q)) tracks /\
  (tracks = [] -> timeline_duration tracks = 60%Q) /\
  Forall (fun t => (track_end t <= timeline_duration tracks)%Q) tracks.
Proof.
  intros Hpps.
  destruct (max_of_ge (map track_end tracks ++ [10%Q]) duration') as [Hd Hall].
  fold (maxDuration duration' tracks) in Hd, Hall.
  apply Forall_app in Hall as [Hends Hten].
  apply Forall_cons in Hten as [Hten _].
  split; [exact Hten|]. split; [exact Hd|].
  split.
  { rewrite Forall_fmap in Hends. eapply Forall_impl; [exact Hends|].
    intros t Ht. simpl in Ht. split; [exact Ht|].
    intros Hs. unfold timelineWidth. unfold track_end in Ht. split; nra. }
  split; [intros ->; reflexivity|].
  unfold timeline_duration. destruct tracks as [|t tracks]; [constructor|].
  cbn [map]. destruct (max_of_ge (map track_end tracks) (track_end t)) as [H1 H2].
  constructor; [exact H1|]. rewrite Forall_fmap in H2. exact H2.
Qed.

Lemma timeline_fits_tracks_witness :
  (10 <= maxDuration (timeline_duration [trackA; trackB]) [trackA; trackB])%Q /\
  (track_end trackB <= timeline_duration [trackA; trackB])%Q.
Proof.
  pose proof (timeline_fits_tracks (timeline_duration [trackA; trackB])
                [trackA; trackB] 50 eq_refl) as (H10 & _ & _ & _ & Hends).
  split; [exact H10|].
  apply Forall_cons in Hends as [_ Hends]. apply Forall_cons in Hends as [HB _].
  exact HB.
Defined.

(** ** The selection menu of the waveform *)

(** X22.  The waveform's menu keeps the selection usable.  The time kept for a
    click lies inside the buffer, and from a selection inside the buffer with
    its end after its start, "set as start" and "set as end" give such a
    selection again: the start moves to the click only if that is before the
    end, the end only if that is after the start, and the other bound is
    never touched. *)
Theorem waveform_menu_selection (b : AudioBuffer) (selection : SelectionRange)
    (inverted : Q) :
  selection_valid b selection ->
  let time := handleContextMenu b inverted in
  (0 <= time <= duration b)%Q /\
  selection_valid b (handleSetStart selection time) /\
  selection_valid b (handleSetEnd b selection time) /\
  end_ (handleSetStart selection time) = end_ selection /\
  start (handleSetEnd b selection time) = start selection /\
  ((time < end_ selection)%Q -> start (handleSetStart selection time) = time) /\
  ((start selection < time)%Q -> (end_ (handleSetEnd b selection time) == time)%Q) /\
  ((end_ selection <= time)%Q -> handleSetStart selection time = selection) /\
  ((time <= start selection)%Q -> handleSetEnd b selection time = selection).
Proof.
  intros (H0 & Hlt & Hdur) time.
  assert (Htime : (0 <= time <= duration b)%Q).
  { unfold time, handleContextMenu.
    destruct (Q_min_cases (duration b) inverted) as [[H1 ->]|[H1 ->]];
    destruct (Q_max_cases 0 (duration b)) as [[H2 E2]|[H2 E2]];
    destruct (Q_max_cases 0 inverted) as [[H3 E3]|[H3 E3]];
      try rewrite E2; try rewrite E3; lra. }
  assert (Hmax : Q_max 0 time = time).
  { destruct (Q_max_cases 0 time) as [[H E]|[H E]]; [exact E | lra]. }
  assert (Hmin : Q_min (duration b) time = time \/
                 (Q_min (duration b) time = duration b /\ (time == duration b)%Q)).
  { destruct (Q_min_cases (duration b) time) as [[H E]|[H E]]; [right | left; exact E].
    split; [exact E | lra]. }
  split; [exact Htime|].
  unfold handleSetStart, handleSetEnd. cbv zeta. rewrite Hmax.
  destruct (Qle_bool_cases (end_ selection) time) as [[Hs Es]|[Hs Es]]; rewrite Es;
  destruct (Qle_bool_cases (Q_min (duration b) time) (start selection))
    as [[He Ee]|[He Ee]]; rewrite Ee; simpl negb; cbv iota;
  unfold selection_valid; cbn [start end_];
  destruct Hmin as [Em|[Em Eq]]; rewrite ?Em in *;
    repeat split; try reflexivity; try lra; intros; try lra.
Qed.

Lemma waveform_menu_selection_witness :
  selection_valid four_ones_buffer
    (handleSetStart (mkSelection 1 (3 # 1)) (handleContextMenu four_ones_buffer (2 # 1))) /\
  start (handleSetStart (mkSelection 1 (3 # 1))
           (handleContextMenu four_ones_buffer (2 # 1))) = (2 # 1)%Q.
Proof.
  assert (Hvalid : selection_valid four_ones_buffer (mkSelection 1 (3 # 1))).
  { repeat split; vm_compute; congruence. }
  pose proof (waveform_menu_selection four_ones_buffer (mkSelection 1 (3 # 1)) (2 # 1)
                Hvalid) as H.
  cbv zeta in H. destruct H as (_ & Hs & _).
  split; [exact Hs | reflexivity].
Defined.

(** ** The range of the waveform values *)

Lemma downsampledData_lookup (rawData : list num) (width : Q) (i : Z) :
  let bucketCount := Qfloor width in
  let blockSize := Z.of_nat (length rawData) / bucketCount in
  1 <= bucketCount -> 0 <= i < bucketCount ->
  length (bucket_block rawData blockSize i) = Z.to_nat blockSize /\
  0 <= blockSize /\
  downsampledData rawData width !! Z.to_nat i
  = Some (num_div (sum_abs (bucket_block rawData blockSize i)) (of_Z blockSize)).
Proof.
  intros bucketCount blockSize Hn Hi.
  assert (Hbs : 0 <= blockSize) by (apply Z.div_pos; lia).
  assert (Hfit : bucketCount * blockSize <= Z.of_nat (length rawData)).
  { unfold blockSize. apply Z.mul_div_le. lia. }
  assert (Hend : (i + 1) * blockSize <= Z.of_nat (length rawData)) by nia.
  split; [unfold bucket_block; rewrite length_take, length_drop; nia|].
  split; [exact Hbs|].
  unfold downsampledData. fold bucketCount. fold blockSize. cbv zeta.
  rewrite (push_loop _ bucketCount (Z.to_nat (bucketCount - 0)) 0 []) by reflexivity.
  rewrite app_nil_l, Z.sub_0_r.
  rewrite list_lookup_fmap, lookup_seqZ_lt by lia. simpl. f_equal.
  rewrite Z2Nat.id by lia. f_equal.
  rewrite (sum_loop rawData (blockSize * i) blockSize (Z.to_nat (blockSize - 0)) 0)
    by (try reflexivity; nia).
  unfold sum_abs, bucket_block. rewrite Z.sub_0_r, Z.add_0_r.
  rewrite (Z.mul_comm i blockSize). reflexivity.
Qed.

Lemma sum_abs_bound (B : Q) (block : list num) :
  Forall (fun x => exists q, x = Fin q /\ (Qabs q <= B)%Q) block ->
  forall a : Q,
  exists s : Q,
    fold_left (fun sum x => num_add sum (num_abs x)) block (Fin a) = Fin s /\
    (a <= s)%Q /\ (s <= a + inject_Z (Z.of_nat (length block)) * B)%Q.
Proof.
  induction 1 as [|x block (q & -> & Hq) _ IH]; intros a.
  - exists a. split; [reflexivity|].
    change (inject_Z (Z.of_nat (length (@nil num)))) with 0%Q. split; lra.
  - cbn [fold_left num_add num_abs].
    destruct (IH (a + Qabs q)%Q) as (s & Hs & Hlo & Hhi).
    exists s. split; [exact Hs|].
    pose proof (Qabs_nonneg q) as Hq0.
    split; [lra|].
    replace (Z.of_nat (length (Fin q :: block)))
      with (Z.of_nat (length block) + 1) by (simpl length; lia).
    rewrite inject_Z_plus. change (inject_Z 1) with 1%Q. lra.
Qed.

(** X23.  The values drawn by the waveform.  If every sample of the channel is
    finite with absolute value at most [B] and the channel has at least as many
    frames as there are buckets, every value is a number between 0 and [B].
    If the channel has fewer frames than buckets, the blocks are empty and
    every value is [NaN], the quotient 0 / 0. *)
Theorem downsampledData_range (rawData : list num) (width B : Q) (i : Z) :
  let bucketCount := Qfloor width in
  1 <= bucketCount -> 0 <= i < bucketCount ->
  (Forall (fun x => exists q, x = Fin q /\ (Qabs q <= B)%Q) rawData ->
   bucketCount <= Z.of_nat (length rawData) ->
   exists v : Q,
     downsampledData rawData width !! Z.to_nat i = Some (Fin v) /\
     (0 <= v <= B)%Q) /\
  (Z.of_nat (length rawData) < bucketCount ->
   downsampledData rawData width !! Z.to_nat i = Some NaN).
Proof.
  intros bucketCount Hn Hi.
  destruct (downsampledData_lookup rawData width i Hn Hi) as (Hlen & Hbs & Hval).
  fold bucketCount in Hlen, Hbs, Hval.
  set (blockSize := Z.of_nat (length rawData) / bucketCount) in *.
  split.
  - intros Hfin Hfull.
    assert (Hpos : 1 <= blockSize).
    { unfold blockSize. apply Z.div_le_lower_bound; lia. }
    assert (Hblock : Forall (fun x => exists q, x = Fin q /\ (Qabs q <= B)%Q)
                       (bucket_block rawData blockSize i)).
    { unfold bucket_block. apply Forall_take, Forall_drop, Hfin. }
    destruct (sum_abs_bound B _ Hblock 0) as (s & Hs & Hlo & Hhi).
    change (sum_abs (bucket_block rawData blockSize i) = Fin s) in Hs.
    rewrite Hlen, Z2Nat.id in Hhi by lia.
    assert (Hq : (1 <= inject_Z blockSize)%Q).
    { change 1%Q with (inject_Z 1). rewrite <- Zle_Qle. exact Hpos. }
    exists (s / inject_Z blockSize)%Q. split.
    + rewrite Hval, Hs. unfold num_div, of_Z.
      destruct (Qeq_bool (inject_Z blockSize) 0) eqn:E; [|reflexivity].
      apply Qeq_bool_iff in E. lra.
    + split.
      * apply Qle_shift_div_l; lra.
      * apply Qle_shift_div_r; lra.
  - intros Hfew.
    assert (Hzero : blockSize = 0) by (unfold blockSize; apply Z.div_small; lia).
    rewrite Hval, Hzero. unfold bucket_block. simpl take. reflexivity.
Qed.

Lemma downsampledData_range_witness :
  exists v : Q,
    downsampledData [Fin (1 # 2); Fin (-1 # 4); Fin 1; Fin 0] (2 # 1) !! 1%nat
    = Some (Fin v) /\ (0 <= v <= 1)%Q.
Proof.
  apply (downsampledData_range [Fin (1 # 2); Fin (-1 # 4); Fin 1; Fin 0] (2 # 1) 1 1).
  - vm_compute. discriminate.
  - vm_compute. split; [discriminate | reflexivity].
  - repeat constructor; eexists; (split; [reflexivity | vm_compute; discriminate]).
  - vm_compute. discriminate.
Defined.

(** ** Exporting the mix *)

(** X24.  [handleExportMix].  With no track nothing happens: no file and no error,
    the no-tracks error of [renderMix] is never reached.  With tracks, the file
    offered is a stereo WAV at 44100 Hz holding the frames up to the latest
    track end plus half a second, at least 22050 of them:
    44 + 4 * ceil((latest + 0.5) * 44100) bytes.  The arrays that existed
    before are untouched. *)
Theorem handleExportMix_file (tracks : list Track) (shown : option ui_error)
    (h : heap) :
  (tracks = [] -> handleExportMix tracks shown h = (h, shown, None)) /\
  (tracks <> [] ->
   let frames :=
     Z.to_nat (Qceiling ((total_duration tracks + (1 # 2)) * 44100)) in
   exists (h' : heap) (blob : list Z),
     handleExportMix tracks shown h = (h', shown, Some blob) /\
     take (length h) h' = h /\
     22050 <= Z.of_nat frames /\
     length blob = (44 + 4 * frames)%nat /\
     le_value (slice 22 2 blob) = 2 /\
     le_value (slice 24 4 blob) = 44100 /\
     le_value (slice 28 4 blob) = 176400 /\
     le_value (slice 32 2 blob) = 4 /\
     le_value (slice 40 4 blob) = (4 * Z.of_nat frames) mod 2 ^ 32).
Proof.
  split; [intros ->; reflexivity|].
  intros Htr frames. unfold handleExportMix, renderMix.
  rewrite (length_eqb_cons tracks Htr). cbv zeta. fold frames.
  unfold offline_mix, downloadBuffer.
  match goal with |- context [audioBufferToWavBlob ?h1 ?b1] =>
    pose proof (audioBufferToWavBlob_run h1 b1) as Hrun;
    set (hmix := h1) in *; set (mixed := b1) in *
  end.
  cbv zeta in Hrun. rewrite Hrun.
  eexists _, _. split; [reflexivity|].
  split; [apply take_app_length|].
  split.
  { unfold frames.
    pose proof (total_duration_spec tracks) as [H0 _].
    assert (Hq : (inject_Z 22050 <= (total_duration tracks + (1 # 2)) * 44100)%Q).
    { change (inject_Z 22050) with 22050%Q. lra. }
    pose proof (Qle_ceiling ((total_duration tracks + (1 # 2)) * 44100)) as Hc.
    assert (Hz : 22050 <= Qceiling ((total_duration tracks + (1 # 2)) * 44100)).
    { rewrite Zle_Qle. lra. }
    rewrite Z2Nat.id by lia. exact Hz. }
  destruct (pcm_data_bytes
              (interleave (map (get hmix) (channelData mixed)) (buf_length mixed)))
    as [_ Hdata].
  split.
  { rewrite length_app, Hdata, interleave_length, length_map. unfold mixed. simpl.
    lia. }
  split; [reflexivity|]. split; [reflexivity|]. split; [reflexivity|].
  split; [reflexivity|].
  change (slice 40 4 _)
    with (uint32_le (Z.of_nat (buf_length mixed)
                     * Z.of_nat (numberOfChannels mixed) * 2 + 44 - 44)).
  rewrite uint32_le_value. f_equal. unfold mixed. simpl buf_length.
  change (numberOfChannels _) with 2%nat. lia.
Qed.

(** ** Loading a file *)

(** X25.  [loadEditorFile].  A failed decoding leaves the editor empty, with the
    error shown.  The first file gives a history of that one buffer.  A later
    file does not start a new history: its buffer is committed after the
    entries up to the index of the state in which the file was chosen, so the
    buffer of the file before stays in the history and an undo makes it current
    again.  In each case the selection becomes the whole of the new buffer. *)
Theorem loadEditorFile_history (st : Editor) (b old : AudioBuffer) :
  loadEditorFile st None = (emptyEditor, mkSelection 0 0, Some DecodeFailed) /\
  loadEditorFile emptyEditor (Some b)
  = (mkEditor [b] 0 (Some b), mkSelection 0 (duration b), None) /\
  (history_ok st -> 0 <= historyIndex st -> audioBuffer st = Some old ->
   exists st',
     loadEditorFile st (Some b) = (st', mkSelection 0 (duration b), None) /\
     history st' = take (Z.to_nat (historyIndex st + 1)) (history st) ++ [b] /\
     historyIndex st' = historyIndex st + 1 /\
     audioBuffer st' = Some b /\
     history st' !! Z.to_nat (historyIndex st) = Some old /\
     audioBuffer (handleUndo st') = Some old).
Proof.
  split; [reflexivity|]. split; [reflexivity|].
  intros Hok Hpos Hold. exists (updateHistory st b). split; [reflexivity|].
  destruct Hok as [Hidx Hcur].
  destruct (updateHistory_fields st b Hidx) as (Hh & Hi & Hb).
  split; [exact Hh|]. split; [exact Hi|]. split; [exact Hb|].
  split.
  - rewrite Hh, lookup_app_l by (rewrite length_take; lia).
    rewrite lookup_take_lt by lia.
    rewrite <- Hold, Hcur, history_at_lookup by lia. reflexivity.
  - apply undo_after_commit; [split; assumption | exact Hpos | exact Hold].
Qed.

(** ** Fades from the editor *)



(** ** Pixels and seconds on the timeline *)

(** X27.  Clicks on the timeline.  A click on the sticky track header never seeks,
    and a time handed to [onSeek] is never negative, so [handleSeek] takes it
    as it is.  With a positive scale, a click on the spot where the playhead is
    drawn, in the tracks area or on the ruler, seeks to the current time. *)
Theorem timeline_click_seek (pixelsPerSecond clickX scrollLeft currentTime : Q) :
  (0 < pixelsPerSecond)%Q ->
  ((clickX < HEADER_WIDTH)%Q ->
   handleTimelineClick pixelsPerSecond clickX scrollLeft = None) /\
  (forall t,
     handleTimelineClick pixelsPerSecond clickX scrollLeft = Some t \/
     handleRulerClick pixelsPerSecond clickX scrollLeft = Some t ->
     (0 <= t)%Q /\ Q_max 0 t = t) /\
  ((0 <= currentTime)%Q -> (HEADER_WIDTH <= clickX)%Q ->
   (clickX + scrollLeft == playhead_left currentTime pixelsPerSecond)%Q ->
   exists t, handleTimelineClick pixelsPerSecond clickX scrollLeft = Some t /\
             (t == currentTime)%Q) /\
  ((0 <= currentTime)%Q ->
   (clickX + scrollLeft == currentTime * pixelsPerSecond)%Q ->
   exists t, handleRulerClick pixelsPerSecond clickX scrollLeft = Some t /\
             (t == currentTime)%Q).
Proof.
  intros Hpps.
  assert (Hnz : ~ (pixelsPerSecond == 0)%Q) by lra.
  split.
  { intros Hx. unfold handleTimelineClick.
    rewrite (Qle_bool_gt HEADER_WIDTH clickX) by exact Hx. reflexivity. }
  split.
  { intros t Ht.
    assert (H0 : (0 <= t)%Q).
    { destruct Ht as [Ht|Ht].
      - unfold handleTimelineClick in Ht.
        destruct (negb (Qle_bool HEADER_WIDTH clickX)); [discriminate|].
        cbv zeta in Ht.
        destruct (Qle_bool_cases 0
                    ((clickX - HEADER_WIDTH + scrollLeft) / pixelsPerSecond))
          as [[H E]|[H E]]; rewrite E in Ht; [|discriminate].
        injection Ht as <-. exact H.
      - unfold handleRulerClick in Ht. cbv zeta in Ht.
        destruct (Qle_bool_cases 0 ((clickX + scrollLeft) / pixelsPerSecond))
          as [[H E]|[H E]]; rewrite E in Ht; [|discriminate].
        injection Ht as <-. exact H. }
    split; [exact H0|].
    destruct (Q_max_cases 0 t) as [[H E]|[H E]]; [exact E | lra]. }
  split.
  - intros Hc Hx Hclick. unfold handleTimelineClick.
    rewrite (Qle_bool_true HEADER_WIDTH clickX) by exact Hx. simpl negb. cbv iota zeta.
    assert (E : ((clickX - HEADER_WIDTH + scrollLeft) / pixelsPerSecond
                 == currentTime)%Q).
    { unfold playhead_left in Hclick.
      assert (E1 : (clickX - HEADER_WIDTH + scrollLeft
                    == currentTime * pixelsPerSecond)%Q) by lra.
      rewrite E1. field. exact Hnz. }
    rewrite (Qle_bool_true 0) by (rewrite E; exact Hc).
    eexists. split; [reflexivity | exact E].
  - intros Hc Hclick. unfold handleRulerClick. cbv zeta.
    assert (E : ((clickX + scrollLeft) / pixelsPerSecond == currentTime)%Q).
    { rewrite Hclick. field. exact Hnz. }
    rewrite (Qle_bool_true 0) by (rewrite E; exact Hc).
    eexists. split; [reflexivity | exact E].
Qed.

Lemma timeline_click_seek_witness :
  exists t, handleTimelineClick 50 (260 # 1) 0 = Some t /\ (t == 2 # 1)%Q.
Proof.
  pose proof (timeline_click_seek 50 (260 # 1) 0 (2 # 1) eq_refl)
    as (_ & _ & Hplay & _).
  apply Hplay.
  - vm_compute. discriminate.
  - vm_compute. discriminate.
  - reflexivity.
Defined.

(** X28.  A dragged block follows the mouse.  With a positive scale, the track that
    is dragged ends with its block moved by the distance the mouse has moved
    since the drag began, or at the left edge if that would put it before time
    0; the tracks with another id do not move. *)
Theorem drag_follows_mouse (tracks : list Track) (d : DragState)
    (pixelsPerSecond clientX : Q) (k : nat) (t : Track) :
  (0 < pixelsPerSecond)%Q ->
  tracks !! k = Some t ->
  let moved := drag tracks (Some d) pixelsPerSecond clientX in
  length moved = length tracks /\
  (id t <> trackId d -> moved !! k = Some t) /\
  (id t = trackId d ->
   exists t', moved !! k = Some t' /\
     id t' = id t /\ buffer t' = buffer t /\ volume t' = volume t /\
     isMuted t' = isMuted t /\
     let target :=
       (initialStartTime d * pixelsPerSecond + (clientX - startX d))%Q in
     ((0 <= target)%Q -> (block_left t' pixelsPerSecond == target)%Q) /\
     ((target < 0)%Q -> (block_left t' pixelsPerSecond == 0)%Q)).
Proof.
  intros Hpps Hk moved.
  assert (Hnz : ~ (pixelsPerSecond == 0)%Q) by lra.
  unfold moved, drag, handleMouseMove. cbv zeta.
  split; [apply length_map|].
  rewrite updateTrack_lookup, Hk. cbn [fmap option_fmap option_map].
  split.
  - intros Hne. destruct (String.eqb_spec (id t) (trackId d)); [contradiction|].
    reflexivity.
  - intros He. rewrite (proj2 (String.eqb_eq _ _) He).
    eexists. split; [reflexivity|]. unfold spread. cbn.
    do 4 (split; [reflexivity|]).
    unfold block_left. cbn [startTime].
    set (raw := (initialStartTime d + (clientX - startX d) / pixelsPerSecond)%Q).
    assert (Hraw : (raw * pixelsPerSecond
                    == initialStartTime d * pixelsPerSecond + (clientX - startX d))%Q).
    { unfold raw. field. exact Hnz. }
    destruct (Q_max_cases 0 raw) as [[H ->]|[H ->]]; split; intros Ht; try nra.
Qed.

Lemma drag_follows_mouse_witness :
  exists t',
    drag [trackA; trackB] (Some (mkDragState "B" 100 3)) 50 200 !! 1%nat = Some t' /\
    (block_left t' 50 == 250)%Q.
Proof.
  pose proof (drag_follows_mouse [trackA; trackB] (mkDragState "B" 100 3) 50 200
                1 trackB eq_refl eq_refl) as H.
  cbv zeta in H. destruct H as (_ & _ & Hmove).
  destruct (Hmove eq_refl) as (t' & Hk & _ & _ & _ & _ & Hpos & _).
  exists t'. split; [exact Hk|].
  rewrite Hpos; [reflexivity | vm_compute; discriminate].
Defined.

(** ** Fades only attenuate *)

Lemma attenuated (x f : Q) :
  (0 <= f <= 1)%Q -> (Qabs (x * f) <= Qabs x)%Q /\ (0 <= x * (x * f))%Q.
Proof.
  intros [H0 H1]. rewrite Qabs_Qmult, (Qabs_pos f) by exact H0.
  pose proof (Qabs_nonneg x) as Hx. split; [nra|].
  assert (E : (x * (x * f) == (x * x) * f)%Q) by ring.
  rewrite E. apply Qmult_le_0_compat; [|exact H0].
  destruct (Qlt_le_dec x 0); nra.
Qed.

Lemma Qeq_bool_inject_Z (d : Z) : d <> 0 -> Qeq_bool (inject_Z d) 0 = false.
Proof.
  intros Hd. destruct (Qeq_bool (inject_Z d) 0) eqn:E; [|reflexivity].
  apply Qeq_bool_eq in E. unfold Qeq, inject_Z in E. simpl in E. lia.
Qed.

Lemma ramp_fraction (j s len : Z) :
  0 < len -> s <= j < s + len ->
  (0 <= inject_Z (j - s) / inject_Z len)%Q /\
  (inject_Z (j - s) / inject_Z len <= 1)%Q.
Proof.
  intros Hlen Hj.
  assert (Hl : (0 < inject_Z len)%Q).
  { change 0%Q with (inject_Z 0). rewrite <- Zlt_Qlt. exact Hlen. }
  assert (Hn : (0 <= inject_Z (j - s))%Q).
  { change 0%Q with (inject_Z 0). rewrite <- Zle_Qle. lia. }
  assert (Hm : (inject_Z (j - s) <= inject_Z len)%Q).
  { rewrite <- Zle_Qle. lia. }
  split.
  - apply Qle_shift_div_l; [exact Hl | lra].
  - apply Qle_shift_div_r; [exact Hl | lra].
Qed.

(** X29.  A fade never makes a sample louder: after [applyFadeIn] or [applyFadeOut],
    whatever the selection and the duration, every finite sample of the result
    is finite, its absolute value is at most that of the source sample, and it
    does not change sign. *)
Theorem fades_attenuate (h : heap) (b : AudioBuffer) (selStart selEnd dur : Q)
    (effect : fade) :
  wf_buffer h b = true ->
  exists (h' : heap) (nb : AudioBuffer),
    match effect with
    | fade_in => applyFadeIn b selStart selEnd dur
    | fade_out => applyFadeOut b selStart selEnd dur
    end h = (h', Ok nb) /\
    forall c a, channel h b c = Some a ->
      exists a', channel h' nb c = Some a' /\ length a' = length a /\
        forall j x, index a j = Fin x ->
          exists y, index a' j = Fin y /\
            (Qabs y <= Qabs x)%Q /\ (0 <= x * y)%Q.
Proof.
  intros Hwf.
  assert (Hsame : forall x : Q, (Qabs x <= Qabs x)%Q /\ (0 <= x * x)%Q).
  { intros x. split; [lra|]. destruct (Qlt_le_dec x 0); nra. }
  destruct effect.
  - eexists _, _. split; [apply applyFadeIn_spec, Hwf|].
    intros c a Hc. unfold fadeIn_channels.
    set (s := toSample selStart (sampleRate b)).
    set (e := Z.min (s + toSample dur (sampleRate b)) (toSample selEnd (sampleRate b))).
    destruct (Z.leb_spec (e - s) 0) as [Hle|Hgt].
    + rewrite (channel_result h b (fun x => x)) by apply length_map.
      rewrite (channel_get _ _ _ _ Hc). exists a. split; [reflexivity|].
      split; [reflexivity|]. intros j x Hx. exists x. split; [exact Hx | apply Hsame].
    + rewrite (channel_result h b (map _)) by (rewrite !length_map; reflexivity).
      rewrite list_lookup_fmap, (channel_get _ _ _ _ Hc). simpl.
      eexists. split; [reflexivity|]. split; [apply update_region_length|].
      intros j x Hx. rewrite index_update_region by (eapply index_Fin_in_range; eauto).
      rewrite Hx.
      destruct (Z.leb_spec s j); [|exists x; split; [reflexivity | apply Hsame]].
      destruct (Z.ltb_spec j e); [|exists x; split; [reflexivity | apply Hsame]].
      cbn [andb]. rewrite Qeq_bool_inject_Z by lia. cbn [num_mul].
      eexists. split; [reflexivity|].
      apply attenuated. apply ramp_fraction; lia.
  - eexists _, _. split; [apply applyFadeOut_spec, Hwf|].
    intros c a Hc. unfold fadeOut_channels.
    set (e := toSample selEnd (sampleRate b)).
    set (s := Z.max (toSample selStart (sampleRate b))
                (e - toSample dur (sampleRate b))).
    destruct (Z.leb_spec (e - s) 0) as [Hle|Hgt].
    + rewrite (channel_result h b (fun x => x)) by apply length_map.
      rewrite (channel_get _ _ _ _ Hc). exists a. split; [reflexivity|].
      split; [reflexivity|]. intros j x Hx. exists x. split; [exact Hx | apply Hsame].
    + rewrite (channel_result h b (map _)) by (rewrite !length_map; reflexivity).
      rewrite list_lookup_fmap, (channel_get _ _ _ _ Hc). simpl.
      eexists. split; [reflexivity|]. split; [apply update_region_length|].
      intros j x Hx. rewrite index_update_region by (eapply index_Fin_in_range; eauto).
      rewrite Hx.
      destruct (Z.leb_spec s j); [|exists x; split; [reflexivity | apply Hsame]].
      destruct (Z.ltb_spec j e); [|exists x; split; [reflexivity | apply Hsame]].
      cbn [andb]. rewrite Qeq_bool_inject_Z by lia. cbn [num_mul num_sub of_Z].
      eexists. split; [reflexivity|].
      apply attenuated.
      destruct (ramp_fraction j s (e - s) ltac:(lia) ltac:(lia)) as [Hf0 Hf1].
      change (inject_Z 1) with 1%Q. split; lra.
Qed.

Lemma fades_attenuate_witness :
  exists (h' : heap) (nb : AudioBuffer) (a' : list num) (y : Q),
    applyFadeIn one_second 0 1 (1 # 2) four_ones = (h', Ok nb) /\
    channel h' nb 0 = Some a' /\
    index a' 1 = Fin y /\ (Qabs y <= 1)%Q.
Proof.
  destruct (fades_attenuate four_ones one_second 0 1 (1 # 2) fade_in eq_refl)
    as (h' & nb & Hrun & Hatt).
  destruct (Hatt 0%nat [Fin 1; Fin 1; Fin 1; Fin 1] eq_refl) as (a' & Hch & _ & Hix).
  destruct (Hix 1 1%Q eq_refl) as (y & Hy & Hle & _).
  exists h', nb, a', y. split; [exact Hrun|]. split; [exact Hch|].
  split; [exact Hy | exact Hle].
Defined.
